(** * pymadcad, [madcad/cut.py]: the edge cutting engine

    A shallow embedding of the cutting functions of [madcad/cut.py] and
    the properties its specification states about them.

    Conventions of the embedding.
    - Point and face indices are [nat]; a face is a triple of point
      indices; the mesh is the record [Mesh] of its four parallel
      containers.
    - A Python [dict] is a [gmap], a Python [set] a [gset]; a Python list
      used as an array is a [list] read with [!!] and written with
      [<[i:=x]>], the [IndexError] of an access out of range made explicit.
    - Python exceptions are values of [exn]; a function that only reads
      its arguments lives in the error monad [res], a function that
      mutates the mesh or the propagation state lives in the state and
      error monad [ST], where the state reached when an exception is raised
      is kept, as the mutated Python objects are.
    - Coordinates are exact rationals [Q].  The functions of [mathutils]
      that take a square root ([normalize], [length], [distance],
      [noproject]) are not part of this file: they are parameters of the
      sections that use them.  IEEE rounding and infinities are not
      modelled; NaN is modelled where the code compares a value computed
      from [normalize] of a zero vector ([faceheight]).
    - A name that a function body reads without binding it is looked up in
      the globals of the module, as Python does; the globals bound by the
      text of [cut.py] are [module_globals]. *)

From Stdlib Require Import ZArith QArith Qfield Lia Lqa.
From stdpp Require Import base option list gmap strings.

Local Open Scope Z_scope.
Local Open Scope nat_scope.
Local Open Scope string_scope.
Local Open Scope list_scope.

(** ** Python exceptions and the error monad *)

Inductive exn : Type :=
  | NameError (name : string)
  | KeyError
  | IndexError
  | TypeError
  | AttributeError.

Inductive res (A : Type) : Type :=
  | Val (a : A)
  | Exc (e : exn).
Arguments Val {A} a.
Arguments Exc {A} e.

#[global] Instance res_ret : MRet res := fun A a => Val a.
#[global] Instance res_bind : MBind res := fun A B k c =>
  match c with
  | Val a => k a
  | Exc e => Exc e
  end.

Definition is_val {A} (r : res A) : Prop :=
  match r with Val _ => True | Exc _ => False end.

(** [l[i]] on a Python list with a non-negative index. *)
Definition getitem {A} (l : list A) (i : nat) : res A :=
  match l !! i with
  | Some a => Val a
  | None => Exc IndexError
  end.

(** [l[k]] on a Python sequence with any integer index: a negative index
    counts from the end. *)
Definition pyindex {A} (l : list A) (k : Z) : res A :=
  let n := Z.of_nat (length l) in
  if (0 <=? k)%Z && (k <? n)%Z then getitem l (Z.to_nat k)
  else if (- n <=? k)%Z && (k <? 0)%Z then getitem l (Z.to_nat (k + n))
  else Exc IndexError.

(** ** Vectors of [mathutils], over exact rationals *)

Record vec3 : Type := V3 { vx : Q; vy : Q; vz : Q }.

Definition vadd (a b : vec3) : vec3 :=
  V3 (vx a + vx b) (vy a + vy b) (vz a + vz b).
Definition vsub (a b : vec3) : vec3 :=
  V3 (vx a - vx b) (vy a - vy b) (vz a - vz b).
Definition vneg (a : vec3) : vec3 := V3 (- vx a) (- vy a) (- vz a).
Definition vscale (k : Q) (a : vec3) : vec3 :=
  V3 (k * vx a) (k * vy a) (k * vz a).
Definition dot (a b : vec3) : Q :=
  (vx a * vx b + vy a * vy b + vz a * vz b)%Q.
Definition cross (a b : vec3) : vec3 :=
  V3 (vy a * vz b - vz a * vy b)
     (vz a * vx b - vx a * vz b)
     (vx a * vy b - vy a * vx b).
Definition vred (a : vec3) : vec3 := V3 (Qred (vx a)) (Qred (vy a)) (Qred (vz a)).

(** Determinant of the matrix whose columns are [a], [b], [c]
    ([dmat3(a,b,c)] is built from its columns). *)
Definition det3 (a b c : vec3) : Q := dot a (cross b c).

(** [inverse(dmat3(a,b,c)) * r], by Cramer's rule. *)
Definition solve_columns (a b c r : vec3) : vec3 :=
  let d := det3 a b c in
  V3 (det3 r b c / d) (det3 a r c / d) (det3 a b r / d).

(** [inverse(transpose(dmat3(a,b,c))) * r]: the rows of the matrix are
    [a], [b], [c]. *)
Definition solve_rows (a b c r : vec3) : vec3 :=
  solve_columns (V3 (vx a) (vx b) (vx c))
                (V3 (vy a) (vy b) (vy c))
                (V3 (vz a) (vz b) (vz c)) r.

Definition Qltb (a b : Q) : bool := negb (Qle_bool b a).
Definition Qabs' (a : Q) : Q := if Qle_bool 0 a then a else (- a)%Q.

(** ** The mesh store *)

Definition face : Type := nat * nat * nat.
Definition edge : Type := nat * nat.

Record Mesh : Type := mkMesh {
  points : list vec3;
  faces : list face;
  tracks : list nat;
  groups : list string
}.

(** The three directed edges of a face, in the order in which
    [registerface] and [unregisterface] enumerate them. *)
Definition face_edges (f : face) : list edge :=
  let '(a, b, c) := f in [(a, b); (b, c); (c, a)].

(** [f[k]] on a face, for the indices the code uses ([j], [j-1], [j-2]
    with [j] in [range(3)]): Python indexing of a 3-tuple. *)
Definition fnth {A} (t : A * A * A) (k : Z) : A :=
  let '(a, b, c) := t in
  match (k mod 3)%Z with
  | 0%Z => a
  | 1%Z => b
  | _ => c
  end.

(** ** Connectivity index: [registerface], [unregisterface] *)

Definition register_edges (f : face) (fi : nat) (conn : gmap edge nat)
  : gmap edge nat :=
  foldl (fun c e => <[e := fi]> c) conn (face_edges f).

Definition unregister_edges (f : face) (conn : gmap edge nat)
  : gmap edge nat :=
  foldl (fun c e => match c !! e with
                    | Some _ => delete e c
                    | None => c
                    end) conn (face_edges f).

Definition registerface (fs : list face) (conn : gmap edge nat) (fi : nat)
  : res (gmap edge nat) :=
  f ← getitem fs fi; mret (register_edges f fi conn).

Definition unregisterface (fs : list face) (conn : gmap edge nat) (fi : nat)
  : res (gmap edge nat) :=
  f ← getitem fs fi; mret (unregister_edges f conn).

(** ** The state and error monad *)

Definition ST (S A : Type) : Type := S → res A * S.

#[global] Instance ST_ret {S} : MRet (ST S) := fun A a st => (Val a, st).
#[global] Instance ST_bind {S} : MBind (ST S) := fun A B k c st =>
  match c st with
  | (Val a, st') => k a st'
  | (Exc e, st') => (Exc e, st')
  end.

Definition gets {S A} (f : S → A) : ST S A := fun st => (Val (f st), st).
Definition modify {S} (f : S → S) : ST S unit := fun st => (Val tt, f st).
Definition lift {S A} (r : res A) : ST S A := fun st => (r, st).
Definition raise {S A} (e : exn) : ST S A := fun st => (Exc e, st).

(** ** What [cut.py] imports

    [mathutils] and [mesh] are not among the sources; the functions the
    embedded code calls from them are the fields of these two classes. *)

Class Mathutils : Type := {
  sqrt : Q → Q;
  normalize : vec3 → vec3;
  (** [length(v)] of [mathutils] *)
  vlength : vec3 → Q;
  distance : vec3 → vec3 → Q;
  noproject : vec3 → vec3 → vec3;
  NUMPREC : Q
}.

Class MeshLib : Type := {
  (** [mesh.precision()] *)
  precision : Mesh → Q;
  (** [mesh.facenormal(f)] *)
  facenormal : Mesh → face → res vec3;
  (** [mesh.vertexnormals()] *)
  vertexnormals : Mesh → list vec3;
  (** [suites(edges)]: the edges assembled in chains of points *)
  suites : list edge → list (list nat);
  (** [line_simplification(Web(points, edges), prec)]: the merge map *)
  line_simplification : list vec3 → list edge → Q → gmap nat nat;
  (** [gt.flatsurface(Wire(points, indices)).faces] *)
  flatsurface : list vec3 → list nat → list face
}.

(** Modelled from the spec: [Mesh.usepointat] of [mesh.py], the
    "locate-or-create point within tolerance" operation of the mesh store:
    the index of the first point within [prec] of [p], or else the index of
    [p] appended to the points. *)
Fixpoint pointat `{Mathutils} (pts : list vec3) (p : vec3) (prec : Q) (i : nat)
  : option nat :=
  match pts with
  | [] => None
  | q :: pts' =>
      if Qle_bool (distance q p) prec then Some i
      else pointat pts' p prec (S i)
  end.

Definition usepointat `{Mathutils} (pts : list vec3) (p : vec3) (prec : Q)
  : list vec3 * nat :=
  match pointat pts p prec 0 with
  | Some i => (pts, i)
  | None => (pts ++ [p], length pts)
  end.

(** Modelled from the spec: [Mesh.facepoints] of [mesh.py], the "face
    points query by index". *)
Definition facepoints (m : Mesh) (fi : nat) : res (vec3 * vec3 * vec3) :=
  f ← getitem (faces m) fi;
  let '(a, b, c) := f in
  pa ← getitem (points m) a;
  pb ← getitem (points m) b;
  pc ← getitem (points m) c;
  mret (pa, pb, pc).

(** ** Python values and the globals of the module *)

#[warnings="-register-all"]
Inductive pyval : Type :=
  | PyNone
  | PyInt (z : Z)
  | PyFloat (q : Q)
  | PyStr (s : string)
  | PyVec (v : vec3)
  | PyTuple (items : list pyval)
  | PyList (items : list pyval)
  | PySet (s : gset nat)
  (** the function object made by the [def] statement at that line *)
  | PyDef (name : string) (line : nat)
  (** an object bound by an [import]; the flag tells whether it is callable *)
  | PyImported (name : string) (is_callable : bool)
  (** a callable of the caller, of two face normals *)
  | PyLambda (f : vec3 → vec3 → res vec3)
  (** a set of edges, as [cut_edge] returns *)
  | PyEdges (s : gset edge).

(** The names the text of [cut.py] binds at module level, in the order in
    which the statements run: the imports, [__all__], and the [def]s.
    ([cut], line 530, is listed although the text of its body is not
    complete at line 533.) *)
Definition module_bindings : list (string * pyval) :=
  (List.map (fun n => (n, PyImported n true))
     ["vec3"; "mat3"; "dmat3"; "dvec3"; "dot"; "cross"; "project";
      "noproject"; "anglebt"; "sqrt"; "cos"; "acos"; "asin"; "spline";
      "interpol1"; "normalize"; "distance"; "length"; "inverse";
      "transpose"])
  ++ [("NUMPREC", PyImported "NUMPREC" false);
      ("COMPREC", PyImported "COMPREC" false)]
  ++ (List.map (fun n => (n, PyImported n true))
     ["Mesh"; "Web"; "Wire"; "lineedges"; "connef"; "suites";
      "line_simplification"])
  ++ [("gt", PyImported "generation" false);
      ("text", PyImported "text" false);
      ("settings", PyImported "settings" false);
      ("__all__", PyList (List.map PyStr
         ["chamfer"; "bevel"; "beveltgt"; "tangentjunction"; "cut";
          "cutsegments"; "planeoffsets"; "cut_width"; "cut_distance";
          "cut_depth"; "cut_angle"]));
      ("cut_width", PyDef "cut_width" 16);
      ("cut_distance", PyDef "cut_distance" 22);
      ("cut_depth", PyDef "cut_depth" 26);
      ("cut_angle", PyDef "cut_angle" 30);
      ("chamfer", PyDef "chamfer" 37);
      ("chamfer", PyDef "chamfer" 56);
      ("beveltgt", PyDef "beveltgt" 89);
      ("bevel", PyDef "bevel" 141);
      ("tangentjunction", PyDef "tangentjunction" 194);
      ("planeoffsets", PyDef "planeoffsets" 218);
      ("interpretcutter", PyDef "interpretcutter" 248);
      ("separators", PyDef "separators" 258);
      ("cut_line", PyDef "cut_line" 305);
      ("cut_edge", PyDef "cut_edge" 352);
      ("cut_corner", PyDef "cut_corner" 469);
      ("cut", PyDef "cut" 530);
      ("unproject", PyDef "unproject" 587);
      ("arrangeface", PyDef "arrangeface" 590);
      ("registerface", PyDef "registerface" 595);
      ("unregisterface", PyDef "unregisterface" 600);
      ("segmentsdict", PyDef "segmentsdict" 605);
      ("intersection_edge_plane", PyDef "intersection_edge_plane" 612);
      ("intersection_axis_face", PyDef "intersection_axis_face" 623);
      ("removefaces", PyDef "removefaces" 632);
      ("faceheight", PyDef "faceheight" 651)].

(** Each binding statement overwrites the earlier binding of its name. *)
Definition module_globals : gmap string pyval :=
  foldl (fun g b => <[b.1 := b.2]> g) ∅ module_bindings.
Arguments module_globals : simpl never.

(** Reading a name that the function does not bind. *)
Definition load_global (G : gmap string pyval) (name : string) : res pyval :=
  match G !! name with
  | Some v => Val v
  | None => Exc (NameError name)
  end.

(** ** Offset policies: [cut_width], [cut_distance], [cut_depth],
    [cut_angle] *)

Definition cut_width `{Mathutils} (width : Q) (fn1 fn2 : vec3) : vec3 :=
  let n := normalize (vadd fn1 fn2) in
  let s := dot fn1 n in
  vscale (- width / 2 * sqrt (1 / (s * s) - 1))%Q n.

Definition cut_distance `{Mathutils} (depth : Q) (fn1 fn2 : vec3) : vec3 :=
  vscale (- depth)%Q (normalize (vadd fn1 fn2)).

Definition cut_depth `{Mathutils} (dist : Q) (fn1 fn2 : vec3) : vec3 :=
  vscale (- dist)%Q (cross (normalize (cross fn1 fn2)) (vsub fn1 fn2)).

(** [cut_angle] reads [n] without binding it: the name is a global. *)
Definition cut_angle (G : gmap string pyval) (depth : Q) (fn1 fn2 : vec3)
  : res vec3 :=
  n ← load_global G "n";
  match n with
  | PyVec n =>
      let s := dot fn1 n in
      Val (vscale (- depth / 2 * (1 / s - s))%Q n)
  | _ => Exc TypeError
  end.

(** The value the specification gives for the [angle] policy. *)
Definition cut_angle_spec `{Mathutils} (depth : Q) (fn1 fn2 : vec3) : vec3 :=
  let n := normalize (vadd fn1 fn2) in
  let s := dot fn1 n in
  vscale (- depth / 2 * (1 / s - s))%Q n.

(** ** [interpretcutter] *)

Definition callable (v : pyval) : bool :=
  match v with
  | PyDef _ _ | PyLambda _ => true
  | PyImported _ c => c
  | _ => false
  end.

(** The callable [interpretcutter] returns: the lambda that closes over
    [func] and [arg], or the callable it was given. *)
Inductive cutterfn : Type :=
  | Bound (func : pyval) (arg : pyval)
  | Given (c : pyval).

Definition interpretcutter (G : gmap string pyval) (cutter : pyval)
  : res cutterfn :=
  match cutter with
  | PyTuple items =>
      name ← getitem items 0;
      key ← match name with
            | PyStr s => Val ("cut_" +:+ s)
            | _ => Exc TypeError
            end;
      func ← match G !! key with
             | Some f => Val f
             | None => Exc KeyError
             end;
      arg ← getitem items 1;
      mret (Bound func arg)
  | _ => if callable cutter then Val (Given cutter) else Exc TypeError
  end.

(** The four offset policies the specification lists. *)
Definition builtin_policies : list string :=
  ["width"; "distance"; "depth"; "angle"].

(** The specification's reading of the accepted cutters. *)
Definition accepted_by_spec (cutter : pyval) : Prop :=
  match cutter with
  | PyTuple [PyStr name; _] => name ∈ builtin_policies
  | PyTuple _ => False
  | _ => callable cutter = true
  end.

Definition as_number (v : pyval) : res Q :=
  match v with
  | PyInt z => Val (inject_Z z)
  | PyFloat q => Val q
  | _ => Exc TypeError
  end.

(** Calling the cutter on two face normals. *)
Definition call_cutter `{Mathutils} (G : gmap string pyval) (c : cutterfn)
    (fn1 fn2 : vec3) : res vec3 :=
  match c with
  | Bound (PyDef name _) arg =>
      if decide (name = "cut_width") then
        w ← as_number arg; mret (cut_width w fn1 fn2)
      else if decide (name = "cut_distance") then
        d ← as_number arg; mret (cut_distance d fn1 fn2)
      else if decide (name = "cut_depth") then
        d ← as_number arg; mret (cut_depth d fn1 fn2)
      else if decide (name = "cut_angle") then
        (* [s = dot(fn1,n)] reads [n] before [depth] is used *)
        r ← cut_angle G 0 fn1 fn2;
        d ← as_number arg; cut_angle G d fn1 fn2
      else if decide (name = "cut_line") then
        (* [cut_line(arg, fn1, fn2)]: [arg.precision()] *)
        Exc AttributeError
      else
        (* [cut_edge], [cut_corner]: arguments are missing *)
        Exc TypeError
  | Bound _ _ => Exc TypeError
  | Given (PyLambda f) => f fn1 fn2
  | Given _ => Exc TypeError
  end.

(** ** [segmentsdict], [planeoffsets] *)

Definition segmentsdict (line : list nat) : gmap edge nat :=
  foldl (fun segments i =>
           match line !! i, line !! (i + 1) with
           | Some a, Some b => <[(a, b) := i]> segments
           | _, _ => segments
           end) ∅ (seq 0 (length line - 1)).

(** The two dictionaries of adjacent normals, updated for one edge of one
    face. *)
Definition adjacents_edge `{MeshLib} (m : Mesh) (segts : gmap edge nat)
    (f : face) (adj : gmap nat vec3 * gmap nat vec3) (e : edge)
  : res (gmap nat vec3 * gmap nat vec3) :=
  match segts !! e with
  | Some k => n ← facenormal m f; mret (<[k := n]> adj.1, adj.2)
  | None =>
      match segts !! (e.2, e.1) with
      | Some k => n ← facenormal m f; mret (adj.1, <[k := n]> adj.2)
      | None => mret adj
      end
  end.

(** A [for] loop whose body may raise. *)
Fixpoint for_each {A B} (body : B → A → res B) (l : list A) (acc : B)
  : res B :=
  match l with
  | [] => Val acc
  | x :: l' => acc' ← body acc x; for_each body l' acc'
  end.

Definition getkey {V} (d : gmap nat V) (k : nat) : res V :=
  match d !! k with
  | Some v => Val v
  | None => Exc KeyError
  end.

Definition planeoffsets `{Mathutils} `{MeshLib} (G : gmap string pyval)
    (m : Mesh) (line : list nat) (cutter : pyval) : res (list vec3) :=
  c ← interpretcutter G cutter;
  let segts := segmentsdict line in
  adjacents ← for_each
    (fun adj f => for_each (adjacents_edge m segts f) (face_edges f) adj)
    (faces m) (∅, ∅);
  for_each
    (fun offsets i =>
       fn1 ← getkey adjacents.1 i;
       fn2 ← getkey adjacents.2 i;
       offset ← call_cutter G c fn1 fn2;
       b ← getitem line (i + 1);
       pb ← getitem (points m) b;
       a ← getitem line i;
       pa ← getitem (points m) a;
       mret (offsets ++
             [if Qltb (dot (cross fn1 fn2) (vsub pb pa)) 0
              then vneg offset else offset]))
    (seq 0 (length line - 1)) [].

(** ** [chamfer]

    The module has two [def chamfer]; the name is bound to the second
    ([module_globals]).  [chamfer] below is that second function;
    [chamfer_shadowed] is the first one, which no caller can reach by
    name.

    [cut] (line 530) is taken as a parameter: line 533 of its text is not
    a complete statement. *)

(** A Python [dict] whose order of insertion is read back by [items()]. *)
Fixpoint dict_set {V} (k : nat) (v : V) (d : list (nat * V))
  : list (nat * V) :=
  match d with
  | [] => [(k, v)]
  | (k', v') :: d' =>
      if decide (k = k') then (k, v) :: d'
      else (k', v') :: dict_set k v d'
  end.

Fixpoint dict_get {V} (k : nat) (d : list (nat * V)) (default : V) : V :=
  match d with
  | [] => default
  | (k', v') :: d' => if decide (k = k') then v' else dict_get k d' default
  end.

Definition Qmin' (a b : Q) : Q := if Qle_bool a b then a else b.

(** The body of the first loop of [chamfer], for one line. *)
Definition chamfer_corners `{Mathutils} `{MeshLib} (G : gmap string pyval)
    (m : Mesh) (cutter : pyval) (normals : list vec3)
    (acc : list (nat * Q) * list (list vec3)) (line : list nat)
  : res (list (nat * Q) * list (list vec3)) :=
  let '(corners, offs) := acc in
  offsets ← planeoffsets G m line cutter;
  let offs := offs ++ [offsets] in
  first ← pyindex line 0;
  o ← pyindex offsets 0;
  n ← getitem normals first;
  let corners :=
    dict_set first (Qmin' (dict_get first corners 0%Q) (dot o o / dot o n)%Q)
             corners in
  last ← pyindex line (-1);
  o ← pyindex offsets (-1);
  n ← getitem normals last;
  let corners :=
    dict_set last (Qmin' (dict_get last corners 0%Q) (dot o o / dot o n)%Q)
             corners in
  mret (corners, offs).

(** A [for] loop whose body mutates the state and may raise. *)
Fixpoint for_each_st {S A} (body : A → ST S unit) (l : list A) : ST S unit :=
  match l with
  | [] => mret tt
  | x :: l' => body x ;; for_each_st body l'
  end.

Definition chamfer `{Mathutils} `{MeshLib}
    (cut : list nat → list vec3 → ST Mesh (list edge))
    (G : gmap string pyval) (edges : list edge) (cutter : pyval)
  : ST Mesh unit :=
  normals ← gets vertexnormals;
  let lines := suites edges in
  m ← gets id;
  '(corners, offs) ← lift (for_each (chamfer_corners G m cutter normals)
                                   lines ([], []));
  (* cut faces *)
  for_each_st
    (fun '(point, offset) =>
       n ← lift (getitem normals point);
       (* [cut_corner(mesh, point, offset*normals[point])]: [cut_corner]
          takes six positional arguments *)
       raise TypeError)
    corners ;;
  for_each_st
    (fun '(line, offsets) => _ ← cut line offsets; mret tt)
    (zip lines offs).

(** The first [def chamfer] (line 37), rebound at line 56. *)
Definition chamfer_shadowed `{Mathutils} `{MeshLib}
    (cut : list nat → list vec3 → ST Mesh (list (list edge)))
    (G : gmap string pyval) (line : list nat) (cutter : pyval)
  : ST Mesh unit :=
  m ← gets id;
  offsets ← lift (planeoffsets G m line cutter);
  segments ← cut line offsets;
  group ← gets (fun m => length (groups m));
  modify (fun m => mkMesh (points m) (faces m) (tracks m)
                          (groups m ++ ["junction"])) ;;
  for_each_st
    (fun s =>
       match s with
       | [] => mret tt
       | _ =>
           pts ← gets points;
           let lp := concat (suites s) in
           let fs := flatsurface pts lp in
           modify (fun m => mkMesh (points m) (faces m ++ fs)
                                   (tracks m ++ replicate (length fs) group)
                                   (groups m))
       end)
    segments.

(** ** [separators] *)

(** A separator: (origin, plane normal, axis direction). *)
Definition plane : Type := vec3 * vec3 * vec3.

(** The body of the first loop of [separators], for the vertex [i] of the
    line: the plane that separates the cut planes of the edges before and
    after the vertex, or [None] when the two planes are parallel. *)
Definition separator_at `{Mathutils} `{MeshLib} (m : Mesh) (line : list nat)
    (offsets : list vec3) (l i : nat) : res (option plane) :=
  n1 ← getitem offsets ((i - 1) mod l);
  n2 ← getitem offsets (i mod l);
  let d := cross n1 n2 in
  if Qltb (precision m) (vlength d) then
    let d := normalize d in
    v ← getitem line i;
    p ← getitem (points m) v;
    let intersect :=
      solve_rows n1 n2 d
        (V3 (dot (vadd p n1) n1) (dot (vadd p n2) n2) (dot p d)) in
    let n := normalize (cross d (vsub intersect p)) in
    v ← getitem line i;
    p1 ← getitem (points m) v;
    v0 ← getitem line (i - 1);
    p0 ← getitem (points m) v0;
    let n := if Qltb 0 (dot n (vsub p1 p0)) then vneg n else n in
    mret (Some (intersect, n, d))
  else
    mret None.

(** [for i in range(1,len(segments)): if not segments[i]:
    segments[i] = segments[i-1]] *)
Definition fill_forward {A} (segments : list (option A)) : list (option A) :=
  foldl (fun s i =>
           match s !! i, s !! (i - 1) with
           | Some None, Some prev => <[i := prev]> s
           | _, _ => s
           end)
        segments (seq 1 (length segments - 1)).

(** [for i in reversed(range(len(segments)-1)): if not segments[i]:
    segments[i] = segments[i+1]] *)
Definition fill_backward {A} (segments : list (option A)) : list (option A) :=
  foldl (fun s i =>
           match s !! i, s !! (i + 1) with
           | Some None, Some next => <[i := next]> s
           | _, _ => s
           end)
        segments (reverse (seq 0 (length segments - 1))).

(** The list [segments] at the end of the first loop of [separators]. *)
Definition separators_local `{Mathutils} `{MeshLib} (m : Mesh)
    (line : list nat) (offsets : list vec3) : res (list (option plane)) :=
  let l := length line - 1 in
  first ← pyindex line 0;
  last ← pyindex line (-1);
  for_each (fun segments i =>
              s ← separator_at m line offsets l i;
              mret (segments ++ [s]))
           (seq 1 ((if decide (first ≠ last) then l else l + 1) - 1)) [].

Definition separators `{Mathutils} `{MeshLib} (m : Mesh) (line : list nat)
    (offsets : list vec3) : res (list (option plane)) :=
  segments ← separators_local m line offsets;
  mret (fill_backward (fill_forward segments)).



(** ** [faceheight], [removefaces] and the last phase of [cut_line] *)

(** A Python float: a number or NaN. *)
Inductive pyfloat : Type :=
  | Fin (q : Q)
  | NaN.

(** [a < b] on floats and [a <= prec]: false when a side is NaN. *)
Definition float_ltb (a b : pyfloat) : bool :=
  match a, b with
  | Fin x, Fin y => Qltb x y
  | _, _ => false
  end.
Definition float_leb (a : pyfloat) (prec : Q) : bool :=
  match a with
  | Fin x => Qle_bool x prec
  | NaN => false
  end.

(** Python's [min] of a list that is not empty: the first element,
    replaced by a later one when the later one is less.  A NaN in the
    first place stays, a NaN in a later place is skipped. *)
Definition pymin (first : pyfloat) (rest : list pyfloat) : pyfloat :=
  foldl (fun m h => if float_ltb h m then h else m) first rest.

Definition is_zero (v : vec3) : bool :=
  Qeq_bool (vx v) 0 && Qeq_bool (vy v) 0 && Qeq_bool (vz v) 0.

(** [normalize] of the zero vector is NaN in every coordinate (it
    multiplies by the inverse square root of the squared length), and
    [noproject] and [length] of NaN are NaN: the height measured from an
    edge whose two ends are at the same point is NaN.  For every other
    edge the imported functions apply. *)
Definition faceheight `{Mathutils} (m : Mesh) (fi : nat) : res pyfloat :=
  f ← facepoints m fi;
  let height (i : Z) :=
    let e := vsub (fnth f (i - 1)) (fnth f i) in
    if is_zero e then NaN
    else Fin (vlength (noproject (vsub (fnth f (i - 2)) (fnth f i))
                                 (normalize e))) in
  mret (pymin (height 0%Z) [height 1%Z; height 2%Z]).

(** The loop of [removefaces]: the lists [newfaces] and [newtracks]. *)
Definition removefaces_loop (crit : nat → res bool) (m : Mesh)
  : res (list face * list nat) :=
  for_each (fun (acc : list face * list nat) (i : nat) =>
              c ← crit i;
              if c : bool then Val acc
              else
                f ← getitem (faces m) i;
                t ← getitem (tracks m) i;
                mret (acc.1 ++ [f], acc.2 ++ [t]))
           (seq 0 (length (faces m))) ([], []).

Definition removefaces (crit : Mesh → nat → res bool) : ST Mesh unit :=
  fun m =>
    match removefaces_loop (crit m) m with
    | Val (newfaces, newtracks) =>
        (Val tt, mkMesh (points m) newfaces newtracks (groups m))
    | Exc e => (Exc e, m)
    end.

Definition merges_get (merges : gmap nat nat) (a : nat) : nat :=
  default a (merges !! a).

(** [merges.update(reindex)] *)
Definition dict_update (merges reindex : gmap nat nat) : gmap nat nat :=
  reindex ∪ merges.

(** Lines 330-338: the segments of each group reindexed, and the union of
    the merge maps. *)
Definition simplify_groups `{MeshLib} (pts : list vec3) (prec : Q)
    (result : list (list edge)) : list (list edge) * gmap nat nat :=
  foldl (fun acc grp =>
           let reindex := line_simplification pts grp prec in
           let lines :=
             omap (fun e : edge =>
                     let c := merges_get reindex e.1 in
                     let d := merges_get reindex e.2 in
                     if decide (c ≠ d) then Some (c, d) else None) grp in
           (acc.1 ++ [lines], dict_update acc.2 reindex))
        ([], ∅) result.

(** Lines 340-345: [for i,f in enumerate(mesh.faces): mesh.faces[i] = ...] *)
Definition apply_merges (merges : gmap nat nat) (fs : list face) : list face :=
  foldl (fun fs i =>
           match fs !! i with
           | Some (a, b, c) =>
               <[i := (merges_get merges a, merges_get merges b,
                       merges_get merges c)]> fs
           | None => fs
           end)
        fs (seq 0 (length fs)).

(** The criterion of line 348. *)
Definition cut_line_crit `{Mathutils} (removal : gset nat) (prec : Q)
    (m : Mesh) (fi : nat) : res bool :=
  if decide (fi ∈ removal) then mret true
  else h ← faceheight m fi; mret (float_leb h prec).

(** Lines 329-350 of [cut_line], from the values of [result] and [removal]
    that the propagation loop leaves. *)
Definition cut_line_simplify `{Mathutils} `{MeshLib} (result : list (list edge))
    (removal : gset nat) (prec : Q) : ST Mesh (list (list edge)) :=
  pts ← gets points;
  let '(result, merges) := simplify_groups pts prec result in
  modify (fun m => mkMesh (points m) (apply_merges merges (faces m))
                          (tracks m) (groups m)) ;;
  removefaces (cut_line_crit removal prec) ;;
  mret result.

(** ** [intersection_edge_plane], [intersection_axis_face] *)

Definition vdiv (a : vec3) (k : Q) : vec3 := V3 (vx a / k) (vy a / k) (vz a / k).

Definition intersection_edge_plane `{Mathutils} (axis : vec3 * vec3)
    (e : vec3 * vec3) (prec : Q) : option vec3 :=
  let dist := dot (vsub axis.1 e.1) axis.2 in
  let compl := dot (vsub axis.1 e.2) axis.2 in
  if Qle_bool (Qabs' dist) prec then Some e.1
  else if Qle_bool (Qabs' compl) prec then Some e.2
  else if Qltb 0 (dist * compl) then None
  else
    let edgedir := vsub e.2 e.1 in
    if Qle_bool (Qabs' (dot edgedir axis.2)) NUMPREC then None
    else
      let edgedir := normalize edgedir in
      Some (vadd e.1 (vdiv (vscale dist edgedir) (dot edgedir axis.2))).

Definition intersection_axis_face (axis : vec3 * vec3)
    (f : vec3 * vec3 * vec3) : option vec3 :=
  let '(f0, f1, f2) := f in
  let coords := solve_columns (vsub f1 f0) (vsub f2 f0) axis.2
                              (vsub axis.1 f0) in
  if Qltb 0 (vx coords) && Qltb 0 (vy coords)
     && Qltb (vx coords + vy coords) 1
  then Some (vadd (vadd f0 (vscale (vx coords) (vsub f1 f0)))
                  (vscale (vy coords) (vsub f2 f0)))
  else None.

(** ** [cut_edge]: the propagation state *)

Record cut_state : Type := mkState {
  st_mesh : Mesh;
  st_conn : gmap edge nat;
  st_seen : gset nat;
  (** the stack [front]; [pop()] takes the last element *)
  st_front : list edge;
  st_intersections : gset edge;
  (** the globals of the module; [cut_edge] reads [i] and [removal] there *)
  st_globals : gmap string pyval
}.

Definition upd_mesh (f : Mesh → Mesh) (st : cut_state) : cut_state :=
  mkState (f (st_mesh st)) (st_conn st) (st_seen st) (st_front st)
          (st_intersections st) (st_globals st).
Definition upd_conn (c : gmap edge nat) (st : cut_state) : cut_state :=
  mkState (st_mesh st) c (st_seen st) (st_front st)
          (st_intersections st) (st_globals st).
Definition upd_seen (f : gset nat → gset nat) (st : cut_state) : cut_state :=
  mkState (st_mesh st) (st_conn st) (f (st_seen st)) (st_front st)
          (st_intersections st) (st_globals st).
Definition upd_front (f : list edge → list edge) (st : cut_state) : cut_state :=
  mkState (st_mesh st) (st_conn st) (st_seen st) (f (st_front st))
          (st_intersections st) (st_globals st).
Definition upd_intersections (f : gset edge → gset edge) (st : cut_state)
  : cut_state :=
  mkState (st_mesh st) (st_conn st) (st_seen st) (st_front st)
          (f (st_intersections st)) (st_globals st).
Definition upd_globals (f : gmap string pyval → gmap string pyval)
    (st : cut_state) : cut_state :=
  mkState (st_mesh st) (st_conn st) (st_seen st) (st_front st)
          (st_intersections st) (f (st_globals st)).

Definition st_faces (st : cut_state) : list face := faces (st_mesh st).
Definition st_tracks (st : cut_state) : list nat := tracks (st_mesh st).
Definition st_points (st : cut_state) : list vec3 := points (st_mesh st).

Definition set_faces (fs : list face) (m : Mesh) : Mesh :=
  mkMesh (points m) fs (tracks m) (groups m).
Definition set_tracks (ts : list nat) (m : Mesh) : Mesh :=
  mkMesh (points m) (faces m) ts (groups m).
Definition set_points (ps : list vec3) (m : Mesh) : Mesh :=
  mkMesh ps (faces m) (tracks m) (groups m).

(** [seen.add(fi)] *)
Definition seen_add (fi : nat) : ST cut_state unit :=
  modify (upd_seen (fun s => {[fi]} ∪ s)).
(** [front.append(e)] *)
Definition front_append (e : edge) : ST cut_state unit :=
  modify (upd_front (fun l => l ++ [e])).
(** [for j in range(3): front.append((f[j],f[j-1]))] *)
Definition push_face_edges (f : face) : ST cut_state unit :=
  front_append (fnth f 0, fnth f (-1)) ;;
  front_append (fnth f 1, fnth f 0) ;;
  front_append (fnth f 2, fnth f 1).
(** [mesh.faces[fi]], [mesh.tracks[fi]], [mesh.points[pi]] *)
Definition getface (fi : nat) : ST cut_state face :=
  fs ← gets st_faces; lift (getitem fs fi).
Definition gettrack (fi : nat) : ST cut_state nat :=
  ts ← gets st_tracks; lift (getitem ts fi).
Definition getpoint (pi : nat) : ST cut_state vec3 :=
  ps ← gets st_points; lift (getitem ps pi).
(** [mesh.faces[fi] = f], after [mesh.faces[fi]] has been read *)
Definition set_face (fi : nat) (f : face) : ST cut_state unit :=
  modify (upd_mesh (fun m => set_faces (<[fi := f]> (faces m)) m)).
(** [mesh.faces.append(f)], [mesh.tracks.append(t)] *)
Definition append_face (f : face) : ST cut_state unit :=
  modify (upd_mesh (fun m => set_faces (faces m ++ [f]) m)).
Definition append_track (t : nat) : ST cut_state unit :=
  modify (upd_mesh (fun m => set_tracks (tracks m ++ [t]) m)).
(** [mesh.usepointat(p, prec)] *)
Definition st_usepointat `{Mathutils} (p : vec3) (prec : Q)
  : ST cut_state nat :=
  ps ← gets st_points;
  let r := usepointat ps p prec in
  modify (upd_mesh (set_points r.1)) ;;
  mret r.2.
(** [registerface(mesh, conn, fi)], [unregisterface(mesh, conn, fi)] *)
Definition st_registerface (fi : nat) : ST cut_state unit :=
  fs ← gets st_faces;
  conn ← gets st_conn;
  c ← lift (registerface fs conn fi);
  modify (upd_conn c).
Definition st_unregisterface (fi : nat) : ST cut_state unit :=
  fs ← gets st_faces;
  conn ← gets st_conn;
  c ← lift (unregisterface fs conn fi);
  modify (upd_conn c).
(** [removal.add(k)], [removal.discard(k)]: [removal] is not bound in
    [cut_edge], it is read from the globals *)
Definition removal_update (f : gset nat → gset nat) : ST cut_state unit :=
  G ← gets st_globals;
  v ← lift (load_global G "removal");
  match v with
  | PySet s => modify (upd_globals (fun G => <["removal" := PySet (f s)]> G))
  | _ => raise AttributeError
  end.
Definition removal_add (k : nat) : ST cut_state unit :=
  removal_update (fun s => {[k]} ∪ s).
Definition removal_discard (k : nat) : ST cut_state unit :=
  removal_update (fun s => s ∖ {[k]}).
(** [intersections.add(e)] *)
Definition intersections_add (e : edge) : ST cut_state unit :=
  modify (upd_intersections (fun s => {[e]} ∪ s)).

(** [front.pop()] *)
Definition pop {A} (l : list A) : option (A * list A) :=
  match reverse l with
  | [] => None
  | x :: r => Some (x, reverse r)
  end.

(** [t[j] = v] on a list of three elements held as a triple. *)
Definition fset {A} (t : A * A * A) (k : Z) (v : A) : A * A * A :=
  let '(a, b, c) := t in
  match (k mod 3)%Z with
  | 0%Z => (v, b, c)
  | 1%Z => (a, v, c)
  | _ => (a, b, v)
  end.

Definition p_origin (s : plane) : vec3 := s.1.1.
Definition p_normal (s : plane) : vec3 := s.1.2.
Definition p_axis (s : plane) : vec3 := s.2.

(** ** [cut_edge]: the body of the propagation loop *)

Section CutEdgeLoop.
Context `{Mathutils}.
(** [cutplane], [s1], [s2], [prec]: fixed during a call. *)
Variables (cutplane : vec3 * vec3) (s1 s2 : option plane) (prec : Q).

(** Lines 382-393: the face split in three around the point [p]. *)
Definition axis_split (fi : nat) (f : face) (frontedge : edge) (p : vec3)
  : ST cut_state unit :=
  pi ← st_usepointat p prec;
  l ← gets (fun st => length (st_faces st));
  st_unregisterface fi ;;
  set_face fi (fnth f 0, fnth f 1, pi) ;;
  append_face (fnth f 1, fnth f 2, pi) ;;
  append_face (fnth f 2, fnth f 0, pi) ;;
  t ← gettrack fi; append_track t ;;
  t ← gettrack fi; append_track t ;;
  st_registerface fi ;;
  st_registerface l ;;
  st_registerface (l + 1) ;;
  front_append frontedge.

(** Lines 439-461: the face split in three along the segment
    [cut[j-1], cut[j]]. *)
Definition plane_split (fi : nat) (f : face) (j : Z) (cj cj1 : vec3)
  : ST cut_state unit :=
  removal_discard fi ;;
  p1 ← st_usepointat cj prec;
  p2 ← st_usepointat cj1 prec;
  st_unregisterface fi ;;
  l ← gets (fun st => length (st_faces st));
  set_face fi (p1, fnth f (j - 2), fnth f (j - 1)) ;;
  append_face (p1, fnth f (j - 1), p2) ;;
  append_face (p1, p2, fnth f j) ;;
  t ← gettrack fi; append_track t ;;
  t ← gettrack fi; append_track t ;;
  st_registerface fi ;;
  st_registerface l ;;
  st_registerface (l + 1) ;;
  modify (upd_seen (fun s => {[fi; l; l + 1]} ∪ s)) ;;
  pj ← getpoint (fnth f j);
  if Qltb (dot (vsub pj cutplane.1) cutplane.2) 0 then
    removal_add fi ;; removal_add l ;; intersections_add (p2, p1)
  else
    removal_add (l + 1) ;; intersections_add (p1, p2).

(** Is the segment out of the area that the separator delimits
    (lines 435 and 436)? *)
Definition out_of_s1 (a b : vec3) : bool :=
  match s1 with
  | Some s => Qltb (dot (vsub a (p_origin s)) (vneg (p_normal s))) prec
              && Qltb (dot (vsub b (p_origin s)) (vneg (p_normal s))) prec
  | None => false
  end.
Definition out_of_s2 (a b : vec3) : bool :=
  match s2 with
  | Some s => Qltb (dot (vsub a (p_origin s)) (p_normal s)) prec
              && Qltb (dot (vsub b (p_origin s)) (p_normal s)) prec
  | None => false
  end.

(** Lines 431-461: [for j in range(3)], with its [continue] and [break];
    the result is [cutted]. *)
Fixpoint cut_faces (fi : nat) (f : face)
    (cut : option vec3 * option vec3 * option vec3)
    (js : list Z) (cutted : bool) : ST cut_state bool :=
  match js with
  | [] => mret cutted
  | j :: js' =>
      match fnth cut j, fnth cut (j - 1) with
      | Some cj, Some cj1 =>
          if out_of_s1 cj1 cj then cut_faces fi f cut js' true
          else if out_of_s2 cj1 cj then cut_faces fi f cut js' true
          else plane_split fi f j cj cj1 ;; mret true
      | _, _ => cut_faces fi f cut js' cutted
      end
  end.

(** Line 424, for one [j]. *)
Definition drop_short (cut : option vec3 * option vec3 * option vec3)
    (j : Z) : option vec3 * option vec3 * option vec3 :=
  match fnth cut (j - 1), fnth cut j with
  | Some a, Some b =>
      if Qltb (distance a b) prec then fset cut j None else cut
  | _, _ => cut
  end.

(** Lines 406-465: the face is cut by the plane when the plane crosses
    it, and its edges are pushed on the front. *)
Definition cut_seen_face (fi : nat) (f : face) : ST cut_state unit :=
  p0 ← getpoint (fnth f 0);
  p1 ← getpoint (fnth f 1);
  p2 ← getpoint (fnth f 2);
  let P := (p0, p1, p2) in
  let goodside (j : Z) :=
    Qltb (- prec) (dot (vsub (fnth P j) cutplane.1) cutplane.2) in
  let goodx (j : Z) :=
    match s1 with
    | Some s =>
        Qle_bool (- prec) (dot (vsub (fnth P j) (p_origin s))
                               (vneg (p_normal s)))
    | None => true
    end
    && match s2 with
       | Some s =>
           Qle_bool (- prec) (dot (vsub (fnth P j) (p_origin s))
                                  (p_normal s))
       | None => true
       end in
  if negb (goodside 0%Z || goodside 1%Z || goodside 2%Z) then mret tt
  else
    let cut := (intersection_edge_plane cutplane (p0, p1) prec,
                intersection_edge_plane cutplane (p1, p2) prec,
                intersection_edge_plane cutplane (p2, p0) prec) in
    let cut := foldl drop_short cut [0%Z; 1%Z; 2%Z] in
    (if goodside 0%Z && goodside 1%Z && goodside 2%Z
        && (goodx 0%Z || goodx 1%Z || goodx 2%Z)
     then removal_add fi else mret tt) ;;
    cutted ← cut_faces fi f cut [0%Z; 1%Z; 2%Z] false;
    if cutted
       || (goodside 0%Z && goodx 0%Z || goodside 1%Z && goodx 1%Z
           || goodside 2%Z && goodx 2%Z)
    then push_face_edges f
    else mret tt.

(** Lines 395-465: the face is marked as processed, then cut. *)
Definition process_face (fi : nat) (f : face) : ST cut_state unit :=
  seen_add fi ;;
  cut_seen_face fi f.

(** Lines 379-465: the [if p and ...: ... else: ...], for the value of
    [p] that reaches it. *)
Definition split_or_process (p : option vec3) (fi : nat) (f : face)
    (frontedge : edge) : ST cut_state unit :=
  far ← match p with
        | Some q =>
            p0 ← getpoint (fnth f 0);
            if Qltb prec (distance q p0) then
              p1 ← getpoint (fnth f 1);
              if Qltb prec (distance q p1) then
                p2 ← getpoint (fnth f 2);
                mret (Qltb prec (distance q p2))
              else mret false
            else mret false
        | None => mret false
        end;
  match p, far with
  | Some q, true => axis_split fi f frontedge q
  | _, _ => process_face fi f
  end.

(** Lines 376-378: [p = None], then the two calls of
    [intersection_axis_face], whose results are not assigned. *)
Definition axis_point (fi : nat) : ST cut_state (option vec3) :=
  let p : option vec3 := None in
  match s2 with
  | Some s =>
      m ← gets st_mesh;
      fp ← lift (facepoints m fi);
      let _ := intersection_axis_face (p_origin s, p_axis s) fp in
      mret tt
  | None => mret tt
  end ;;
  match s1, s2 with
  | Some s, None =>
      m ← gets st_mesh;
      fp ← lift (facepoints m fi);
      let _ := intersection_axis_face (p_origin s, p_axis s) fp in
      mret tt
  | _, _ => mret tt
  end ;;
  mret p.

(** Lines 366-465: the body of the loop for the face [fi] of the popped
    edge, once it is known not to be seen. *)
Definition visit_face (fi : nat) (frontedge : edge) : ST cut_state unit :=
  f ← getface fi;
  m ← gets st_mesh;
  h ← lift (faceheight m fi);
  if float_leb h prec then
    seen_add fi ;; push_face_edges f
  else
    p ← axis_point fi;
    split_or_process p fi f frontedge.

(** Lines 363-465: the body of the loop once [frontedge] is popped. *)
Definition visit (frontedge : edge) : ST cut_state unit :=
  conn ← gets st_conn;
  match conn !! frontedge with
  | None => mret tt
  | Some fi =>
      seen ← gets st_seen;
      if decide (fi ∈ seen) then mret tt
      else visit_face fi frontedge
  end.

(** One turn of [while front]: [true] when an edge was popped, [false]
    when the front is empty. *)
Definition cut_edge_iter : ST cut_state bool :=
  front ← gets st_front;
  match pop front with
  | None => mret false
  | Some (frontedge, rest) =>
      modify (upd_front (fun _ => rest)) ;;
      visit frontedge ;;
      mret true
  end.

(** At most [fuel] turns of the loop: [true] when the front is empty. *)
Fixpoint cut_edge_loop (fuel : nat) : ST cut_state bool :=
  match fuel with
  | 0 => mret false
  | S fuel' =>
      more ← cut_edge_iter;
      if more : bool then cut_edge_loop fuel' else mret true
  end.

End CutEdgeLoop.

(** Line 357: [front = [(edge[i],edge[i-1]), (edge[i-1],edge[i])]];
    [i] is not bound in [cut_edge], it is read from the globals. *)
Definition cut_edge_front (G : gmap string pyval) (e : list nat)
  : res (list edge) :=
  i ← load_global G "i";
  match i with
  | PyInt i =>
      a ← pyindex e i;
      b ← pyindex e (i - 1);
      c ← pyindex e (i - 1);
      d ← pyindex e i;
      mret [(a, b); (c, d)]
  | _ => Exc TypeError
  end.

(** [cut_edge(mesh, edge, offset, s1, s2, conn, prec)], with at most
    [fuel] turns of its loop: the set [intersections], or [None] when the
    front is not empty after [fuel] turns. *)
Definition cut_edge `{Mathutils} (fuel : nat) (e : list nat) (offset : vec3)
    (s1 s2 : option plane) (prec : Q) : ST cut_state (option (gset edge)) :=
  e0 ← lift (pyindex e 0);
  p ← getpoint e0;
  let cutplane := (vadd p offset, vneg (normalize offset)) in
  modify (upd_seen (fun _ => ∅)) ;;
  G ← gets st_globals;
  front ← lift (cut_edge_front G e);
  modify (upd_front (fun _ => front)) ;;
  modify (upd_intersections (fun _ => ∅)) ;;
  done ← cut_edge_loop cutplane s1 s2 prec fuel;
  if done : bool then
    r ← gets st_intersections; mret (Some r)
  else mret None.

(** The state in which a call of [cut_edge] starts, for a mesh, a
    connectivity map and the globals. *)
Definition enter (m : Mesh) (conn : gmap edge nat) (G : gmap string pyval)
  : cut_state :=
  mkState m conn ∅ [] ∅ G.

(** The state of the loop after at most [n] turns. *)
Definition loop_state `{Mathutils} (cutplane : vec3 * vec3)
    (s1 s2 : option plane) (prec : Q) (n : nat) (st : cut_state)
  : cut_state :=
  (cut_edge_loop cutplane s1 s2 prec n st).2.

(** ** [cut_line]

    [cut_line] reads two names that it does not bind, [edge] (lines 317
    and 327) and [results] (line 327): they are looked up in the
    globals.  Its own [removal] and [result], bound at lines 308 and 309,
    are not changed before the last phase. *)

(** [len(v)] *)
Definition pylen (v : pyval) : res nat :=
  match v with
  | PyStr s => Val (String.length s)
  | PyVec _ => Val 3
  | PyTuple items | PyList items => Val (length items)
  | PySet s => Val (size s)
  | PyEdges s => Val (size s)
  | _ => Exc TypeError
  end.

(** The point indices of an edge given as a tuple or a list of integers
    that are not negative.  The call of [cut_edge] is not modelled for
    another value of its argument [edge]: [TypeError]. *)
Definition edge_points (v : pyval) : res (list nat) :=
  match v with
  | PyTuple items | PyList items =>
      for_each (fun acc x =>
                  match x with
                  | PyInt z =>
                      if (0 <=? z)%Z then Val (acc ++ [Z.to_nat z])
                      else Exc TypeError
                  | _ => Exc TypeError
                  end) items []
  | _ => Exc TypeError
  end.

(** A computation on the mesh, run on the mesh of the propagation
    state. *)
Definition on_mesh {A} (c : ST Mesh A) : ST cut_state A :=
  fun st =>
    let '(r, m) := c (st_mesh st) in (r, upd_mesh (fun _ => m) st).

(** Lines 319-324: the separators that limit the cut of the [i]-th
    edge. *)
Definition limiting_planes (segments : list (option plane))
    (circular : bool) (i : nat) : res (option plane * option plane) :=
  if circular then
    s1 ← pyindex segments (Z.of_nat i - 2);
    s2 ← pyindex segments (Z.of_nat i - 1);
    mret (s1, s2)
  else
    s1 ← (if decide (2 ≤ i)%nat then pyindex segments (Z.of_nat i - 2)
          else mret None);
    s2 ← (if decide (i ≤ length segments)%nat
          then pyindex segments (Z.of_nat i - 1) else mret None);
    mret (s1, s2).

Section CutLine.
Context `{Mathutils} `{MeshLib}.
(** [connef] of [mesh.py]: the connectivity map of a list of faces. *)
Variable connef : list face → gmap edge nat.
(** The turns allowed to each call of [cut_edge]. *)
Variable fuel : nat.

(** Lines 318-327, one turn of the loop: [false] when the call of
    [cut_edge] is out of turns.  [results.append] is looked up before
    the arguments of [cut_edge] are. *)
Definition cut_line_turn (offsets : list vec3)
    (segments : list (option plane)) (circular : bool) (prec : Q) (i : nat)
  : ST cut_state bool :=
  s ← lift (limiting_planes segments circular i);
  G ← gets st_globals;
  results ← lift (load_global G "results");
  items ← match results with
          | PyList items => mret items
          | _ => raise AttributeError
          end;
  e ← lift (load_global G "edge");
  offset ← lift (pyindex offsets (Z.of_nat i - 1));
  pts ← lift (edge_points e);
  r ← cut_edge fuel pts offset s.1 s.2 prec;
  match r with
  | Some x =>
      modify (upd_globals
                (fun G => <["results" := PyList (items ++ [PyEdges x])]> G)) ;;
      mret true
  | None => mret false
  end.

(** Lines 317-327: [for i in range(1,len(edge))]. *)
Fixpoint cut_line_loop (offsets : list vec3) (segments : list (option plane))
    (circular : bool) (prec : Q) (turns : list nat) : ST cut_state bool :=
  match turns with
  | [] => mret true
  | i :: turns' =>
      more ← cut_line_turn offsets segments circular prec i;
      if more : bool
      then cut_line_loop offsets segments circular prec turns'
      else mret false
  end.

(** [cut_line(mesh, line, offsets, conn, prec)]: [conn_given] tells
    whether the caller gave [conn], which is then the map of the state;
    [prec] is [None] when the caller gave none.  The result is [None]
    when a call of [cut_edge] is out of turns. *)
Definition cut_line (line : list nat) (offsets : list vec3)
    (conn_given : bool) (prec : option Q)
  : ST cut_state (option (list (list edge))) :=
  let removal : gset nat := ∅ in
  let result : list (list edge) := [] in
  m ← gets st_mesh;
  let prec := match prec with Some q => q | None => precision m end in
  (if conn_given then mret tt
   else modify (fun st => upd_conn (connef (st_faces st)) st)) ;;
  (* segments planes and normals *)
  segments ← lift (separators m line offsets);
  first ← lift (pyindex line 0);
  last ← lift (pyindex line (-1));
  let circular := bool_decide (first = last) in
  (* cut at each plane *)
  G ← gets st_globals;
  e ← lift (load_global G "edge");
  n ← lift (pylen e);
  done ← cut_line_loop offsets segments circular prec (seq 1 (n - 1));
  if done : bool then
    (* simplify cuts, apply merges, delete inside faces and empty ones *)
    r ← on_mesh (cut_line_simplify result removal prec);
    mret (Some r)
  else mret None.

End CutLine.

(** ** An instance of the imported functions, and meshes to run the code on

    Square roots are taken exactly where the root is rational and rounded
    down to a multiple of [1/den] elsewhere. *)

Definition Qsqrt_floor (q : Q) : Q :=
  Qred (Z.sqrt (Qnum q * Zpos (Qden q)) # Qden q).

Definition exact_math : Mathutils := {|
  sqrt := Qsqrt_floor;
  normalize := fun v => vred (vdiv v (Qsqrt_floor (dot v v)));
  vlength := fun v => Qsqrt_floor (dot v v);
  distance := fun a b => Qsqrt_floor (dot (vsub a b) (vsub a b));
  noproject := fun x dir =>
    vred (vsub x (vscale (dot x dir / dot dir dir) dir));
  NUMPREC := 1 # 10000000000000
|}.

Definition simple_meshlib : MeshLib := {|
  precision := fun _ => 1 # 1000000;
  facenormal := fun m f =>
    let '(a, b, c) := f in
    pa ← getitem (points m) a;
    pb ← getitem (points m) b;
    pc ← getitem (points m) c;
    mret (@normalize exact_math (cross (vsub pb pa) (vsub pc pa)));
  vertexnormals := fun m => List.map (fun _ => V3 0 0 1) (points m);
  (* the edges of one chain, given in order *)
  suites := fun edges =>
    match edges with
    | [] => []
    | (a, b) :: rest => [a :: b :: List.map snd rest]
    end;
  (* no point is merged *)
  line_simplification := fun _ _ _ => ∅;
  (* a fan around the first point *)
  flatsurface := fun _ lp =>
    match lp with
    | a :: b :: rest => (zip_with (fun x y => (a, x, y)) (b :: rest) rest)
    | _ => []
    end
|}.

Definition Qv (x y z : Z) : vec3 := V3 (inject_Z x) (inject_Z y) (inject_Z z).

(** A rectangle of 4 by 3 in the plane [z = 0], in two triangles along the
    diagonal from point 0 to point 2. *)
Definition rect_mesh : Mesh := {|
  points := [Qv 0 0 0; Qv 4 0 0; Qv 4 3 0; Qv 0 3 0];
  faces := [(0, 1, 2); (0, 2, 3)];
  tracks := [0; 0];
  groups := ["plate"]
|}.

(** [connef(rect_mesh.faces)] *)
Definition rect_conn : gmap edge nat :=
  register_edges (0, 2, 3) 1 (register_edges (0, 1, 2) 0 ∅).

Definition small_prec : Q := 1 # 1000000.

(** Globals in which a caller has bound the two names that [cut_edge]
    reads: [i = 0] and [removal = set()]. *)
Definition patched_globals : gmap string pyval :=
  <["removal" := PySet ∅]> (<["i" := PyInt 0]> module_globals).

(** The cut plane of the edge [(0,1)] of the rectangle for the offset
    [(0,1,0)]: the plane [y = 1]. *)
Definition rect_cutplane : vec3 * vec3 :=
  (vadd (Qv 0 0 0) (Qv 0 1 0), vneg (@normalize exact_math (Qv 0 1 0))).

(** A separator whose axis, the vertical line through [(3,1,0)], crosses
    the inside of the face 0 of the rectangle. *)
Definition rect_separator : plane := (Qv 3 1 0, Qv 1 0 0, Qv 0 0 1).

(** The state of the loop when the edge [(0,1)] is on top of the front. *)
Definition rect_state (G : gmap string pyval) : cut_state :=
  mkState rect_mesh rect_conn ∅ [(0, 1)] ∅ G.

(** The state of the loop just after line 357, had [i] been [0]. *)
Definition rect_seeded (G : gmap string pyval) : cut_state :=
  mkState rect_mesh rect_conn ∅ [(0, 1); (1, 0)] ∅ G.

(** A polyline of six points: one edge along [y], three edges in line
    along [x], one edge along [y]; and the offsets of its five edges. *)
Definition bend_mesh : Mesh := {|
  points := [Qv 0 0 0; Qv 0 1 0; Qv 1 1 0; Qv 2 1 0; Qv 3 1 0; Qv 3 0 0];
  faces := [];
  tracks := [];
  groups := []
|}.
Definition bend_line : list nat := [0; 1; 2; 3; 4; 5].
Definition bend_offsets : list vec3 :=
  [Qv 3 0 0; Qv 0 4 0; Qv 0 4 0; Qv 0 4 0; Qv 3 0 0].

(** The rectangle with its face 0 collapsed: the first and the last
    corner of the face are the point 0. *)
Definition collapsed_mesh : Mesh := {|
  points := [Qv 0 0 0; Qv 4 0 0; Qv 4 3 0; Qv 0 3 0];
  faces := [(0, 1, 0); (0, 2, 3)];
  tracks := [0; 0];
  groups := ["plate"]
|}.

(** The face list that lines 385-387 give for the face 0 of the rectangle
    and a new point of index 4. *)
Definition rect_axis_split_faces : list face :=
  [(0, 1, 4); (0, 2, 3); (1, 2, 4); (2, 0, 4)].


(** What the code accepts: a tuple of at least two items whose first item
    is a string [name] such that ['cut_'+name] is a global, or a callable
    that is not a tuple. *)
Definition accepted_by_code (G : gmap string pyval) (cutter : pyval) : Prop :=
  match cutter with
  | PyTuple (PyStr name :: _ :: _) => is_Some (G !! ("cut_" +:+ name))
  | PyTuple _ => False
  | _ => callable cutter = true
  end.

(** The names [name] for which the module binds ['cut_'+name]. *)
Definition cut_names : list string :=
  ["width"; "distance"; "depth"; "angle"; "line"; "edge"; "corner"].

(** The two fills of [separators], by recursion on the list: [carry prev]
    gives to an undefined entry the entry before it (once filled), [prev]
    for the first one; [carry_back] gives to an undefined entry the entry
    after it (once filled). *)
Fixpoint carry {A} (prev : option A) (l : list (option A))
  : list (option A) :=
  match l with
  | [] => []
  | x :: l' =>
      let y := match x with Some _ => x | None => prev end in
      y :: carry y l'
  end.

Fixpoint carry_back {A} (l : list (option A)) : list (option A) :=
  match l with
  | [] => []
  | x :: l' =>
      let r := carry_back l' in
      match x with
      | Some _ => x
      | None => match r with y :: _ => y | [] => None end
      end :: r
  end.

(** The list that the first loop of [separators] gives for the bent
    polyline: defined at the first and the last of its four inner
    vertices, undefined at the two in between. *)
Definition bend_raw : list (option plane) :=
  Eval vm_compute in
    match @separators_local exact_math simple_meshlib bend_mesh bend_line
                            bend_offsets with
    | Val raw => raw
    | Exc _ => []
    end.

(** A closed line around a triangle, [line[0] = line[-1]], with the
    offsets of its three edges: the offsets of the two edges at the
    vertex [line[1]] are parallel. *)
Definition tri_mesh : Mesh := {|
  points := [Qv 0 0 0; Qv 4 0 0; Qv 4 3 0];
  faces := [];
  tracks := [];
  groups := []
|}.
Definition tri_line : list nat := [0; 1; 2; 0].
Definition tri_offsets : list vec3 := [Qv 0 2 0; Qv 0 2 0; Qv 2 0 0].

(** The list that the first loop of [separators] gives for the closed
    triangle: an entry for each of [line[1]], [line[2]] and the closing
    vertex [line[3] = line[0]], in this order; the first is undefined. *)
Definition tri_raw : list (option plane) :=
  Eval vm_compute in
    match @separators_local exact_math simple_meshlib tri_mesh tri_line
                            tri_offsets with
    | Val raw => raw
    | Exc _ => []
    end.

(** A face with the merge map applied to its three corners. *)
Definition merged_face (merges : gmap nat nat) (f : face) : face :=
  let '(a, b, c) := f in
  (merges_get merges a, merges_get merges b, merges_get merges c).

(** Does the criterion of [removefaces] keep the face of index [i]? *)
Definition kept_by (crit : nat → res bool) (i : nat) : bool :=
  match crit i with
  | Val false => true
  | _ => false
  end.

(** Imported functions for which [line_simplification] merges the point 2
    into the point 1. *)
Definition merging_meshlib : MeshLib := {|
  precision := @precision simple_meshlib;
  facenormal := @facenormal simple_meshlib;
  vertexnormals := @vertexnormals simple_meshlib;
  suites := @suites simple_meshlib;
  line_simplification := fun _ _ _ => {[2 := 1]};
  flatsurface := @flatsurface simple_meshlib
|}.

(** ** What a turn of the loop of [cut_edge] may change *)

Local Open Scope nat_scope.

(** From [st] to [st'] the faces change at most at the index [fi] and by
    faces appended, the tracks are only appended, the seen set only
    grows. *)
Definition touches_only (fi : nat) (st st' : cut_state) : Prop :=
  length (st_faces st) ≤ length (st_faces st') ∧
  (∀ k : nat, k ≠ fi → k < length (st_faces st) →
              st_faces st' !! k = st_faces st !! k) ∧
  st_tracks st `prefix_of` st_tracks st' ∧
  st_seen st ⊆ st_seen st'.

(** A computation that stays within [touches_only fi] of any state it is
    within when it starts. *)
Definition keeps (fi : nat) {A} (c : ST cut_state A) : Prop :=
  ∀ st0 st, touches_only fi st0 st → touches_only fi st0 (c st).2.

(** A computation that leaves the state as it is. *)
Definition reads {S A} (c : ST S A) : Prop := ∀ st, (c st).2 = st.

(** A computation after which the faces are unchanged or [fi] is seen. *)
Definition marks (fi : nat) {A} (c : ST cut_state A) : Prop :=
  ∀ st, st_faces (c st).2 = st_faces st ∨ fi ∈ st_seen (c st).2.

(** What one turn of the loop guarantees from [st] to [st']. *)
Definition turn_ok (st st' : cut_state) : Prop :=
  length (st_faces st) ≤ length (st_faces st') ∧
  st_tracks st `prefix_of` st_tracks st' ∧
  st_seen st ⊆ st_seen st' ∧
  (∀ k : nat, k ∈ st_seen st → k < length (st_faces st) →
              st_faces st' !! k = st_faces st !! k) ∧
  (∀ k : nat, k < length (st_faces st) →
              st_faces st' !! k ≠ st_faces st !! k →
              (k ∉ st_seen st) ∧ k ∈ st_seen st').

(** ** [arrangeface] *)

(** [arrangeface(f, p)]: the face turned so that the corner [p] comes
    first. *)
Definition arrangeface (f : face) (p : nat) : face :=
  let '(a, b, c) := f in
  if decide (p = b) then (b, c, a)
  else if decide (p = c) then (c, a, b)
  else f.

(** ** Relations the properties are stated with *)

(** Every edge of the connectivity map belongs to the face it is sent
    to. *)
Definition conn_sound (fs : list face) (conn : gmap edge nat) : Prop :=
  ∀ e fi, conn !! e = Some fi → ∃ f, fs !! fi = Some f ∧ e ∈ face_edges f.

(** Equality of vectors, coordinate by coordinate, as rational numbers. *)
Definition veq (a b : vec3) : Prop :=
  (vx a == vx b)%Q ∧ (vy a == vy b)%Q ∧ (vz a == vz b)%Q.

(** The height of a triangle measured from the edge between the corners
    at [y] and [z], as [faceheight] computes it for each corner. *)
Definition corner_height `{Mathutils} (x y z : vec3) : pyfloat :=
  if is_zero (vsub y z) then NaN
  else Fin (vlength (noproject (vsub x z) (normalize (vsub y z)))).

(** The directed edge of the line that starts at its [i]-th point. *)
Definition line_edge (line : list nat) (i : nat) : option edge :=
  match line !! i, line !! (i + 1) with
  | Some a, Some b => Some (a, b)
  | _, _ => None
  end.

(** ** What the loop of [cut_edge] keeps *)

(** The lists of faces and of tracks are parallel, and every edge of the
    connectivity map belongs to the face it is sent to. *)
Definition mesh_ok (st : cut_state) : Prop :=
  length (st_faces st) = length (st_tracks st) ∧
  conn_sound (st_faces st) (st_conn st).

(** A computation after which [I] holds when it held before, whether it
    returns or raises. *)
Definition preserves (I : cut_state → Prop) {A} (c : ST cut_state A) : Prop :=
  ∀ st, I st → I (c st).2.

(** A condition on the state that reads its list of tracks only. *)
Definition on_tracks (P : list nat → Prop) : cut_state → Prop :=
  fun st => P (st_tracks st).

(** The tracks [ts] extend the tracks [ts0] with values that [ts0]
    holds. *)
Definition tracks_kept (ts0 ts : list nat) : Prop :=
  ts0 `prefix_of` ts ∧ ∀ t, t ∈ ts → t ∈ ts0.

(** * Properties *)

Local Open Scope nat_scope.

(** ** The monads *)

Lemma ST_bind_unfold {S A B} (c : ST S A) (k : A → ST S B) (st : S) :
  (c ≫= k) st = match c st with
                | (Val a, st') => k a st'
                | (Exc e, st') => (Exc e, st')
                end.
Proof. reflexivity. Qed.

Lemma getitem_Val {A} (l : list A) (i : nat) (a : A) :
  getitem l i = Val a ↔ l !! i = Some a.
Proof. unfold getitem. destruct (l !! i); split; congruence. Qed.

Lemma pop_snoc {A} (l : list A) (x : A) : pop (l ++ [x]) = Some (x, l).
Proof. unfold pop. by rewrite reverse_snoc, reverse_involutive. Qed.

Lemma pop_nil {A} (l : list A) : pop l = None ↔ l = [].
Proof.
  unfold pop. split.
  - destruct (reverse l) eqn:E; [|done]. intros _.
    by rewrite <- (reverse_involutive l), E.
  - by intros ->.
Qed.

(** ** Connectivity index *)

Lemma unregister_edges_delete (f : face) (conn : gmap edge nat) :
  unregister_edges f conn =
  foldl (fun c e => delete e c) conn (face_edges f).
Proof.
  unfold unregister_edges. generalize (face_edges f) as es.
  intros es. revert conn. induction es as [|e es IH]; intros conn; [done|].
  simpl. rewrite <- IH. destruct (conn !! e) eqn:E; [done|].
  by rewrite delete_id.
Qed.

Lemma register_edges_lookup (f : face) (fi : nat) (conn : gmap edge nat)
    (e : edge) :
  register_edges f fi conn !! e =
  if decide (e ∈ face_edges f) then Some fi else conn !! e.
Proof.
  destruct f as [[a b] c]. unfold register_edges, face_edges. simpl.
  rewrite !lookup_insert.
  repeat case_decide; first [done | set_solver].
Qed.

Lemma unregister_edges_lookup (f : face) (conn : gmap edge nat) (e : edge) :
  unregister_edges f conn !! e =
  if decide (e ∈ face_edges f) then None else conn !! e.
Proof.
  rewrite unregister_edges_delete.
  destruct f as [[a b] c]. unfold face_edges. simpl.
  rewrite !lookup_delete.
  repeat case_decide; first [done | set_solver].
Qed.

(** C10. For a face index [fi] of the mesh, [unregisterface] followed by
    [registerface] returns a map that sends each of the three directed
    edges of the face to [fi]; and when the map sent these three edges to
    [fi] before the two calls, it is the same map after them. *)
Theorem unregister_register_face (fs : list face) (conn : gmap edge nat)
    (fi : nat) (f : face) :
  fs !! fi = Some f →
  ∃ c1 c2,
    unregisterface fs conn fi = Val c1 ∧
    registerface fs c1 fi = Val c2 ∧
    (∀ e, e ∈ face_edges f → c2 !! e = Some fi) ∧
    ((∀ e, e ∈ face_edges f → conn !! e = Some fi) → c2 = conn).
Proof.
  intros Hf. exists (unregister_edges f conn).
  exists (register_edges f fi (unregister_edges f conn)).
  unfold unregisterface, registerface, getitem. rewrite Hf. simpl.
  split; [done|]. split; [done|]. split.
  - intros e He. rewrite register_edges_lookup. by rewrite decide_True.
  - intros Hall. apply map_eq. intros e.
    rewrite register_edges_lookup, unregister_edges_lookup.
    case_decide; [|done]. symmetry. by apply Hall.
Qed.

Lemma unregister_register_face_witness :
  ∃ c1 c2,
    unregisterface (faces rect_mesh) rect_conn 1 = Val c1 ∧
    registerface (faces rect_mesh) c1 1 = Val c2 ∧
    (∀ e, e ∈ face_edges (0, 2, 3) → c2 !! e = Some 1) ∧
    ((∀ e, e ∈ face_edges (0, 2, 3) → rect_conn !! e = Some 1) →
     c2 = rect_conn).
Proof.
  apply (unregister_register_face (faces rect_mesh) rect_conn 1 (0, 2, 3)).
  reflexivity.
Defined.

(** ** Offset policies *)

Lemma module_globals_n : module_globals !! "n" = None.
Proof. by vm_compute. Qed.

Lemma module_globals_i : module_globals !! "i" = None.
Proof. by vm_compute. Qed.

(** C7. With the globals of the module, [cut_angle] raises [NameError]
    on every input: the name [n] it reads is bound nowhere.  It returns
    no offset, and so not the one of the specification. *)
Theorem cut_angle_raises_NameError (depth : Q) (fn1 fn2 : vec3) :
  cut_angle module_globals depth fn1 fn2 = Exc (NameError "n").
Proof. unfold cut_angle, load_global. by rewrite module_globals_n. Qed.

(** Had the caller bound [n] to the normalized bisector, the body would
    give the value of the specification. *)
Lemma cut_angle_with_bisector `{Mathutils} (G : gmap string pyval)
    (depth : Q) (fn1 fn2 : vec3) :
  G !! "n" = Some (PyVec (normalize (vadd fn1 fn2))) →
  cut_angle G depth fn1 fn2 = Val (cut_angle_spec depth fn1 fn2).
Proof. intros HG. unfold cut_angle, load_global. by rewrite HG. Qed.

(** ** The seed of the front *)

Lemma cut_edge_front_unbound (G : gmap string pyval) (e : list nat) :
  G !! "i" = None → cut_edge_front G e = Exc (NameError "i").
Proof. intros HG. unfold cut_edge_front, load_global. by rewrite HG. Qed.

Lemma cut_edge_unbound `{Mathutils} (G : gmap string pyval) fuel e offset
    s1 s2 prec m conn :
  G !! "i" = None →
  ∃ ex, (cut_edge fuel e offset s1 s2 prec (enter m conn G)).1 = Exc ex.
Proof.
  intros HG. unfold cut_edge. rewrite ST_bind_unfold. unfold lift at 1.
  destruct (pyindex e 0) as [e0|ex]; [|by eexists].
  rewrite ST_bind_unfold. unfold getpoint at 1.
  rewrite ST_bind_unfold. unfold gets at 1, lift at 1.
  destruct (getitem _ e0) as [p|ex]; [|by eexists].
  rewrite !ST_bind_unfold. unfold modify at 1.
  rewrite ST_bind_unfold. unfold gets at 1.
  rewrite ST_bind_unfold. cbn [st_globals enter upd_seen].
  rewrite (cut_edge_front_unbound G e HG). by eexists.
Qed.

(** C8. With the globals of the module, line 357 of [cut_edge] raises
    [NameError] for every edge: the index [i] it reads is bound nowhere.
    No front is built, and the call returns no value. *)
Theorem cut_edge_front_raises_NameError :
  (∀ e : list nat, cut_edge_front module_globals e = Exc (NameError "i")) ∧
  (∀ (M : Mathutils) fuel e offset s1 s2 prec m conn,
     ∃ ex, (cut_edge fuel e offset s1 s2 prec
                     (enter m conn module_globals)).1 = Exc ex).
Proof.
  split.
  - intros e. apply cut_edge_front_unbound, module_globals_i.
  - intros. apply cut_edge_unbound, module_globals_i.
Qed.

(** With [i] bound to an index of a pair, line 357 gives the edge in its
    two directions. *)
Lemma cut_edge_front_bound (G : gmap string pyval) (i : Z) (a b : nat) :
  G !! "i" = Some (PyInt i) → (-1 ≤ i ≤ 1)%Z →
  cut_edge_front G [a; b] = Val [(a, b); (b, a)] ∨
  cut_edge_front G [a; b] = Val [(b, a); (a, b)].
Proof.
  intros HG Hi. unfold cut_edge_front, load_global. rewrite HG.
  assert (i = (-1)%Z ∨ i = 0%Z ∨ i = 1%Z) as [->|[->| ->]] by lia;
    vm_compute; auto.
Qed.

(** ** The propagation loop: an edge that the connectivity map misses *)

Lemma visit_missing `{Mathutils} cutplane s1 s2 prec (e : edge)
    (st : cut_state) :
  st_conn st !! e = None →
  visit cutplane s1 s2 prec e st = (Val tt, st).
Proof.
  intros He. unfold visit. rewrite ST_bind_unfold. unfold gets at 1.
  by rewrite He.
Qed.

(** C9. When the edge popped from the front is not a key of the
    connectivity map, the turn of the loop raises nothing and changes
    nothing but the front, from which the edge is gone; the loop goes on
    with the rest of the front. *)
Theorem cut_edge_missing_edge_is_skipped `{Mathutils} cutplane s1 s2 prec
    (st : cut_state) (rest : list edge) (e : edge) :
  st_front st = rest ++ [e] →
  st_conn st !! e = None →
  cut_edge_iter cutplane s1 s2 prec st
    = (Val true, upd_front (fun _ => rest) st) ∧
  ∀ fuel, cut_edge_loop cutplane s1 s2 prec (S fuel) st
          = cut_edge_loop cutplane s1 s2 prec fuel
                          (upd_front (fun _ => rest) st).
Proof.
  intros Hfront He.
  assert (Hiter : cut_edge_iter cutplane s1 s2 prec st
                  = (Val true, upd_front (fun _ => rest) st)).
  { unfold cut_edge_iter. rewrite ST_bind_unfold. unfold gets at 1.
    rewrite Hfront, pop_snoc. rewrite ST_bind_unfold. unfold modify at 1.
    rewrite ST_bind_unfold. by rewrite visit_missing. }
  split; [done|]. intros fuel.
  cbn [cut_edge_loop]. rewrite ST_bind_unfold. by rewrite Hiter.
Qed.

Lemma cut_edge_missing_edge_is_skipped_witness :
  @cut_edge_iter exact_math rect_cutplane None None small_prec
                 (rect_seeded module_globals)
    = (Val true, upd_front (fun _ => [(0, 1)]) (rect_seeded module_globals)) ∧
  ∀ fuel, @cut_edge_loop exact_math rect_cutplane None None small_prec
                         (S fuel) (rect_seeded module_globals)
          = @cut_edge_loop exact_math rect_cutplane None None small_prec fuel
              (upd_front (fun _ => [(0, 1)]) (rect_seeded module_globals)).
Proof.
  apply (@cut_edge_missing_edge_is_skipped exact_math rect_cutplane None None
           small_prec (rect_seeded module_globals) [(0, 1)] (1, 0)).
  - reflexivity.
  - vm_compute. reflexivity.
Defined.

(** ** [interpretcutter] *)

Lemma lookup_bindings (l : list (string * pyval)) (g : gmap string pyval)
    (k : string) :
  is_Some (foldl (fun g b => <[b.1 := b.2]> g) g l !! k)
  ↔ is_Some (g !! k) ∨ k ∈ l.*1.
Proof.
  revert g. induction l as [|[k' v] l IH]; intros g; simpl.
  - rewrite elem_of_nil. tauto.
  - rewrite IH, lookup_insert, elem_of_cons. case_decide; subst.
    + split; [intros _; right; by left | intros _; left; by eexists].
    + split; [intros [?|?]; auto | intros [?|[?|?]]; auto; congruence].
Qed.

Lemma module_globals_cut (name : string) :
  is_Some (module_globals !! ("cut_" +:+ name)) ↔ name ∈ cut_names.
Proof.
  split.
  - unfold module_globals. rewrite lookup_bindings, lookup_empty.
    intros [[? ?]|Hin]; [done|]. revert Hin.
    cbv [module_bindings List.map fmap list_fmap app fst].
    unfold cut_names. rewrite !elem_of_cons, !elem_of_nil.
    cbn [String.app]. intros Hin.
    repeat (destruct Hin as [Hin|Hin]; [try discriminate Hin|]);
      try (injection Hin as <-; tauto); done.
  - unfold cut_names. rewrite !elem_of_cons, elem_of_nil.
    intros [->|[->|[->|[->|[->|[->|[->|[]]]]]]]]; vm_compute; eauto.
Qed.

Lemma interpretcutter_accepts (G : gmap string pyval) (cutter : pyval) :
  is_val (interpretcutter G cutter) ↔ accepted_by_code G cutter.
Proof.
  destruct cutter as [| | | | |items| | | |name c| |]; simpl; try (split; done).
  - destruct items as [|name [|arg rest]]; simpl; [done| |].
    + destruct name; simpl; try done.
      destruct (G !! _); simpl; done.
    + destruct name; simpl; try done.
      destruct (G !! _) eqn:E; simpl; split; done.
  - destruct c; simpl; split; done.
Qed.

Lemma planeoffsets_interpretcutter `{Mathutils} `{MeshLib}
    (G : gmap string pyval) (m : Mesh) (line : list nat) (cutter : pyval)
    (e : exn) :
  interpretcutter G cutter = Exc e → planeoffsets G m line cutter = Exc e.
Proof. intros HE. unfold planeoffsets. by rewrite HE. Qed.

(** C5, amended. [interpretcutter] returns a cutter exactly for a callable
    that is not a tuple and for a tuple of two items or more whose first
    item is a string [name] for which the module binds ['cut_'+name]: the
    four policies [width], [distance], [depth], [angle] and also [line],
    [edge] and [corner].  For every other value it raises, and then
    [planeoffsets] raises the same exception, having read nothing of the
    mesh. *)
Theorem interpretcutter_accepted_values :
  (∀ cutter : pyval,
     is_val (interpretcutter module_globals cutter) ↔
     match cutter with
     | PyTuple (PyStr name :: _ :: _) => name ∈ cut_names
     | PyTuple _ => False
     | _ => callable cutter = true
     end) ∧
  (∀ (MU : Mathutils) (ML : MeshLib) m line (cutter : pyval),
     is_val (interpretcutter module_globals cutter) ∨
     ∃ e, interpretcutter module_globals cutter = Exc e ∧
          planeoffsets module_globals m line cutter = Exc e).
Proof.
  split.
  - intros cutter. rewrite interpretcutter_accepts.
    destruct cutter as [| | | | |items| | | | | |];
      try (unfold accepted_by_code; tauto).
    destruct items as [|name [|arg rest]].
    + unfold accepted_by_code; tauto.
    + unfold accepted_by_code; destruct name; tauto.
    + destruct name; try (unfold accepted_by_code; tauto).
      apply module_globals_cut.
  - intros MU ML m line cutter.
    destruct (interpretcutter module_globals cutter) as [c|e] eqn:E.
    + by left.
    + right. exists e. split; [done|].
      by apply planeoffsets_interpretcutter.
Qed.

(** C5, as stated, fails: the tuple [('edge', 1)] names no offset policy,
    and [interpretcutter] returns a cutter for it. *)
Lemma interpretcutter_accepts_cut_edge :
  interpretcutter module_globals (PyTuple [PyStr "edge"; PyInt 1])
    = Val (Bound (PyDef "cut_edge" 352) (PyInt 1)) ∧
  ¬ accepted_by_spec (PyTuple [PyStr "edge"; PyInt 1]).
Proof.
  split.
  - by vm_compute.
  - unfold accepted_by_spec, builtin_policies.
    rewrite !elem_of_cons, elem_of_nil. intros [?|[?|[?|[?|[]]]]]; discriminate.
Qed.

(** ** [chamfer] *)

Lemma dict_set_not_nil {V} (k : nat) (v : V) (d : list (nat * V)) :
  dict_set k v d ≠ [].
Proof. destruct d as [|[k' v'] d]; simpl; [done|]. by case_decide. Qed.

Lemma chamfer_corners_not_nil `{Mathutils} `{MeshLib} G m cutter normals
    acc line corners offs :
  chamfer_corners G m cutter normals acc line = Val (corners, offs) →
  corners ≠ [].
Proof.
  unfold chamfer_corners. destruct acc as [c0 o0].
  destruct (planeoffsets G m line cutter) as [offsets|]; simpl; [|done].
  destruct (pyindex line 0) as [first|]; simpl; [|done].
  destruct (pyindex offsets 0) as [o|]; simpl; [|done].
  destruct (getitem normals first) as [n|]; simpl; [|done].
  destruct (pyindex line (-1)) as [last|]; simpl; [|done].
  destruct (pyindex offsets (-1)) as [o'|]; simpl; [|done].
  destruct (getitem normals last) as [n'|]; simpl; [|done].
  intros [= <- _]. apply dict_set_not_nil.
Qed.

Lemma chamfer_corners_loop `{Mathutils} `{MeshLib} G m cutter normals
    lines acc corners offs :
  for_each (chamfer_corners G m cutter normals) lines acc
    = Val (corners, offs) →
  (lines = [] ∧ acc = (corners, offs)) ∨ corners ≠ [].
Proof.
  revert acc. induction lines as [|line lines IH]; intros acc; simpl.
  - intros [= ->]. by left.
  - destruct (chamfer_corners G m cutter normals acc line)
      as [[c1 o1]|] eqn:E; simpl; [|done].
    intros Hrest. right. destruct (IH _ Hrest) as [[-> [= <- <-]]|?]; [|done].
    by eapply chamfer_corners_not_nil.
Qed.

(** C4. Whatever the mesh, the edges and the cutter, the function that
    the name [chamfer] is bound to leaves the mesh as it was: it appends no
    group, so no group ["junction"], and no face.  Its loop over the
    corners raises at the first corner, and without corner there is no
    line to cut. *)
Theorem chamfer_leaves_the_mesh `{Mathutils} `{MeshLib}
    (cut : list nat → list vec3 → ST Mesh (list edge))
    (G : gmap string pyval) (edges : list edge) (cutter : pyval) (m : Mesh) :
  (chamfer cut G edges cutter m).2 = m ∧
  groups (chamfer cut G edges cutter m).2 = groups m.
Proof.
  assert (Hm : (chamfer cut G edges cutter m).2 = m); [|by rewrite Hm].
  unfold chamfer. rewrite ST_bind_unfold. unfold gets at 1.
  rewrite ST_bind_unfold. unfold gets at 1.
  rewrite ST_bind_unfold. unfold lift at 1.
  destruct (for_each _ (suites edges) _) as [[corners offs]|] eqn:E; [|done].
  apply chamfer_corners_loop in E as [[-> [= <- <-]]|Hne]; [done|].
  destruct corners as [|[point offset] corners]; [done|].
  rewrite ST_bind_unfold. cbn [for_each_st].
  rewrite !ST_bind_unfold. unfold lift at 1.
  by destruct (getitem _ point).
Qed.

(** On the rectangle, with no edge to chamfer, [chamfer] returns and the
    groups are those of before: there is no group ["junction"]. *)
Lemma chamfer_rect_no_junction
    (cut : list nat → list vec3 → ST Mesh (list edge)) :
  @chamfer exact_math simple_meshlib cut module_globals []
           (PyTuple [PyStr "distance"; PyInt 1]) rect_mesh
    = (Val tt, rect_mesh) ∧
  "junction" ∉ groups rect_mesh.
Proof.
  split; [reflexivity|]. unfold rect_mesh; simpl.
  rewrite elem_of_cons, elem_of_nil. intros [?|[]]; discriminate.
Qed.

Lemma for_each_st_groups {A} (body : A → ST Mesh unit) (l : list A) :
  (∀ x m, groups (body x m).2 = groups m) →
  ∀ m, groups (for_each_st body l m).2 = groups m.
Proof.
  intros Hbody. induction l as [|x l IH]; intros m; simpl; [done|].
  rewrite ST_bind_unfold. specialize (Hbody x m).
  destruct (body x m) as [[[]|e] m']; simpl in *; [|done].
  by rewrite IH.
Qed.

(** The first [def chamfer], which the second one rebinds, does append
    the group: when [planeoffsets] and [cut] return, the groups of the
    mesh end with ["junction"]. *)
Lemma chamfer_shadowed_appends_junction `{Mathutils} `{MeshLib}
    (cut : list nat → list vec3 → ST Mesh (list (list edge)))
    G line cutter m offsets segments m1 :
  planeoffsets G m line cutter = Val offsets →
  cut line offsets m = (Val segments, m1) →
  groups (chamfer_shadowed cut G line cutter m).2
    = groups m1 ++ ["junction"].
Proof.
  intros Hoff Hcut. unfold chamfer_shadowed.
  rewrite ST_bind_unfold. unfold gets at 1. cbn [id].
  rewrite ST_bind_unfold. unfold lift at 1. rewrite Hoff.
  rewrite ST_bind_unfold, Hcut.
  rewrite ST_bind_unfold. unfold gets at 1.
  rewrite ST_bind_unfold. unfold modify at 1.
  rewrite for_each_st_groups; [done|].
  intros s m'. destruct s; [done|].
  rewrite ST_bind_unfold. unfold gets at 1. by unfold modify.
Qed.

(** ** [separators]: the two fills *)

Lemma carry_length {A} (prev : option A) (l : list (option A)) :
  length (carry prev l) = length l.
Proof. revert prev. induction l; intros; simpl; auto. Qed.

Lemma carry_back_length {A} (l : list (option A)) :
  length (carry_back l) = length l.
Proof. induction l; simpl; auto. Qed.

Lemma carry_lookup_0 {A} (prev : option A) (l : list (option A)) :
  carry prev l !! 0 =
  match l !! 0 with
  | Some None => Some prev
  | x => x
  end.
Proof. by destruct l as [|[x|] l]. Qed.

Lemma carry_lookup_S {A} (prev : option A) (l : list (option A)) (i : nat) :
  carry prev l !! S i =
  match l !! S i with
  | Some None => carry prev l !! i
  | x => x
  end.
Proof.
  revert prev i. induction l as [|x l IH]; intros prev i; [done|].
  cbn [carry]. destruct i as [|i].
  - rewrite !lookup_cons. simpl. rewrite carry_lookup_0.
    by destruct (l !! 0) as [[?|]|].
  - change ((?a :: ?r) !! S (S i)) with (r !! S i). rewrite IH.
    by destruct (l !! S i) as [[?|]|].
Qed.

Lemma carry_back_lookup {A} (l : list (option A)) (i : nat) :
  carry_back l !! i =
  match l !! i with
  | Some None =>
      match carry_back l !! S i with
      | Some y => Some y
      | None => Some None
      end
  | x => x
  end.
Proof.
  revert i. induction l as [|x l IH]; intros i; [done|].
  cbn [carry_back]. destruct i as [|i].
  - simpl. destruct x; [done|]. by destruct (carry_back l).
  - change ((?a :: ?r) !! S i) with (r !! i).
    change ((?a :: ?r) !! S (S i)) with (r !! S i). apply IH.
Qed.

Lemma fill_forward_carry {A} (l : list (option A)) :
  fill_forward l = carry None l.
Proof.
  unfold fill_forward.
  assert (Hinv : ∀ len,
    let s := foldl (fun s i =>
                      match s !! i, s !! (i - 1) with
                      | Some None, Some prev => <[i := prev]> s
                      | _, _ => s
                      end) l (seq 1 len) in
    length s = length l ∧
    (∀ i : nat, i ≤ len → s !! i = carry None l !! i) ∧
    (∀ i : nat, len < i → s !! i = l !! i)).
  { induction len as [|len IH]; cbv zeta.
    - simpl. split; [done|]. split; [|done]. intros i Hi.
      assert (i = 0) as -> by lia. rewrite carry_lookup_0.
      by destruct (l !! 0) as [[?|]|].
    - rewrite seq_S, foldl_app. cbv zeta in IH.
      destruct IH as (Hlen & Hle & Hgt).
      set (s := foldl _ l (seq 1 len)) in *. cbn [foldl].
      replace (1 + len - 1) with len by lia. change (1 + len) with (S len).
      rewrite (Hgt (S len)) by lia. rewrite (Hle len) by lia.
      pose proof (carry_lookup_S None l len) as HS.
      destruct (l !! S len) as [[x|]|] eqn:El.
      + split; [done|]. split; [|intros; apply Hgt; lia].
        intros i Hi. destruct (decide (i = S len)) as [->|].
        * by rewrite Hgt, HS by lia.
        * apply Hle. lia.
      + destruct (carry None l !! len) as [prev|] eqn:Ec.
        * split; [by rewrite length_insert|]. split.
          -- intros i Hi. destruct (decide (i = S len)) as [->|].
             ++ rewrite list_lookup_insert_eq, HS; [done|].
                rewrite Hlen. apply lookup_lt_Some in El. lia.
             ++ rewrite list_lookup_insert_ne by done. apply Hle. lia.
          -- intros i Hi. rewrite list_lookup_insert_ne by lia.
             apply Hgt. lia.
        * apply lookup_lt_Some in El. apply lookup_ge_None in Ec.
          rewrite carry_length in Ec. lia.
      + split; [done|]. split; [|intros; apply Hgt; lia].
        intros i Hi. destruct (decide (i = S len)) as [->|].
        * by rewrite Hgt, HS by lia.
        * apply Hle. lia. }
  specialize (Hinv (length l - 1)). cbv zeta in Hinv.
  destruct Hinv as (Hlen & Hle & Hgt). apply list_eq. intros i.
  destruct (decide (i ≤ length l - 1)); [by apply Hle|].
  rewrite Hgt by lia. rewrite !(proj2 (lookup_ge_None _ _)); [done| |lia].
  rewrite carry_length. lia.
Qed.

Lemma fill_backward_carry {A} (l : list (option A)) :
  fill_backward l = carry_back l.
Proof.
  unfold fill_backward.
  set (step := fun (s : list (option A)) (i : nat) =>
                 match s !! i, s !! (i + 1) with
                 | Some None, Some next => <[i := next]> s
                 | _, _ => s
                 end).
  assert (Hinv : ∀ len s,
    length s = length l →
    (∀ i : nat, len ≤ i → s !! i = carry_back l !! i) →
    (∀ i : nat, i < len → s !! i = l !! i) →
    foldl step s (reverse (seq 0 len)) = carry_back l).
  { induction len as [|len IH]; intros s Hlen Hge Hlt.
    - simpl. apply list_eq. intros i. apply Hge. lia.
    - rewrite seq_S, reverse_snoc. cbn [foldl]. simpl.
      pose proof (carry_back_lookup l len) as HC.
      assert (Hs : s !! len = l !! len) by (apply Hlt; lia).
      assert (Hn : s !! (len + 1) = carry_back l !! S len).
      { replace (len + 1) with (S len) by lia. apply Hge. lia. }
      apply IH.
      + unfold step. repeat case_match; by rewrite ?length_insert.
      + intros i Hi. unfold step. rewrite Hs, Hn.
        destruct (decide (i = len)) as [->|].
        * destruct (l !! len) as [[x|]|] eqn:El; rewrite ?Hs; try done.
          destruct (carry_back l !! S len) as [y|] eqn:Ey.
          -- rewrite list_lookup_insert_eq; [done|].
             rewrite Hlen. by apply lookup_lt_Some in El.
          -- by rewrite Hs.
        * assert (s !! i = carry_back l !! i) by (apply Hge; lia).
          repeat case_match; try done.
          by rewrite list_lookup_insert_ne.
      + intros i Hi. unfold step. rewrite Hs, Hn.
        assert (s !! i = l !! i) by (apply Hlt; lia).
        repeat case_match; try done.
        rewrite list_lookup_insert_ne; [done|lia]. }
  apply Hinv; [done| |done].
  intros i Hi. rewrite carry_back_lookup.
  destruct (l !! i) as [[x|]|] eqn:El; try done.
  apply lookup_lt_Some in El.
  rewrite (proj2 (lookup_ge_None (carry_back l) (S i))); [done|].
  rewrite carry_back_length. lia.
Qed.

Lemma carry_defined {A} (prev : option A) (l : list (option A)) (i : nat)
    (s : A) :
  l !! i = Some (Some s) → carry prev l !! i = Some (Some s).
Proof.
  intros Hi. destruct i as [|i].
  - by rewrite carry_lookup_0, Hi.
  - by rewrite carry_lookup_S, Hi.
Qed.

Lemma carry_run {A} (prev : option A) (l : list (option A)) (i j : nat)
    (s : A) :
  l !! j = Some (Some s) → j ≤ i →
  (∀ k : nat, j < k ≤ i → l !! k = Some None) →
  carry prev l !! i = Some (Some s).
Proof.
  intros Hj. induction i as [|i IH]; intros Hle Hrun.
  - assert (j = 0) as -> by lia. by apply carry_defined.
  - destruct (decide (j = S i)) as [->|]; [by apply carry_defined|].
    rewrite carry_lookup_S, (Hrun (S i)) by lia.
    apply IH; [lia|]. intros k Hk. apply Hrun. lia.
Qed.

Lemma carry_prefix_none {A} (l : list (option A)) (i : nat) :
  (∀ k : nat, k ≤ i → l !! k = Some None) → carry None l !! i = Some None.
Proof.
  induction i as [|i IH]; intros Hrun.
  - by rewrite carry_lookup_0, (Hrun 0).
  - rewrite carry_lookup_S, (Hrun (S i)) by lia.
    apply IH. intros k Hk. apply Hrun. lia.
Qed.

Lemma carry_back_defined {A} (l : list (option A)) (i : nat) (s : A) :
  l !! i = Some (Some s) → carry_back l !! i = Some (Some s).
Proof. intros Hi. by rewrite carry_back_lookup, Hi. Qed.

Lemma carry_back_run {A} (l : list (option A)) (d i : nat) (s : A) :
  l !! (i + d) = Some (Some s) →
  (∀ k : nat, i ≤ k < i + d → l !! k = Some None) →
  carry_back l !! i = Some (Some s).
Proof.
  revert i. induction d as [|d IH]; intros i Hj Hrun.
  - rewrite Nat.add_0_r in Hj. by apply carry_back_defined.
  - rewrite carry_back_lookup, (Hrun i) by lia.
    rewrite (IH (S i)); [done| |].
    + by replace (S i + d) with (i + S d) by lia.
    + intros k Hk. apply Hrun. lia.
Qed.

(** The filled list: defined entries are kept; an undefined entry that a
    defined one precedes takes the nearest preceding one; an undefined
    entry that none precedes takes the first defined one. *)
Lemma fill_characterised {A} (raw : list (option A)) :
  let final := fill_backward (fill_forward raw) in
  length final = length raw ∧
  (∀ (i : nat) s, raw !! i = Some (Some s) → final !! i = Some (Some s)) ∧
  (∀ (i j : nat) s,
     raw !! j = Some (Some s) → j < i →
     (∀ k : nat, j < k ≤ i → raw !! k = Some None) →
     final !! i = Some (Some s)) ∧
  (∀ (i j : nat) s,
     raw !! j = Some (Some s) → i < j →
     (∀ k : nat, k < j → raw !! k = Some None) →
     final !! i = Some (Some s)).
Proof.
  cbv zeta. rewrite fill_forward_carry, fill_backward_carry.
  split; [by rewrite carry_back_length, carry_length|].
  split; [|split].
  - intros i s Hi. by apply carry_back_defined, carry_defined.
  - intros i j s Hj Hlt Hrun. apply carry_back_defined.
    eapply carry_run; [done|lia|done].
  - intros i j s Hj Hlt Hrun.
    apply (carry_back_run _ (j - i)).
    + replace (i + (j - i)) with j by lia. by apply carry_defined.
    + intros k Hk. apply carry_prefix_none. intros k' Hk'.
      apply Hrun. lia.
Qed.

Lemma for_each_append {A B} (f : A → res B) (l : list A) (acc r : list B) :
  for_each (fun segments i => s ← f i; mret (segments ++ [s])) l acc = Val r →
  ∃ r', r = acc ++ r' ∧ length r' = length l ∧
        ∀ (k : nat) i x, l !! k = Some i → r' !! k = Some x → f i = Val x.
Proof.
  revert acc r. induction l as [|i l IH]; intros acc r; simpl.
  - intros [= <-]. exists []. rewrite app_nil_r. by repeat split.
  - destruct (f i) as [s|] eqn:Ef; simpl; [|done].
    intros Hr. destruct (IH _ _ Hr) as (r' & -> & Hlen & Hall).
    exists (s :: r'). rewrite <- app_assoc. split; [done|].
    split; [simpl; by rewrite Hlen|].
    intros [|k] i' x; simpl.
    + by intros [= <-] [= <-].
    + apply Hall.
Qed.





(** On the closed triangle the vertex [line[1]] is undefined and the two
    vertices next to it in the loop are defined: [line[2]], the entry
    after it in the list, and the closing vertex, the last entry of the
    list.  [separators] gives it the plane of [line[2]]; the fill does
    not wrap around to the closing vertex, whose plane is another one. *)
Lemma separators_closed_triangle :
  ∃ s2 s0,
    tri_raw = [None; Some s2; Some s0] ∧ s2 ≠ s0 ∧
    @separators exact_math simple_meshlib tri_mesh tri_line tri_offsets
      = Val [Some s2; Some s2; Some s0].
Proof.
  eexists _, _. split; [reflexivity|]. split; [|by vm_compute].
  intros Heq. vm_compute in Heq. discriminate Heq.
Qed.


(** ** The last phase of [cut_line] *)

Lemma apply_merges_map (merges : gmap nat nat) (fs : list face) :
  apply_merges merges fs = merged_face merges <$> fs.
Proof.
  unfold apply_merges.
  assert (Hinv : ∀ len,
    let s := foldl (fun fs i =>
                      match fs !! i with
                      | Some (a, b, c) =>
                          <[i := (merges_get merges a, merges_get merges b,
                                  merges_get merges c)]> fs
                      | None => fs
                      end) fs (seq 0 len) in
    length s = length fs ∧
    ∀ i : nat, s !! i = if decide (i < len)
                        then merged_face merges <$> fs !! i else fs !! i).
  { induction len as [|len IH]; cbv zeta.
    - simpl. split; [done|]. intros i. repeat case_decide; first [lia|done].
    - rewrite seq_S, foldl_app. cbv zeta in IH. destruct IH as [Hlen Hs].
      set (s := foldl _ fs (seq 0 len)) in *. cbn [foldl]. simpl.
      pose proof (Hs len) as Hl. rewrite decide_False in Hl by lia.
      unfold face in *. rewrite Hl.
      destruct (fs !! len) as [[[a b] c]|] eqn:Ef.
      + split; [by rewrite length_insert|]. intros i.
        destruct (decide (i = len)) as [->|].
        * rewrite list_lookup_insert_eq, decide_True, Ef by
            (try lia; rewrite Hlen; by apply lookup_lt_Some in Ef).
          done.
        * rewrite list_lookup_insert_ne, Hs by done.
          repeat case_decide; try done; lia.
      + split; [done|]. intros i. rewrite Hs.
        repeat case_decide; try done; try lia.
        assert (i = len) as -> by lia. by rewrite Ef. }
  destruct (Hinv (length fs)) as [Hlen Hs]. apply list_eq. intros i.
  rewrite Hs, list_lookup_fmap. case_decide; [done|].
  rewrite (proj2 (lookup_ge_None fs i)); [done|lia].
Qed.

Lemma removefaces_loop_from (crit : nat → res bool) (m : Mesh)
    (a len : nat) (acc : list face * list nat) :
  a + len ≤ length (faces m) →
  length (tracks m) = length (faces m) →
  (∀ i : nat, a ≤ i < a + len → is_val (crit i)) →
  for_each (fun (acc : list face * list nat) (i : nat) =>
              c ← crit i;
              if c : bool then Val acc
              else
                f ← getitem (faces m) i;
                t ← getitem (tracks m) i;
                mret (acc.1 ++ [f], acc.2 ++ [t]))
           (seq a len) acc
  = Val (acc.1 ++ omap (fun i => faces m !! i)
                       (filter (fun i => Is_true (kept_by crit i))
                               (seq a len)),
         acc.2 ++ omap (fun i => tracks m !! i)
                       (filter (fun i => Is_true (kept_by crit i))
                               (seq a len))).
Proof.
  revert a acc. induction len as [|len IH]; intros a acc Hle Htr Hcrit.
  - simpl. rewrite !app_nil_r. by destruct acc.
  - cbn [seq for_each]. rewrite filter_cons.
    assert (Ha : is_val (crit a)) by (apply Hcrit; lia).
    destruct (crit a) as [[|]|] eqn:Ec; simpl in Ha; [| |done].
    + assert (Hk : kept_by crit a = false) by (unfold kept_by; by rewrite Ec).
      rewrite Hk. destruct (decide _) as [Hd|Hd]; [by destruct Hd|]. simpl.
      rewrite IH; [done|lia|done|]. intros i Hi. apply Hcrit. lia.
    + assert (Hk : kept_by crit a = true) by (unfold kept_by; by rewrite Ec).
      rewrite Hk. destruct (decide _) as [Hd|Hd]; [|by destruct Hd].
      destruct (lookup_lt_is_Some_2 (faces m) a) as [f Hf]; [lia|].
      destruct (lookup_lt_is_Some_2 (tracks m) a) as [t Ht]; [lia|].
      simpl. unfold getitem. rewrite Hf, Ht. simpl.
      rewrite IH; [|lia|done|intros i Hi; apply Hcrit; lia].
      simpl. by rewrite <- !app_assoc.
Qed.

Lemma cut_line_crit_total `{Mathutils} (removal : gset nat) (prec : Q)
    (m : Mesh) (i : nat) :
  (i ∉ removal → is_val (faceheight m i)) →
  is_val (cut_line_crit removal prec m i).
Proof.
  intros Hh. unfold cut_line_crit. case_decide as Hin; [done|].
  specialize (Hh Hin). by destruct (faceheight m i).
Qed.

Lemma kept_by_cut_line_crit `{Mathutils} (removal : gset nat) (prec : Q)
    (m : Mesh) (i : nat) :
  Is_true (kept_by (cut_line_crit removal prec m) i) ↔
  (i ∉ removal) ∧ ∃ h, faceheight m i = Val h ∧ float_leb h prec = false.
Proof.
  unfold kept_by, cut_line_crit. case_decide as Hin; simpl.
  - split; [done|]. by intros [? _].
  - destruct (faceheight m i) as [h|]; simpl.
    + destruct (float_leb h prec) eqn:E; simpl.
      * split; [done|]. intros [_ (h' & [= <-] & ?)]. congruence.
      * split; [|done]. intros _. split; [done|]. by exists h.
    + split; [done|]. by intros [_ (h' & ? & _)].
Qed.

(** What lines 329-350 do, from any values of [result] and [removal],
    with parallel lists of faces and tracks and points for every corner:
    the merge map is applied to the three corners of every face of the
    mesh; then a face stays exactly when its index is not in the removal
    set and its height, after the merge, is not [<= prec] (it is above
    [prec], or NaN); the faces that stay and their tracks are those of
    the same indices, in order. *)
Theorem cut_line_final_phase `{Mathutils} `{MeshLib}
    (result : list (list edge)) (removal : gset nat) (prec : Q) (m : Mesh) :
  let merges := (simplify_groups (points m) prec result).2 in
  let m1 := mkMesh (points m) (merged_face merges <$> faces m)
                   (tracks m) (groups m) in
  let kept :=
    filter (fun i => Is_true (kept_by (cut_line_crit removal prec m1) i))
           (seq 0 (length (faces m))) in
  length (tracks m) = length (faces m) →
  (∀ i : nat, i < length (faces m) → i ∉ removal →
              is_val (faceheight m1 i)) →
  ∃ m',
    cut_line_simplify result removal prec m
      = (Val (simplify_groups (points m) prec result).1, m') ∧
    points m' = points m ∧
    groups m' = groups m ∧
    faces m' = omap (fun i => faces m1 !! i) kept ∧
    tracks m' = omap (fun i => tracks m !! i) kept ∧
    ∀ i : nat,
      i ∈ kept ↔
      i < length (faces m) ∧ (i ∉ removal) ∧
      ∃ h, faceheight m1 i = Val h ∧ float_leb h prec = false.
Proof.
  intros merges m1 kept Htr Hh.
  unfold cut_line_simplify. rewrite ST_bind_unfold. unfold gets at 1.
  subst merges. destruct (simplify_groups (points m) prec result)
    as [r mg] eqn:Es.
  rewrite ST_bind_unfold. unfold modify at 1.
  rewrite apply_merges_map. fold m1.
  rewrite ST_bind_unfold. unfold removefaces, removefaces_loop.
  rewrite (removefaces_loop_from _ m1 0 (length (faces m1)) ([], []));
    [|simpl; lia|by subst m1; simpl; rewrite length_fmap|].
  - simpl. eexists. split; [reflexivity|]. simpl.
    assert (Hl : length (merged_face mg <$> faces m) = length (faces m))
      by apply length_fmap.
    rewrite Hl. fold kept.
    split; [done|]. split; [done|]. split; [done|]. split; [done|].
    intros i. unfold kept.
    rewrite list_elem_of_filter, elem_of_seq, kept_by_cut_line_crit.
    split; [intros [[? ?] ?]|intros (? & ? & ?)]; repeat split;
      first [done|lia].
  - intros i Hi. apply cut_line_crit_total. apply Hh.
    subst m1. simpl in Hi. rewrite length_fmap in Hi. lia.
Qed.

Lemma cut_line_final_phase_witness :
  ∃ m',
    @cut_line_simplify exact_math merging_meshlib [[(1, 2)]] {[5]}
                       small_prec rect_mesh
      = (Val (@simplify_groups merging_meshlib (points rect_mesh) small_prec
                               [[(1, 2)]]).1, m') ∧
    points m' = points rect_mesh ∧
    groups m' = groups rect_mesh ∧
    faces m' = [(0, 1, 3)] ∧
    tracks m' = [0].
Proof.
  destruct (@cut_line_final_phase exact_math merging_meshlib [[(1, 2)]]
              {[5]} small_prec rect_mesh) as (m' & Hrun & Hp & Hg & Hf & Ht & _).
  - reflexivity.
  - intros i Hi _. simpl in Hi.
    assert (i = 0 ∨ i = 1) as [->| ->] by lia; vm_compute; exact I.
  - exists m'. split; [exact Hrun|]. split; [exact Hp|]. split; [exact Hg|].
    split; [rewrite Hf|rewrite Ht]; vm_compute; reflexivity.
Defined.

(** ** [cut_line] as a whole *)

Lemma module_globals_edge : module_globals !! "edge" = None.
Proof. by vm_compute. Qed.

Lemma separators_reads_ends `{Mathutils} `{MeshLib} (m : Mesh)
    (line : list nat) (offsets : list vec3) :
  is_val (separators m line offsets) →
  is_val (pyindex line 0) ∧ is_val (pyindex line (-1)).
Proof.
  unfold separators, separators_local.
  destruct (pyindex line 0) as [first|]; simpl; [|done].
  by destruct (pyindex line (-1)) as [last|].
Qed.

(** With [edge] unbound, [cut_line] raises before its loop, and the mesh
    is as it was. *)
Lemma cut_line_unbound `{Mathutils} `{MeshLib}
    (connef : list face → gmap edge nat) (fuel : nat) (line : list nat)
    (offsets : list vec3) (conn_given : bool) (prec : option Q)
    (st : cut_state) :
  st_globals st !! "edge" = None →
  ∃ e,
    (cut_line connef fuel line offsets conn_given prec st).1 = Exc e ∧
    st_mesh (cut_line connef fuel line offsets conn_given prec st).2
      = st_mesh st ∧
    (is_val (separators (st_mesh st) line offsets) → e = NameError "edge").
Proof.
  intros HG. unfold cut_line, load_global.
  cbv beta iota zeta delta [mbind ST_bind gets lift modify mret ST_ret].
  assert (Hg : ∀ c, st_globals (upd_conn c st) = st_globals st) by done.
  destruct (separators (st_mesh st) line offsets) as [segments|e] eqn:Es.
  - destruct (separators_reads_ends (st_mesh st) line offsets)
      as [Hfirst Hlast]; [by rewrite Es|].
    destruct (pyindex line 0) as [first|] eqn:E0; [|done].
    destruct (pyindex line (-1)) as [last|] eqn:E1; [|done].
    exists (NameError "edge").
    destruct conn_given; cbv beta iota; rewrite ?Hg, HG; by repeat split.
  - exists e. destruct conn_given; cbv beta iota;
      (split; [done|]; split; [done|]; by intros []).
Qed.

(** C6. [cut_line] never reaches its last phase: line 317 reads [edge],
    which the function does not bind and the module does not bind, so
    every call raises ([NameError] as soon as the separators are
    computed) and the mesh is as it was: no merge map is applied and no
    face is removed.  And the last phase alone, entered as the function
    would enter it ([result] empty, [removal] empty), does not remove
    the collapsed face [(0,1,0)]: its height is NaN, which is not
    [<= prec]. *)
Theorem cut_line_never_simplifies :
  (∀ (MU : Mathutils) (ML : MeshLib) (connef : list face → gmap edge nat)
     (fuel : nat) (line : list nat) (offsets : list vec3)
     (conn_given : bool) (prec : option Q) (m : Mesh)
     (conn : gmap edge nat),
     let run := cut_line connef fuel line offsets conn_given prec
                         (enter m conn module_globals) in
     ∃ e, run.1 = Exc e ∧ st_mesh run.2 = m ∧
          (is_val (separators m line offsets) → e = NameError "edge")) ∧
  @faceheight exact_math collapsed_mesh 0 = Val NaN ∧
  @cut_line_simplify exact_math simple_meshlib [] ∅ small_prec collapsed_mesh
    = (Val [], collapsed_mesh).
Proof.
  split; [|split].
  - intros MU ML connef fuel line offsets conn_given prec m conn. cbv zeta.
    apply (cut_line_unbound connef fuel line offsets conn_given prec
             (enter m conn module_globals)).
    exact module_globals_edge.
  - by vm_compute.
  - by vm_compute.
Qed.

(** ** The propagation loop: what a turn may change *)

Lemma touches_only_refl (fi : nat) (st : cut_state) : touches_only fi st st.
Proof. by repeat split. Qed.

(** A change of the state that leaves the faces, keeps the tracks as a
    prefix and the seen set as a subset. *)
Lemma touches_only_step (fi : nat) (st0 st st' : cut_state) :
  st_faces st' = st_faces st →
  st_tracks st `prefix_of` st_tracks st' →
  st_seen st ⊆ st_seen st' →
  touches_only fi st0 st → touches_only fi st0 st'.
Proof.
  intros Hf Ht Hs (Hlen & Hk & Htr & Hseen).
  unfold touches_only. rewrite Hf. repeat split; try done.
  - by etrans.
  - set_solver.
Qed.

Lemma keeps_ret (fi : nat) {A} (a : A) : keeps fi (mret a).
Proof. by intros st0 st. Qed.

Lemma keeps_bind (fi : nat) {A B} (c : ST cut_state A)
    (k : A → ST cut_state B) :
  keeps fi c → (∀ a, keeps fi (k a)) → keeps fi (c ≫= k).
Proof.
  intros Hc Hk st0 st Hst. rewrite ST_bind_unfold.
  specialize (Hc st0 st Hst). destruct (c st) as [[a|e] st1]; [|done].
  by apply Hk.
Qed.

Lemma keeps_reads (fi : nat) {A} (c : ST cut_state A) :
  reads c → keeps fi c.
Proof. intros Hc st0 st Hst. by rewrite Hc. Qed.

Lemma reads_ret {S A} (a : A) : reads (mret a : ST S A).
Proof. by intros st. Qed.

Lemma reads_gets {S A} (f : S → A) : reads (gets f).
Proof. by intros st. Qed.

Lemma reads_lift {S A} (r : res A) : reads (lift r : ST S A).
Proof. by intros st. Qed.

Lemma reads_raise {S A} (e : exn) : reads (raise e : ST S A).
Proof. by intros st. Qed.

Lemma reads_bind {S A B} (c : ST S A) (k : A → ST S B) :
  reads c → (∀ a, reads (k a)) → reads (c ≫= k).
Proof.
  intros Hc Hk st. rewrite ST_bind_unfold. specialize (Hc st).
  destruct (c st) as [[a|e] st1]; simpl in Hc; subst; [apply Hk|done].
Qed.

Lemma reads_getface (fi : nat) : reads (getface fi).
Proof. apply reads_bind; [apply reads_gets|intros; apply reads_lift]. Qed.

Lemma reads_gettrack (fi : nat) : reads (gettrack fi).
Proof. apply reads_bind; [apply reads_gets|intros; apply reads_lift]. Qed.

Lemma reads_getpoint (pi : nat) : reads (getpoint pi).
Proof. apply reads_bind; [apply reads_gets|intros; apply reads_lift]. Qed.

Lemma keeps_modify (fi : nat) (f : cut_state → cut_state) :
  (∀ st, st_faces (f st) = st_faces st) →
  (∀ st, st_tracks st `prefix_of` st_tracks (f st)) →
  (∀ st, st_seen st ⊆ st_seen (f st)) →
  keeps fi (modify f).
Proof.
  intros Hf Ht Hs st0 st Hst. simpl.
  by apply (touches_only_step fi st0 st).
Qed.

Lemma keeps_seen_add (fi k : nat) : keeps fi (seen_add k).
Proof. apply keeps_modify; intros st; simpl; [done|done|set_solver]. Qed.

Lemma keeps_front_append (fi : nat) (e : edge) : keeps fi (front_append e).
Proof. by apply keeps_modify. Qed.

Lemma keeps_intersections_add (fi : nat) (e : edge) :
  keeps fi (intersections_add e).
Proof. by apply keeps_modify. Qed.

Lemma keeps_append_track (fi t : nat) : keeps fi (append_track t).
Proof.
  apply keeps_modify; intros st; simpl; [done| |done].
  by apply prefix_app_r.
Qed.

Lemma keeps_push_face_edges (fi : nat) (f : face) :
  keeps fi (push_face_edges f).
Proof.
  unfold push_face_edges.
  repeat (apply keeps_bind; [|intros]); apply keeps_front_append.
Qed.

Lemma keeps_set_face (fi : nat) (f : face) : keeps fi (set_face fi f).
Proof.
  intros st0 st (Hlen & Hk & Htr & Hseen). simpl.
  unfold touches_only, st_faces, st_tracks. simpl.
  rewrite length_insert. repeat split; try done.
  intros k Hne Hlt. rewrite list_lookup_insert_ne by done. by apply Hk.
Qed.

Lemma keeps_append_face (fi : nat) (f : face) : keeps fi (append_face f).
Proof.
  intros st0 st (Hlen & Hk & Htr & Hseen). simpl.
  unfold touches_only, st_faces, st_tracks in *. simpl.
  rewrite length_app. repeat split; try done; [lia|].
  intros k Hne Hlt. rewrite lookup_app_l by lia. by apply Hk.
Qed.

Lemma keeps_usepointat `{Mathutils} (fi : nat) (p : vec3) (prec : Q) :
  keeps fi (st_usepointat p prec).
Proof.
  unfold st_usepointat. apply keeps_bind; [apply keeps_reads, reads_gets|].
  intros ps. apply keeps_bind; [by apply keeps_modify|].
  intros. apply keeps_ret.
Qed.

Lemma keeps_registerface (fi k : nat) : keeps fi (st_registerface k).
Proof.
  unfold st_registerface.
  apply keeps_bind; [apply keeps_reads, reads_gets|]. intros fs.
  apply keeps_bind; [apply keeps_reads, reads_gets|]. intros conn.
  apply keeps_bind; [apply keeps_reads, reads_lift|]. intros c.
  by apply keeps_modify.
Qed.

Lemma keeps_unregisterface (fi k : nat) : keeps fi (st_unregisterface k).
Proof.
  unfold st_unregisterface.
  apply keeps_bind; [apply keeps_reads, reads_gets|]. intros fs.
  apply keeps_bind; [apply keeps_reads, reads_gets|]. intros conn.
  apply keeps_bind; [apply keeps_reads, reads_lift|]. intros c.
  by apply keeps_modify.
Qed.

Lemma keeps_removal_update (fi : nat) (f : gset nat → gset nat) :
  keeps fi (removal_update f).
Proof.
  unfold removal_update.
  apply keeps_bind; [apply keeps_reads, reads_gets|]. intros G.
  apply keeps_bind; [apply keeps_reads, reads_lift|]. intros v.
  destruct v; try apply keeps_reads, reads_raise.
  by apply keeps_modify.
Qed.

Lemma keeps_seen_union (fi : nat) (X : gset nat) :
  keeps fi (modify (upd_seen (fun s => X ∪ s))).
Proof. apply keeps_modify; intros st; simpl; [done|done|set_solver]. Qed.

Ltac keeps_step :=
  lazymatch goal with
  | |- keeps _ (mbind _ _) => apply keeps_bind; [|intros]
  | |- keeps _ (mret _) => apply keeps_ret
  | |- keeps _ (seen_add _) => apply keeps_seen_add
  | |- keeps _ (modify (upd_seen _)) => apply keeps_seen_union
  | |- keeps _ (front_append _) => apply keeps_front_append
  | |- keeps _ (intersections_add _) => apply keeps_intersections_add
  | |- keeps _ (append_track _) => apply keeps_append_track
  | |- keeps _ (append_face _) => apply keeps_append_face
  | |- keeps _ (set_face _ _) => apply keeps_set_face
  | |- keeps _ (st_usepointat _ _) => apply keeps_usepointat
  | |- keeps _ (st_registerface _) => apply keeps_registerface
  | |- keeps _ (st_unregisterface _) => apply keeps_unregisterface
  | |- keeps _ (removal_add _) => apply keeps_removal_update
  | |- keeps _ (removal_discard _) => apply keeps_removal_update
  | |- keeps _ (push_face_edges _) => apply keeps_push_face_edges
  | |- keeps _ (gets _) => apply keeps_reads, reads_gets
  | |- keeps _ (getface _) => apply keeps_reads, reads_getface
  | |- keeps _ (gettrack _) => apply keeps_reads, reads_gettrack
  | |- keeps _ (getpoint _) => apply keeps_reads, reads_getpoint
  | |- keeps _ (if ?b then _ else _) => destruct b
  | |- keeps _ (match ?x with _ => _ end) => destruct x
  | |- keeps _ (let _ := _ in _) => cbv zeta
  end.

Section KeepsCutEdge.
Context `{Mathutils}.
Variables (cutplane : vec3 * vec3) (s1 s2 : option plane) (prec : Q).

Lemma keeps_axis_split (fi : nat) (f : face) (e : edge) (p : vec3) :
  keeps fi (axis_split prec fi f e p).
Proof. unfold axis_split. repeat keeps_step. Qed.

Lemma keeps_plane_split (fi : nat) (f : face) (j : Z) (cj cj1 : vec3) :
  keeps fi (plane_split cutplane prec fi f j cj cj1).
Proof. unfold plane_split. repeat keeps_step. Qed.

Lemma keeps_cut_faces (fi : nat) (f : face)
    (cut : option vec3 * option vec3 * option vec3) (js : list Z)
    (cutted : bool) :
  keeps fi (cut_faces cutplane s1 s2 prec fi f cut js cutted).
Proof.
  revert cutted. induction js as [|j js IH]; intros cutted; simpl.
  - apply keeps_ret.
  - destruct (fnth cut j); [|apply IH].
    destruct (fnth cut (j - 1)); [|apply IH].
    destruct (out_of_s1 s1 prec _ _); [apply IH|].
    destruct (out_of_s2 s2 prec _ _); [apply IH|].
    apply keeps_bind; [apply keeps_plane_split|intros; apply keeps_ret].
Qed.

Lemma keeps_cut_seen_face (fi : nat) (f : face) :
  keeps fi (cut_seen_face cutplane s1 s2 prec fi f).
Proof.
  unfold cut_seen_face.
  repeat first [apply keeps_cut_faces | keeps_step].
Qed.

Lemma keeps_process_face (fi : nat) (f : face) :
  keeps fi (process_face cutplane s1 s2 prec fi f).
Proof.
  unfold process_face. apply keeps_bind; [apply keeps_seen_add|].
  intros. apply keeps_cut_seen_face.
Qed.

Lemma keeps_split_or_process (p : option vec3) (fi : nat) (f : face)
    (e : edge) :
  keeps fi (split_or_process cutplane s1 s2 prec p fi f e).
Proof.
  unfold split_or_process. apply keeps_bind.
  - destruct p; [|apply keeps_ret]. repeat keeps_step.
  - intros far. destruct p as [q|]; [destruct far|].
    + apply keeps_axis_split.
    + apply keeps_process_face.
    + apply keeps_process_face.
Qed.

End KeepsCutEdge.

Lemma marks_reads (fi : nat) {A} (c : ST cut_state A) :
  reads c → marks fi c.
Proof. intros Hc st. left. by rewrite Hc. Qed.

Lemma marks_reads_bind (fi : nat) {A B} (c : ST cut_state A)
    (k : A → ST cut_state B) :
  reads c → (∀ a, marks fi (k a)) → marks fi (c ≫= k).
Proof.
  intros Hc Hk st. rewrite ST_bind_unfold. specialize (Hc st).
  destruct (c st) as [[a|e] st1]; simpl in Hc; subst; [apply Hk|by left].
Qed.

Lemma marks_seen_add (fi : nat) {A} (k : unit → ST cut_state A) :
  (∀ u, keeps fi (k u)) → marks fi (seen_add fi ≫= k).
Proof.
  intros Hk st. rewrite ST_bind_unfold. unfold seen_add, modify.
  right. destruct (Hk tt _ _ (touches_only_refl fi
    (upd_seen (fun s => {[fi]} ∪ s) st))) as (_ & _ & _ & Hseen).
  apply Hseen. simpl. set_solver.
Qed.

Lemma turn_ok_refl (st : cut_state) : turn_ok st st.
Proof. by repeat split. Qed.

Lemma turn_ok_of_touches (fi : nat) (st st' : cut_state) :
  fi ∉ st_seen st →
  touches_only fi st st' →
  st_faces st' = st_faces st ∨ fi ∈ st_seen st' →
  turn_ok st st'.
Proof.
  intros Hfi (Hlen & Hk & Htr & Hseen) Hmark.
  split; [done|]. split; [done|]. split; [done|]. split.
  - intros k Hin Hlt. apply Hk; [|done]. intros ->. exact (Hfi Hin).
  - intros k Hlt Hne. destruct (decide (k = fi)) as [->|Hkf].
    + split; [done|]. destruct Hmark as [Hsame|?]; [|done].
      by rewrite Hsame in Hne.
    + by rewrite Hk in Hne.
Qed.

Section TurnCutEdge.
Context `{Mathutils}.
Variables (cutplane : vec3 * vec3) (s1 s2 : option plane) (prec : Q).

(** Line 379 is reached with [p = None]: the results of the two calls
    of [intersection_axis_face] are dropped. *)
Lemma axis_point_None (fi : nat) (st : cut_state) :
  axis_point s1 s2 fi st = (Val None, st) ∨
  ∃ e, axis_point s1 s2 fi st = (Exc e, st).
Proof.
  unfold axis_point.
  destruct (facepoints (st_mesh st) fi) as [fp|e] eqn:E;
    destruct s1 as [p1|], s2 as [p2|];
    cbv beta iota zeta delta [mbind ST_bind gets lift mret ST_ret];
    rewrite ?E; cbv beta iota; eauto.
Qed.

Lemma marks_process_face (fi : nat) (f : face) :
  marks fi (process_face cutplane s1 s2 prec fi f).
Proof.
  unfold process_face. apply marks_seen_add.
  intros. apply keeps_cut_seen_face.
Qed.

Lemma keeps_axis_point (fi : nat) : keeps fi (axis_point s1 s2 fi).
Proof.
  intros st0 st Hst.
  by destruct (axis_point_None fi st) as [->|[e ->]].
Qed.

Lemma keeps_visit_face (fi : nat) (e : edge) : keeps fi (visit_face cutplane s1 s2 prec fi e).
Proof.
  unfold visit_face.
  apply keeps_bind; [apply keeps_reads, reads_getface|]. intros f.
  apply keeps_bind; [apply keeps_reads, reads_gets|]. intros m.
  apply keeps_bind; [apply keeps_reads, reads_lift|]. intros h.
  destruct (float_leb h prec).
  - apply keeps_bind; [apply keeps_seen_add|].
    intros. apply keeps_push_face_edges.
  - apply keeps_bind; [apply keeps_axis_point|].
    intros p. apply keeps_split_or_process.
Qed.

Lemma marks_visit_face (fi : nat) (e : edge) : marks fi (visit_face cutplane s1 s2 prec fi e).
Proof.
  unfold visit_face.
  apply marks_reads_bind; [apply reads_getface|]. intros f.
  apply marks_reads_bind; [apply reads_gets|]. intros m.
  apply marks_reads_bind; [apply reads_lift|]. intros h.
  destruct (float_leb h prec).
  - apply marks_seen_add. intros. apply keeps_push_face_edges.
  - intros st. rewrite ST_bind_unfold.
    destruct (axis_point_None fi st) as [->|[ex ->]]; [|by left].
    unfold split_or_process. rewrite ST_bind_unfold.
    apply marks_process_face.
Qed.

Lemma visit_turn_ok (e : edge) (st : cut_state) :
  turn_ok st (visit cutplane s1 s2 prec e st).2.
Proof.
  unfold visit. rewrite ST_bind_unfold. unfold gets at 1.
  destruct (st_conn st !! e) as [fi|]; [|apply turn_ok_refl].
  rewrite ST_bind_unfold. unfold gets at 1.
  destruct (decide (fi ∈ st_seen st)) as [|Hfi]; [apply turn_ok_refl|].
  apply (turn_ok_of_touches fi); [done| |apply marks_visit_face].
  apply keeps_visit_face, touches_only_refl.
Qed.

End TurnCutEdge.

Section LoopCutEdge.
Context `{Mathutils}.
Variables (cutplane : vec3 * vec3) (s1 s2 : option plane) (prec : Q).

Local Abbreviation L := (loop_state cutplane s1 s2 prec).

Lemma iter_turn_ok (st : cut_state) :
  turn_ok st (cut_edge_iter cutplane s1 s2 prec st).2.
Proof.
  unfold cut_edge_iter. rewrite ST_bind_unfold. unfold gets at 1.
  destruct (pop (st_front st)) as [[e rest]|]; [|apply turn_ok_refl].
  rewrite ST_bind_unfold. unfold modify at 1. rewrite ST_bind_unfold.
  pose proof (visit_turn_ok cutplane s1 s2 prec e
                (upd_front (fun _ => rest) st)) as Hv.
  by destruct (visit _ _ _ _ e _) as [[[]|ex] st'].
Qed.

Lemma loop_state_S (n : nat) (st : cut_state) :
  L (S n) st =
  match cut_edge_iter cutplane s1 s2 prec st with
  | (Val true, st') => L n st'
  | (_, st') => st'
  end.
Proof.
  unfold loop_state. cbn [cut_edge_loop]. rewrite ST_bind_unfold.
  by destruct (cut_edge_iter _ _ _ _ st) as [[[|]|ex] st'].
Qed.

Lemma loop_turn_ok (n : nat) (st : cut_state) :
  turn_ok (L n st) (L (S n) st).
Proof.
  revert st. induction n as [|n IH]; intros st.
  - rewrite loop_state_S. pose proof (iter_turn_ok st) as Hi.
    unfold loop_state at 1. simpl.
    by destruct (cut_edge_iter _ _ _ _ st) as [[[|]|ex] st'].
  - rewrite (loop_state_S (S n)), (loop_state_S n).
    destruct (cut_edge_iter _ _ _ _ st) as [[[|]|ex] st'];
      first [apply IH|apply turn_ok_refl].
Qed.

Lemma loop_seen_stays (n d k : nat) (st : cut_state) :
  k ∈ st_seen (L n st) → k < length (st_faces (L n st)) →
  st_faces (L (n + d) st) !! k = st_faces (L n st) !! k ∧
  k ∈ st_seen (L (n + d) st) ∧
  k < length (st_faces (L (n + d) st)).
Proof.
  intros Hin Hlt. induction d as [|d (Hf & Hs & Hl)].
  - by rewrite Nat.add_0_r.
  - replace (n + S d) with (S (n + d)) by lia.
    destruct (loop_turn_ok (n + d) st) as (Hlen & _ & Hseen & Hkeep & _).
    split; [by rewrite Hkeep|]. split; [by apply Hseen|lia].
Qed.

(** C1. In the states that the loop of [cut_edge] goes through: a face
    whose index is in the seen set keeps its three corners and stays in
    the seen set in all later turns; a turn that changes a face puts its
    index, which was not in the seen set, in the seen set; hence no face
    is changed in two turns. *)
Theorem cut_edge_face_split_once (st : cut_state) :
  (∀ n m k : nat,
     n ≤ m →
     k ∈ st_seen (L n st) → k < length (st_faces (L n st)) →
     st_faces (L m st) !! k = st_faces (L n st) !! k ∧
     k ∈ st_seen (L m st)) ∧
  (∀ n k : nat,
     k < length (st_faces (L n st)) →
     st_faces (L (S n) st) !! k ≠ st_faces (L n st) !! k →
     (k ∉ st_seen (L n st)) ∧ k ∈ st_seen (L (S n) st)) ∧
  (∀ n m k : nat,
     n < m →
     k < length (st_faces (L n st)) →
     st_faces (L (S n) st) !! k ≠ st_faces (L n st) !! k →
     st_faces (L (S m) st) !! k = st_faces (L m st) !! k).
Proof.
  assert (Hstay : ∀ n m k : nat,
     n ≤ m →
     k ∈ st_seen (L n st) → k < length (st_faces (L n st)) →
     st_faces (L m st) !! k = st_faces (L n st) !! k ∧
     k ∈ st_seen (L m st)).
  { intros n m k Hle Hin Hlt.
    destruct (loop_seen_stays n (m - n) k st Hin Hlt) as (Hf & Hs & _).
    replace (n + (m - n)) with m in * by lia. done. }
  assert (Hmark : ∀ n k : nat,
     k < length (st_faces (L n st)) →
     st_faces (L (S n) st) !! k ≠ st_faces (L n st) !! k →
     (k ∉ st_seen (L n st)) ∧ k ∈ st_seen (L (S n) st)).
  { intros n k Hlt Hne.
    destruct (loop_turn_ok n st) as (_ & _ & _ & _ & Hch). by apply Hch. }
  split; [done|]. split; [done|].
  intros n m k Hnm Hlt Hne.
  destruct (Hmark n k Hlt Hne) as [_ Hin].
  destruct (loop_turn_ok n st) as (Hlen & _).
  assert (Hlt' : k < length (st_faces (L (S n) st))) by lia.
  destruct (Hstay (S n) m k ltac:(lia) Hin Hlt') as [-> _].
  by destruct (Hstay (S n) (S m) k ltac:(lia) Hin Hlt') as [-> _].
Qed.

End LoopCutEdge.

Lemma cut_edge_face_split_once_witness :
  st_faces (@loop_state exact_math rect_cutplane None None small_prec 5
              (rect_seeded patched_globals)) !! 0
  = st_faces (@loop_state exact_math rect_cutplane None None small_prec 2
                (rect_seeded patched_globals)) !! 0 ∧
  0 ∈ st_seen (@loop_state exact_math rect_cutplane None None small_prec 5
                 (rect_seeded patched_globals)).
Proof.
  apply (proj1 (@cut_edge_face_split_once exact_math rect_cutplane None None
                  small_prec (rect_seeded patched_globals)) 2 5 0).
  - lia.
  - apply (bool_decide_unpack _). vm_compute. exact I.
  - vm_compute. lia.
Defined.

(** ** The split around the axis of a separator *)

(** C3. On the rectangle, with a separator whose axis crosses the inside
    of the face 0 at the point [(3,1,0)], farther than [prec] from the
    three corners: the split of lines 382-393 would give the faces
    [(0,1,4)], [(1,2,4)], [(2,0,4)] around that point; the turn of the
    loop that pops the edge [(0,1)] does not make it.  With the globals of
    the module the turn raises [NameError] and leaves the faces; with
    [removal] bound it cuts the face 0 by the cut plane only.  On every
    input line 379 is reached with [p = None]. *)
Theorem cut_edge_axis_split_is_skipped :
  let fp := (Qv 0 0 0, Qv 4 0 0, Qv 4 3 0) in
  let axis := (p_origin rect_separator, p_axis rect_separator) in
  facepoints rect_mesh 0 = Val fp ∧
  vred <$> intersection_axis_face axis fp = Some (Qv 3 1 0) ∧
  (∀ q, intersection_axis_face axis fp = Some q →
        Qltb small_prec (@distance exact_math q (Qv 0 0 0)) = true ∧
        Qltb small_prec (@distance exact_math q (Qv 4 0 0)) = true ∧
        Qltb small_prec (@distance exact_math q (Qv 4 3 0)) = true ∧
        st_faces (@axis_split exact_math small_prec 0 (0, 1, 2) (0, 1) q
                    (upd_front (fun _ => []) (rect_state patched_globals))).2
        = rect_axis_split_faces) ∧
  (@cut_edge_iter exact_math rect_cutplane None (Some rect_separator)
                  small_prec (rect_state module_globals)).1
    = Exc (NameError "removal") ∧
  st_faces (@cut_edge_iter exact_math rect_cutplane None (Some rect_separator)
              small_prec (rect_state module_globals)).2
    = [(0, 1, 2); (0, 2, 3)] ∧
  (@cut_edge_iter exact_math rect_cutplane None (Some rect_separator)
                  small_prec (rect_state patched_globals)).1 = Val true ∧
  st_faces (@cut_edge_iter exact_math rect_cutplane None (Some rect_separator)
              small_prec (rect_state patched_globals)).2
    = [(4, 0, 1); (0, 2, 3); (4, 1, 5); (4, 5, 2)] ∧
  ∀ s1 s2 fi st q, (axis_point s1 s2 fi st).1 ≠ Val (Some q).
Proof.
  cbv zeta. split; [reflexivity|]. split; [by vm_compute|].
  split.
  { intros q Hq. vm_compute in Hq. injection Hq as <-. by vm_compute. }
  split; [by vm_compute|]. split; [by vm_compute|].
  split; [by vm_compute|]. split; [by vm_compute|].
  intros s1 s2 fi st q.
  by destruct (axis_point_None s1 s2 fi st) as [->|[e ->]].
Qed.

(** * Further properties of the code *)

(** ** [arrangeface] *)

(** X1. [arrangeface] only turns the face: the arranged face has the same
    three directed edges, so that registering or unregistering it changes
    the connectivity map exactly as the face itself does. *)
Theorem arrangeface_same_edges (f : face) (p fi : nat) (conn : gmap edge nat) :
  face_edges (arrangeface f p) ≡ₚ face_edges f ∧
  register_edges (arrangeface f p) fi conn = register_edges f fi conn ∧
  unregister_edges (arrangeface f p) conn = unregister_edges f conn.
Proof.
  assert (Hp : face_edges (arrangeface f p) ≡ₚ face_edges f).
  { destruct f as [[a b] c]. unfold arrangeface.
    repeat case_decide; subst; simpl; [| |done].
    - symmetry. apply (Permutation_cons_append [_; _] _).
    - apply (Permutation_cons_append [_; _] _). }
  assert (Hin : ∀ e, e ∈ face_edges (arrangeface f p) ↔ e ∈ face_edges f).
  { intros e. by rewrite Hp. }
  split; [done|]. split; apply map_eq; intros e.
  - rewrite !register_edges_lookup.
    destruct (decide (e ∈ face_edges (arrangeface f p))) as [H1|H1];
      destruct (decide (e ∈ face_edges f)) as [H2|H2]; try done;
      exfalso; apply Hin in H1 || apply Hin in H2; done.
  - rewrite !unregister_edges_lookup.
    destruct (decide (e ∈ face_edges (arrangeface f p))) as [H1|H1];
      destruct (decide (e ∈ face_edges f)) as [H2|H2]; try done;
      exfalso; apply Hin in H1 || apply Hin in H2; done.
Qed.

(** X2. When [p] is a corner of the face, [arrangeface] puts it first. *)
Theorem arrangeface_first (f : face) (p : nat) :
  p ∈ [fnth f 0; fnth f 1; fnth f 2] → fnth (arrangeface f p) 0 = p.
Proof.
  destruct f as [[a b] c]. unfold arrangeface. simpl.
  rewrite !elem_of_cons, elem_of_nil.
  intros [->|[->|[->|[]]]]; repeat case_decide; simpl; congruence.
Qed.

Lemma arrangeface_first_witness : fnth (arrangeface (4, 7, 9) 9) 0 = 9.
Proof. apply (arrangeface_first (4, 7, 9) 9). set_solver. Defined.

(** ** [registerface], [unregisterface] *)

(** X3. For a face none of whose directed edges is in the map,
    [registerface] followed by [unregisterface] gives back the map it
    started from; in between, the three edges are sent to the face. *)
Theorem register_unregister_round_trip (fs : list face)
    (conn : gmap edge nat) (fi : nat) (f : face) :
  fs !! fi = Some f →
  (∀ e, e ∈ face_edges f → conn !! e = None) →
  ∃ c1, registerface fs conn fi = Val c1 ∧
        (∀ e, e ∈ face_edges f → c1 !! e = Some fi) ∧
        unregisterface fs c1 fi = Val conn.
Proof.
  intros Hf Hfree. exists (register_edges f fi conn).
  unfold registerface, unregisterface, getitem. rewrite Hf. simpl.
  split; [done|]. split.
  - intros e He. rewrite register_edges_lookup. by rewrite decide_True.
  - f_equal. apply map_eq. intros e.
    rewrite unregister_edges_lookup, register_edges_lookup.
    case_decide as He; [|done]. symmetry. by apply Hfree.
Qed.

Lemma register_unregister_round_trip_witness :
  ∃ c1, registerface (faces rect_mesh) (register_edges (0, 1, 2) 0 ∅) 1
          = Val c1 ∧
        (∀ e, e ∈ face_edges (0, 2, 3) → c1 !! e = Some 1) ∧
        unregisterface (faces rect_mesh) c1 1
          = Val (register_edges (0, 1, 2) 0 ∅).
Proof.
  apply (register_unregister_round_trip (faces rect_mesh)
           (register_edges (0, 1, 2) 0 ∅) 1 (0, 2, 3)).
  - reflexivity.
  - intros e He. rewrite register_edges_lookup, lookup_empty.
    simpl in He. rewrite !elem_of_cons, elem_of_nil in He.
    rewrite decide_False; [done|]. simpl.
    rewrite !elem_of_cons, elem_of_nil.
    destruct He as [->|[->|[->|[]]]]; intros [?|[?|[?|[]]]]; congruence.
Defined.

(** X4. [unregisterface] deletes the three directed edges of the face
    whatever face index the map gave them (it does not check that they
    were registered for [fi]), and leaves every other edge. *)
Theorem unregisterface_any_owner (fs : list face) (conn : gmap edge nat)
    (fi : nat) (f : face) :
  fs !! fi = Some f →
  ∃ c, unregisterface fs conn fi = Val c ∧
       (∀ e, e ∈ face_edges f → c !! e = None) ∧
       (∀ e, e ∉ face_edges f → c !! e = conn !! e).
Proof.
  intros Hf. exists (unregister_edges f conn).
  unfold unregisterface, getitem. rewrite Hf. simpl. split; [done|].
  split; intros e He; rewrite unregister_edges_lookup.
  - by rewrite decide_True.
  - by rewrite decide_False.
Qed.

Lemma unregisterface_any_owner_witness :
  ∃ c, unregisterface [(0, 1, 2); (0, 1, 3)] {[(0, 1) := 1; (7, 8) := 5]} 0
         = Val c ∧
       c !! (0, 1) = None ∧ c !! (7, 8) = Some 5.
Proof.
  destruct (unregisterface_any_owner [(0, 1, 2); (0, 1, 3)]
              {[(0, 1) := 1; (7, 8) := 5]} 0 (0, 1, 2) eq_refl)
    as (c & Hc & Hin & Hout).
  exists c. split; [exact Hc|]. split.
  - apply Hin. simpl. rewrite elem_of_cons. by left.
  - rewrite Hout; [reflexivity|]. simpl.
    rewrite !elem_of_cons, elem_of_nil. intros [?|[?|[?|[]]]]; congruence.
Defined.

(** X5. [registerface] and [unregisterface] keep the map sound: when
    every edge of the map belonged to the face it was sent to, the same
    holds after each of them. *)
Theorem registerface_keeps_sound (fs : list face) (conn : gmap edge nat)
    (fi : nat) (f : face) :
  conn_sound fs conn →
  fs !! fi = Some f →
  ∃ c1 c2, registerface fs conn fi = Val c1 ∧ conn_sound fs c1 ∧
           unregisterface fs conn fi = Val c2 ∧ conn_sound fs c2.
Proof.
  intros Hs Hf. exists (register_edges f fi conn), (unregister_edges f conn).
  unfold registerface, unregisterface, getitem. rewrite Hf. simpl.
  split; [done|]. split; [|split; [done|]].
  - intros e k. rewrite register_edges_lookup. case_decide as He.
    + intros [= <-]. by exists f.
    + apply Hs.
  - intros e k. rewrite unregister_edges_lookup. case_decide; [done|].
    apply Hs.
Qed.

Lemma registerface_keeps_sound_witness :
  ∃ c1 c2, registerface (faces rect_mesh) rect_conn 0 = Val c1 ∧
           conn_sound (faces rect_mesh) c1 ∧
           unregisterface (faces rect_mesh) rect_conn 0 = Val c2 ∧
           conn_sound (faces rect_mesh) c2.
Proof.
  apply (registerface_keeps_sound (faces rect_mesh) rect_conn 0 (0, 1, 2)).
  - intros e k. unfold rect_conn. rewrite !register_edges_lookup.
    repeat case_decide.
    + intros [= <-]. by exists (0, 2, 3).
    + intros [= <-]. by exists (0, 1, 2).
    + by rewrite lookup_empty.
  - reflexivity.
Defined.

(** ** [segmentsdict] *)

Lemma line_edge_lt (line : list nat) (i : nat) (e : edge) :
  line_edge line i = Some e → i < length line - 1.
Proof.
  unfold line_edge. destruct (line !! i) eqn:E1; [|done].
  destruct (line !! (i + 1)) eqn:E2; [|done]. intros _.
  apply lookup_lt_Some in E2. lia.
Qed.

Lemma segmentsdict_upto (line : list nat) (n : nat) (e : edge) (i : nat) :
  foldl (fun segments i =>
           match line !! i, line !! (i + 1) with
           | Some a, Some b => <[(a, b) := i]> segments
           | _, _ => segments
           end) (∅ : gmap edge nat) (seq 0 n) !! e = Some i
  ↔ i < n ∧ line_edge line i = Some e ∧
    ∀ j : nat, i < j < n → line_edge line j ≠ Some e.
Proof.
  revert i. induction n as [|n IH]; intros i.
  - simpl. rewrite lookup_empty. split; [done|]. intros [? _]. lia.
  - rewrite seq_S, foldl_app. simpl.
    set (s := foldl _ ∅ (seq 0 n)) in *.
    assert (Hstep :
      match line !! n, line !! (n + 1) with
      | Some a, Some b => <[(a, b) := n]> s
      | _, _ => s
      end = match line_edge line n with
            | Some e' => <[e' := n]> s
            | None => s
            end).
    { unfold line_edge. by destruct (line !! n), (line !! (n + 1)). }
    rewrite Hstep. clear Hstep.
    destruct (line_edge line n) as [e'|] eqn:En.
    + destruct (decide (e' = e)) as [->|Hne].
      * rewrite lookup_insert_eq. split.
        -- intros [= <-]. split; [lia|]. split; [done|]. intros j Hj. lia.
        -- intros (Hi & Hie & Hlast).
           destruct (decide (i = n)) as [->|]; [done|].
           exfalso. apply (Hlast n); [lia|done].
      * rewrite lookup_insert_ne by done. rewrite IH. split.
        -- intros (Hi & Hie & Hlast). split; [lia|]. split; [done|].
           intros j Hj. destruct (decide (j = n)) as [->|].
           ++ rewrite En. congruence.
           ++ apply Hlast. lia.
        -- intros (Hi & Hie & Hlast).
           assert (i ≠ n) by (intros ->; congruence).
           split; [lia|]. split; [done|]. intros j Hj. apply Hlast. lia.
    + rewrite IH. split.
      * intros (Hi & Hie & Hlast). split; [lia|]. split; [done|].
        intros j Hj. destruct (decide (j = n)) as [->|].
        -- rewrite En. congruence.
        -- apply Hlast. lia.
      * intros (Hi & Hie & Hlast).
        assert (i ≠ n) by (intros ->; congruence).
        split; [lia|]. split; [done|]. intros j Hj. apply Hlast. lia.
Qed.

Lemma segmentsdict_lookup (line : list nat) (e : edge) (i : nat) :
  segmentsdict line !! e = Some i
  ↔ line_edge line i = Some e ∧ ∀ j : nat, i < j → line_edge line j ≠ Some e.
Proof.
  unfold segmentsdict. rewrite segmentsdict_upto. split.
  - intros (Hi & Hie & Hlast). split; [done|]. intros j Hj Hje.
    apply (Hlast j); [|done]. apply line_edge_lt in Hje. lia.
  - intros (Hie & Hlast). split; [by eapply line_edge_lt|].
    split; [done|]. intros j Hj. apply Hlast. lia.
Qed.

(** X6. [segmentsdict] sends a directed edge to the index of its last
    occurrence in the line: [segments[e] = i] exactly when the edge that
    starts at the [i]-th point of the line is [e] and no later edge of
    the line is [e]. *)
Theorem segmentsdict_last_index (line : list nat) (e : edge) (i : nat) :
  segmentsdict line !! e = Some i
  ↔ line_edge line i = Some e ∧ ∀ j : nat, i < j → line_edge line j ≠ Some e.
Proof. apply segmentsdict_lookup. Qed.

(** ** [interpretcutter]: the exceptions *)

Lemma interpretcutter_exceptions_in (G : gmap string pyval) (cutter : pyval)
    (e : exn) :
  (∀ s, is_Some (G !! ("cut_" +:+ s)) ↔ s ∈ cut_names) →
  interpretcutter G cutter = Exc e →
  match cutter with
  | PyTuple [] => e = IndexError
  | PyTuple (PyStr name :: rest) =>
      if decide (name ∈ cut_names) then rest = [] ∧ e = IndexError
      else e = KeyError
  | _ => e = TypeError
  end.
Proof.
  intros Hcut.
  destruct cutter as [| | | | |items| | | |name c| |];
    cbn [interpretcutter callable]; try (by intros [= <-]).
  - destruct items as [|name rest]; [by intros [= <-]|].
    cbn [getitem lookup list_lookup mbind res_bind].
    destruct name as [| | |s| | | | | | | |]; try (by intros [= <-]).
    cbn [mbind res_bind]. specialize (Hcut s).
    destruct (G !! ("cut_" +:+ s)) as [func|] eqn:Eg.
    + rewrite decide_True by (apply Hcut; by eexists).
      destruct rest as [|arg rest]; simpl; [by intros [= <-]|done].
    + rewrite decide_False; [simpl; by intros [= <-]|].
      intros Hin. apply Hcut in Hin. by destruct Hin.
  - destruct c; [done|by intros [= <-]].
Qed.

(** X7. The exception that [interpretcutter] raises, with the globals
    of the module: [IndexError] for the empty tuple and for a tuple of
    one item that names a policy; [KeyError] for a tuple whose first item
    is a string that names no policy, also when it has one item;
    [TypeError] for a tuple whose first item is not a string and for a
    value that is neither a tuple nor callable. *)
Theorem interpretcutter_exceptions (cutter : pyval) (e : exn) :
  interpretcutter module_globals cutter = Exc e →
  match cutter with
  | PyTuple [] => e = IndexError
  | PyTuple (PyStr name :: rest) =>
      if decide (name ∈ cut_names) then rest = [] ∧ e = IndexError
      else e = KeyError
  | _ => e = TypeError
  end.
Proof.
  apply interpretcutter_exceptions_in. exact module_globals_cut.
Qed.

Lemma interpretcutter_exceptions_witness :
  interpretcutter module_globals (PyTuple [PyStr "bevel"; PyInt 1])
    = Exc KeyError ∧
  if decide ("bevel" ∈ cut_names)
  then [PyInt 1] = [] ∧ KeyError = IndexError
  else KeyError = KeyError.
Proof.
  split; [vm_compute; reflexivity|].
  apply (interpretcutter_exceptions (PyTuple [PyStr "bevel"; PyInt 1])
           KeyError).
  vm_compute. reflexivity.
Defined.

(** ** Offset policies *)

(** X8. The offset of [cut_depth] is perpendicular to [fn1 - fn2] and to
    the normalised [cross(fn1,fn2)], whatever [normalize] returns. *)
Theorem cut_depth_perpendicular `{Mathutils} (dist : Q) (fn1 fn2 : vec3) :
  (dot (cut_depth dist fn1 fn2) (vsub fn1 fn2) == 0)%Q ∧
  (dot (cut_depth dist fn1 fn2) (normalize (cross fn1 fn2)) == 0)%Q.
Proof.
  unfold cut_depth. generalize (normalize (cross fn1 fn2)) as d. intros d.
  destruct d as [dx dy dz], fn1 as [x1 y1 z1], fn2 as [x2 y2 z2].
  unfold dot, vscale, cross, vsub. simpl. split; ring.
Qed.

(** ** Rational arithmetic of the tests *)

Lemma Qltb_lt (a b : Q) : Qltb a b = true ↔ (a < b)%Q.
Proof.
  unfold Qltb. rewrite negb_true_iff. split.
  - intros Hb. apply Qnot_le_lt. intros Hle.
    apply Qle_bool_iff in Hle. congruence.
  - intros Hlt. destruct (Qle_bool b a) eqn:E; [|done].
    apply Qle_bool_iff in E. exfalso. by apply (Qlt_not_le a b).
Qed.

Lemma Qle_bool_false (a b : Q) : Qle_bool a b = false ↔ (b < a)%Q.
Proof.
  rewrite <- Qltb_lt. unfold Qltb. by rewrite negb_true_iff.
Qed.

Lemma Qabs'_le (a p : Q) :
  Qle_bool (Qabs' a) p = true ↔ (- p <= a ∧ a <= p)%Q.
Proof.
  rewrite Qle_bool_iff. unfold Qabs'.
  destruct (Qle_bool 0 a) eqn:E.
  - apply Qle_bool_iff in E. split; [intros ?; split|intros [? ?]]; lra.
  - apply Qle_bool_false in E. split; [intros ?; split|intros [? ?]]; lra.
Qed.

Lemma Qdiv_pos_nonzero (x d : Q) : (0 < x / d)%Q → ¬ (d == 0)%Q.
Proof.
  intros Hpos Hd. unfold Qdiv in Hpos.
  assert (Hinv : (/ d == 0)%Q) by (rewrite Hd; reflexivity).
  rewrite Hinv in Hpos. lra.
Qed.

(** ** [intersection_axis_face] *)

(** X9. A point returned by [intersection_axis_face] is strictly inside
    the triangle (coordinates [u] and [v] positive with [u + v < 1]) and
    on the axis: it is [axis[0] - w*axis[1]] for the third coordinate
    [w]. *)
Theorem intersection_axis_face_on_axis (axis : vec3 * vec3)
    (f0 f1 f2 p : vec3) :
  intersection_axis_face axis (f0, f1, f2) = Some p →
  ∃ u v w : Q,
    (0 < u)%Q ∧ (0 < v)%Q ∧ (u + v < 1)%Q ∧
    veq p (vadd (vadd f0 (vscale u (vsub f1 f0))) (vscale v (vsub f2 f0))) ∧
    veq p (vsub axis.1 (vscale w axis.2)).
Proof.
  unfold intersection_axis_face.
  set (coords := solve_columns _ _ _ _).
  destruct (Qltb 0 (vx coords)) eqn:Hu; [|done].
  destruct (Qltb 0 (vy coords)) eqn:Hv; [|done].
  destruct (Qltb (vx coords + vy coords) 1) eqn:Huv; [|done].
  simpl. intros [= <-].
  apply Qltb_lt in Hu, Hv, Huv.
  exists (vx coords), (vy coords), (vz coords).
  split; [done|]. split; [done|]. split; [done|].
  split; [by repeat split|].
  assert (Hd : ¬ (det3 (vsub f1 f0) (vsub f2 f0) axis.2 == 0)%Q).
  { apply (Qdiv_pos_nonzero _ _ Hu). }
  subst coords. clear Hu Hv Huv. revert Hd.
  destruct axis as [[ax ay az] [dx dy dz]].
  destruct f0 as [x0 y0 z0], f1 as [x1 y1 z1], f2 as [x2 y2 z2].
  unfold veq, solve_columns, det3, dot, cross, vadd, vsub, vscale. simpl.
  intros Hd. repeat split; field; exact Hd.
Qed.

Lemma intersection_axis_face_on_axis_witness :
  match intersection_axis_face (Qv 3 1 0, Qv 0 0 1)
          (Qv 0 0 0, Qv 4 0 0, Qv 4 3 0) with
  | Some p =>
      ∃ u v w : Q,
        (0 < u)%Q ∧ (0 < v)%Q ∧ (u + v < 1)%Q ∧
        veq p (vadd (vadd (Qv 0 0 0) (vscale u (vsub (Qv 4 0 0) (Qv 0 0 0))))
                    (vscale v (vsub (Qv 4 3 0) (Qv 0 0 0)))) ∧
        veq p (vsub (Qv 3 1 0) (vscale w (Qv 0 0 1)))
  | None => False
  end.
Proof.
  destruct (intersection_axis_face (Qv 3 1 0, Qv 0 0 1)
              (Qv 0 0 0, Qv 4 0 0, Qv 4 3 0)) as [p|] eqn:E.
  - exact (intersection_axis_face_on_axis (Qv 3 1 0, Qv 0 0 1)
             (Qv 0 0 0) (Qv 4 0 0) (Qv 4 3 0) p E).
  - vm_compute in E. discriminate E.
Defined.

(** ** [intersection_edge_plane] *)

Lemma ratio_in_unit (dist compl D t : Q) :
  (D == dist - compl)%Q → ¬ (0 < dist * compl)%Q → ¬ (D == 0)%Q →
  (t * D == dist)%Q → (0 <= t ∧ t <= 1)%Q.
Proof.
  intros HD Hsides Hnz Ht.
  assert (Hprod : (dist * compl <= 0)%Q) by (by apply Qnot_lt_le).
  assert (Hsame : ∀ a b : Q, (0 < a)%Q → (0 < b)%Q → (0 < a * b)%Q)
    by (intros a b; apply Qmult_lt_0_compat).
  destruct (Qlt_le_dec 0 D) as [Hpos|Hneg].
  - split; apply Qnot_lt_le; intros Hlt.
    + assert (H1 : (0 < - t)%Q) by lra.
      pose proof (Hsame _ _ H1 Hpos) as H2.
      assert (H3 : (0 < - dist)%Q) by lra.
      assert (H4 : (0 < - compl)%Q) by lra.
      pose proof (Hsame _ _ H3 H4) as H5. lra.
    + assert (H1 : (0 < t - 1)%Q) by lra.
      pose proof (Hsame _ _ H1 Hpos) as H2.
      assert (H3 : (0 < dist)%Q) by lra.
      assert (H4 : (0 < compl)%Q) by lra.
      pose proof (Hsame _ _ H3 H4) as H5. lra.
  - assert (Hlt0 : (0 < - D)%Q).
    { apply Qle_lteq in Hneg as [?|?]; [lra|by destruct Hnz]. }
    split; apply Qnot_lt_le; intros Hlt.
    + assert (H1 : (0 < - t)%Q) by lra.
      pose proof (Hsame _ _ H1 Hlt0) as H2.
      assert (H3 : (0 < dist)%Q) by lra.
      assert (H4 : (0 < compl)%Q) by lra.
      pose proof (Hsame _ _ H3 H4) as H5. lra.
    + assert (H1 : (0 < t - 1)%Q) by lra.
      pose proof (Hsame _ _ H1 Hlt0) as H2.
      assert (H3 : (0 < - dist)%Q) by lra.
      assert (H4 : (0 < - compl)%Q) by lra.
      pose proof (Hsame _ _ H3 H4) as H5. lra.
Qed.

(** X10. When [normalize] scales the direction of the edge by a factor
    that is not zero, with [prec] and [NUMPREC] not negative, a point
    returned by [intersection_edge_plane] is within [prec] of the plane
    and on the segment: it is [edge[0] + t*(edge[1]-edge[0])] with
    [0 <= t <= 1]. *)
Theorem intersection_edge_plane_on_segment `{Mathutils}
    (axis e : vec3 * vec3) (prec k : Q) (p : vec3) :
  (0 <= prec)%Q → (0 <= NUMPREC)%Q →
  veq (normalize (vsub e.2 e.1)) (vscale k (vsub e.2 e.1)) →
  ¬ (k == 0)%Q →
  intersection_edge_plane axis e prec = Some p →
  (- prec <= dot (vsub axis.1 p) axis.2 ∧
   dot (vsub axis.1 p) axis.2 <= prec)%Q ∧
  ∃ t : Q, (0 <= t ∧ t <= 1)%Q ∧
           veq p (vadd e.1 (vscale t (vsub e.2 e.1))).
Proof.
  intros Hprec Hnum Hnorm Hk. unfold intersection_edge_plane.
  set (dist := dot (vsub axis.1 e.1) axis.2).
  set (compl := dot (vsub axis.1 e.2) axis.2).
  set (D := dot (vsub e.2 e.1) axis.2).
  destruct (Qle_bool (Qabs' dist) prec) eqn:E1.
  { intros [= <-]. apply Qabs'_le in E1. split; [done|].
    exists 0%Q. split; [lra|].
    destruct e as [[x1 y1 z1] [x2 y2 z2]]. unfold veq. simpl.
    repeat split; ring. }
  destruct (Qle_bool (Qabs' compl) prec) eqn:E2.
  { intros [= <-]. apply Qabs'_le in E2. split; [done|].
    exists 1%Q. split; [lra|].
    destruct e as [[x1 y1 z1] [x2 y2 z2]]. unfold veq. simpl.
    repeat split; ring. }
  destruct (Qltb 0 (dist * compl)) eqn:E3; [done|].
  destruct (Qle_bool (Qabs' D) NUMPREC) eqn:E4; [done|].
  intros [= <-].
  assert (Hsides : ¬ (0 < dist * compl)%Q).
  { intros Hlt. apply Qltb_lt in Hlt. congruence. }
  assert (HD0 : ¬ (D == 0)%Q).
  { intros HD. assert (Qle_bool (Qabs' D) NUMPREC = true); [|congruence].
    apply Qabs'_le. split; lra. }
  assert (HDeq : (D == dist - compl)%Q).
  { subst D dist compl. destruct axis as [[ax ay az] [nx ny nz]].
    destruct e as [[x1 y1 z1] [x2 y2 z2]]. unfold dot, vsub. simpl. ring. }
  clear E1 E2 E3 E4.
  destruct Hnorm as (Hx & Hy & Hz). revert Hx Hy Hz.
  generalize (normalize (vsub e.2 e.1)) as n. intros [nx ny nz].
  subst dist compl D. revert Hsides HD0 HDeq.
  destruct axis as [[ax ay az] [ux uy uz]].
  destruct e as [[x1 y1 z1] [x2 y2 z2]].
  unfold veq, dot, vsub, vadd, vdiv, vscale. cbn [vx vy vz fst snd].
  intros Hsides HD0 HDeq Hx Hy Hz.
  remember ((ax - x1) * ux + (ay - y1) * uy + (az - z1) * uz)%Q
    as dist eqn:Edist.
  remember ((x2 - x1) * ux + (y2 - y1) * uy + (z2 - z1) * uz)%Q
    as D eqn:ED.
  assert (Hq : (nx * ux + ny * uy + nz * uz == k * D)%Q).
  { rewrite Hx, Hy, Hz, ED. ring. }
  rewrite Hq, Hx, Hy, Hz.
  assert (Hq0 : ¬ (k * D == 0)%Q).
  { intros H0. apply Qmult_integral in H0 as [?|?]; tauto. }
  split.
  - assert (Hzero :
      ((ax - (x1 + dist * (k * (x2 - x1)) / (k * D))) * ux
       + (ay - (y1 + dist * (k * (y2 - y1)) / (k * D))) * uy
       + (az - (z1 + dist * (k * (z2 - z1)) / (k * D))) * uz == 0)%Q).
    { transitivity
        (((ax - x1) * ux + (ay - y1) * uy + (az - z1) * uz)
         - dist * (k * ((x2 - x1) * ux + (y2 - y1) * uy + (z2 - z1) * uz))
           / (k * D))%Q.
      - field. by split.
      - rewrite <- Edist, <- ED. field. by split. }
    rewrite Hzero. split; lra.
  - exists (dist / D)%Q. split.
    + apply (ratio_in_unit dist
               ((ax - x2) * ux + (ay - y2) * uy + (az - z2) * uz)%Q D);
        [done|done|done|]. field. exact HD0.
    + rewrite Hq, Hx, Hy, Hz. repeat split; field; by split.
Qed.



Lemma intersection_edge_plane_on_segment_witness :
  match @intersection_edge_plane exact_math (Qv 0 1 0, Qv 0 (-1) 0)
          (Qv 0 0 0, Qv 0 3 0) small_prec with
  | Some p =>
      (- small_prec <= dot (vsub (Qv 0 1 0) p) (Qv 0 (-1) 0) ∧
       dot (vsub (Qv 0 1 0) p) (Qv 0 (-1) 0) <= small_prec)%Q ∧
      ∃ t : Q, (0 <= t ∧ t <= 1)%Q ∧
               veq p (vadd (Qv 0 0 0)
                           (vscale t (vsub (Qv 0 3 0) (Qv 0 0 0))))
  | None => False
  end.
Proof.
  destruct (@intersection_edge_plane exact_math (Qv 0 1 0, Qv 0 (-1) 0)
              (Qv 0 0 0, Qv 0 3 0) small_prec) as [p|] eqn:E.
  - apply (@intersection_edge_plane_on_segment exact_math
             (Qv 0 1 0, Qv 0 (-1) 0) (Qv 0 0 0, Qv 0 3 0) small_prec
             (1 # 3) p).
    + by vm_compute.
    + by vm_compute.
    + by vm_compute.
    + by vm_compute.
    + exact E.
  - vm_compute in E. discriminate E.
Defined.

(** ** [separators] *)

(** X11. The origin of the separator that [separators] computes at a
    vertex [p] lies on the two cut planes next to the vertex (through
    [p+n1] with normal [n1], through [p+n2] with normal [n2]) and at the
    height of [p] along the axis, whose direction is the normalised cross
    product of the two offsets; provided that direction is not orthogonal
    to the cross product. *)
Theorem separator_origin_on_cut_planes `{Mathutils} `{MeshLib} (m : Mesh)
    (line : list nat) (offsets : list vec3) (l i v : nat)
    (n1 n2 p o n d : vec3) :
  getitem offsets ((i - 1) mod l) = Val n1 →
  getitem offsets (i mod l) = Val n2 →
  getitem line i = Val v →
  getitem (points m) v = Val p →
  separator_at m line offsets l i = Val (Some (o, n, d)) →
  ¬ (dot (normalize (cross n1 n2)) (cross n1 n2) == 0)%Q →
  d = normalize (cross n1 n2) ∧
  (dot (vsub o (vadd p n1)) n1 == 0)%Q ∧
  (dot (vsub o (vadd p n2)) n2 == 0)%Q ∧
  (dot (vsub o p) d == 0)%Q.
Proof.
  intros H1 H2 Hv Hp Hsep Hd. revert Hsep.
  unfold separator_at. rewrite H1, H2. simpl.
  destruct (Qltb _ _); [|done]. rewrite Hv. simpl. rewrite Hp. simpl.
  destruct (getitem line (i - 1)) as [v0|]; simpl; [|done].
  destruct (getitem (points m) v0) as [p0|]; simpl; [|done].
  intros [= <- _ <-]. revert Hd.
  generalize (normalize (cross n1 n2)) as d. intros [dx dy dz].
  destruct n1 as [ax ay az], n2 as [bx b_y bz], p as [px py pz].
  unfold solve_rows, solve_columns, det3, dot, cross, vsub, vadd. simpl.
  intros Hd. split; [done|].
  repeat split; field; intros Hz0; apply Hd; rewrite <- Hz0; ring.
Qed.

Lemma separator_origin_on_cut_planes_witness :
  match @separator_at exact_math simple_meshlib bend_mesh bend_line
          bend_offsets 5 1 with
  | Val (Some (o, n, d)) =>
      d = @normalize exact_math (cross (Qv 3 0 0) (Qv 0 4 0)) ∧
      (dot (vsub o (vadd (Qv 0 1 0) (Qv 3 0 0))) (Qv 3 0 0) == 0)%Q ∧
      (dot (vsub o (vadd (Qv 0 1 0) (Qv 0 4 0))) (Qv 0 4 0) == 0)%Q ∧
      (dot (vsub o (Qv 0 1 0)) d == 0)%Q
  | _ => False
  end.
Proof.
  destruct (@separator_at exact_math simple_meshlib bend_mesh bend_line
              bend_offsets 5 1) as [[[[o n] d]|]|] eqn:E.
  - apply (@separator_origin_on_cut_planes exact_math simple_meshlib
             bend_mesh bend_line bend_offsets 5 1 1
             (Qv 3 0 0) (Qv 0 4 0) (Qv 0 1 0) o n d);
      [reflexivity|reflexivity|reflexivity|reflexivity|exact E|by vm_compute].
  - vm_compute in E. discriminate E.
  - vm_compute in E. discriminate E.
Defined.

Lemma carry_some_all {A} (prev : A) (l : list (option A)) :
  ∀ x, x ∈ carry (Some prev) l → is_Some x.
Proof.
  revert prev. induction l as [|y l IH]; intros prev x; simpl.
  - by rewrite elem_of_nil.
  - rewrite elem_of_cons. destruct y as [s|].
    + intros [->|Hin]; [by eexists|]. by eapply IH.
    + intros [->|Hin]; [by eexists|]. by eapply IH.
Qed.

Lemma carry_back_all_some {A} (l : list (option A)) :
  (∀ x, x ∈ l → is_Some x) → carry_back l = l.
Proof.
  induction l as [|y l IH]; intros Hall; [done|]. simpl.
  rewrite IH by (intros x Hx; apply Hall; by right).
  destruct (Hall y) as [s ->]; [by left|done].
Qed.

Lemma carry_none_all_none {A} (l : list (option A)) :
  (∀ x, x ∈ l → x = None) → carry None l = l ∧ carry_back l = l.
Proof.
  induction l as [|y l IH]; intros Hall; [done|]. simpl.
  assert (y = None) as -> by (apply Hall; by left).
  destruct IH as [IH1 IH2]; [intros x Hx; apply Hall; by right|].
  rewrite IH1, IH2. split; [done|].
  destruct l as [|z l]; [done|].
  by rewrite (Hall z) by (right; by left).
Qed.

Lemma fill_defined_everywhere {A} (l : list (option A)) :
  (∃ (i : nat) s, l !! i = Some (Some s)) →
  ∀ x, x ∈ carry_back (carry None l) → is_Some x.
Proof.
  induction l as [|y l IH]; intros (i & s & Hi); [done|].
  destruct y as [t|].
  - simpl. intros x. rewrite elem_of_cons.
    pose proof (carry_some_all t l) as Hall.
    rewrite (carry_back_all_some _ Hall).
    intros [->|Hin]; [by eexists|by apply Hall].
  - destruct i as [|i]; [done|]. simpl in Hi.
    specialize (IH (ex_intro _ i (ex_intro _ s Hi))).
    change (carry None (None :: l)) with (None :: carry None l).
    cbn [carry_back]. intros x. rewrite elem_of_cons.
    intros [->|Hin]; [|by apply IH].
    destruct (carry_back (carry None l)) as [|z r] eqn:Er.
    + exfalso. assert (Hlen : length (carry_back (carry None l)) = length l)
        by (by rewrite carry_back_length, carry_length).
      rewrite Er in Hlen. apply lookup_lt_Some in Hi. simpl in Hlen. lia.
    + apply IH. by left.
Qed.

(** X12. The two fills of [separators] leave no undefined entry as soon
    as the first loop defined one; when it defined none (a straight
    polyline), the list is returned as it is, all undefined. *)
Theorem separators_all_or_none `{Mathutils} `{MeshLib} (m : Mesh)
    (line : list nat) (offsets : list vec3) (raw : list (option plane)) :
  separators_local m line offsets = Val raw →
  ∃ segs,
    separators m line offsets = Val segs ∧
    length segs = length raw ∧
    ((∃ (i : nat) s, raw !! i = Some (Some s)) →
     ∀ x, x ∈ segs → is_Some x) ∧
    ((∀ x, x ∈ raw → x = None) → segs = raw).
Proof.
  intros Hraw. exists (fill_backward (fill_forward raw)).
  split; [unfold separators; by rewrite Hraw|].
  rewrite fill_forward_carry, fill_backward_carry.
  split; [by rewrite carry_back_length, carry_length|]. split.
  - apply fill_defined_everywhere.
  - intros Hnone. destruct (carry_none_all_none raw Hnone) as [-> ->]. done.
Qed.

Lemma separators_all_or_none_witness :
  ∃ segs,
    @separators exact_math simple_meshlib bend_mesh bend_line bend_offsets
      = Val segs ∧
    length segs = length bend_raw ∧
    ((∃ (i : nat) s, bend_raw !! i = Some (Some s)) →
     ∀ x, x ∈ segs → is_Some x) ∧
    ((∀ x, x ∈ bend_raw → x = None) → segs = bend_raw).
Proof.
  apply (@separators_all_or_none exact_math simple_meshlib bend_mesh
           bend_line bend_offsets bend_raw).
  vm_compute. reflexivity.
Defined.

(** X13. [separators] returns one entry for each inner vertex of an
    open line ([len(line)-2] entries) and one more for a closed line
    ([len(line)-1] entries). *)
Theorem separators_length `{Mathutils} `{MeshLib} (m : Mesh)
    (line : list nat) (offsets : list vec3) (segs : list (option plane)) :
  separators m line offsets = Val segs →
  ∃ first last,
    pyindex line 0 = Val first ∧ pyindex line (-1) = Val last ∧
    length segs = if decide (first ≠ last) then length line - 2
                  else length line - 1.
Proof.
  unfold separators.
  destruct (separators_local m line offsets) as [raw|] eqn:Hraw; [|done].
  simpl. intros [= <-].
  destruct (fill_characterised raw) as (Hlen & _). cbv zeta in Hlen.
  rewrite Hlen. revert Hraw. unfold separators_local.
  destruct (pyindex line 0) as [first|] eqn:E0; simpl; [|done].
  destruct (pyindex line (-1)) as [last|] eqn:E1; simpl; [|done].
  intros Hr. apply for_each_append in Hr as (r' & -> & Hl & _).
  exists first, last. split; [done|]. split; [done|].
  simpl. rewrite Hl, length_seq.
  assert (0 < length line).
  { destruct line; [|simpl; lia]. vm_compute in E0. discriminate E0. }
  case_decide; lia.
Qed.

Lemma separators_length_witness :
  ∃ first last,
    pyindex bend_line 0 = Val first ∧ pyindex bend_line (-1) = Val last ∧
    length (fill_backward (fill_forward bend_raw))
    = if decide (first ≠ last) then length bend_line - 2
      else length bend_line - 1.
Proof.
  apply (@separators_length exact_math simple_meshlib bend_mesh bend_line
           bend_offsets).
  vm_compute. reflexivity.
Defined.

(** ** [planeoffsets] *)

Lemma for_each_inv {A B} (body : B → A → res B) (I : B → Prop)
    (l : list A) (acc r : B) :
  (∀ acc x acc', x ∈ l → I acc → body acc x = Val acc' → I acc') →
  I acc → for_each body l acc = Val r → I r.
Proof.
  revert acc. induction l as [|x l IH]; intros acc Hbody Hacc; simpl.
  - by intros [= <-].
  - destruct (body acc x) as [acc'|] eqn:Eb; simpl; [|done].
    apply IH.
    + intros a y a' Hy. apply Hbody. by right.
    + eapply Hbody; [by left|done|done].
Qed.

(** The faces that gave the normals recorded in the two dictionaries. *)
Lemma adjacents_from_faces `{MeshLib} (m : Mesh) (segts : gmap edge nat)
    (adj : gmap nat vec3 * gmap nat vec3) :
  for_each
    (fun adj f => for_each (adjacents_edge m segts f) (face_edges f) adj)
    (faces m) (∅, ∅) = Val adj →
  ∀ k : nat,
    (is_Some (adj.1 !! k) →
     ∃ f e, f ∈ faces m ∧ e ∈ face_edges f ∧ segts !! e = Some k) ∧
    (is_Some (adj.2 !! k) →
     ∃ f e, f ∈ faces m ∧ e ∈ face_edges f ∧
            segts !! (e.2, e.1) = Some k).
Proof.
  set (I := fun adj : gmap nat vec3 * gmap nat vec3 => ∀ k : nat,
    (is_Some (adj.1 !! k) →
     ∃ f e, f ∈ faces m ∧ e ∈ face_edges f ∧ segts !! e = Some k) ∧
    (is_Some (adj.2 !! k) →
     ∃ f e, f ∈ faces m ∧ e ∈ face_edges f ∧
            segts !! (e.2, e.1) = Some k)).
  apply (for_each_inv _ I).
  - intros acc f acc' Hf Hacc.
    apply (for_each_inv _ I); [|exact Hacc].
    intros a e a' He Ha. unfold adjacents_edge.
    destruct (segts !! e) as [k'|] eqn:E1.
    + destruct (facenormal m f) as [n|]; simpl; [|done].
      intros [= <-] k. simpl. split; [|apply Ha].
      destruct (decide (k = k')) as [->|Hne].
      * intros _. by exists f, e.
      * rewrite lookup_insert_ne by done. apply Ha.
    + destruct (segts !! (e.2, e.1)) as [k'|] eqn:E2.
      * destruct (facenormal m f) as [n|]; simpl; [|done].
        intros [= <-] k. simpl. split; [apply Ha|].
        destruct (decide (k = k')) as [->|Hne].
        -- intros _. by exists f, e.
        -- rewrite lookup_insert_ne by done. apply Ha.
      * by intros [= <-].
  - intros k. simpl. rewrite lookup_empty. split; by intros [? ?].
Qed.

Lemma planeoffsets_loop `{Mathutils} (G : gmap string pyval) (m : Mesh)
    (line : list nat) (c : cutterfn) (adj : gmap nat vec3 * gmap nat vec3)
    (l : list nat) (acc offs : list vec3) :
  for_each
    (fun offsets i =>
       fn1 ← getkey adj.1 i;
       fn2 ← getkey adj.2 i;
       offset ← call_cutter G c fn1 fn2;
       b ← getitem line (i + 1);
       pb ← getitem (points m) b;
       a ← getitem line i;
       pa ← getitem (points m) a;
       mret (offsets ++
             [if Qltb (dot (cross fn1 fn2) (vsub pb pa)) 0
              then vneg offset else offset]))
    l acc = Val offs →
  length offs = length acc + length l ∧
  ∀ i : nat, i ∈ l → is_Some (adj.1 !! i) ∧ is_Some (adj.2 !! i).
Proof.
  revert acc. induction l as [|i l IH]; intros acc; cbn [for_each].
  - intros [= <-]. split; [simpl; lia|]. intros i. by rewrite elem_of_nil.
  - destruct (getkey adj.1 i) as [fn1|] eqn:E1; cbn [mbind res_bind]; [|done].
    destruct (getkey adj.2 i) as [fn2|] eqn:E2; cbn [mbind res_bind]; [|done].
    destruct (call_cutter G c fn1 fn2) as [offset|];
      cbn [mbind res_bind]; [|done].
    destruct (getitem line (i + 1)) as [b|]; cbn [mbind res_bind]; [|done].
    destruct (getitem (points m) b) as [pb|]; cbn [mbind res_bind]; [|done].
    destruct (getitem line i) as [a|]; cbn [mbind res_bind]; [|done].
    destruct (getitem (points m) a) as [pa|]; cbn [mbind res_bind]; [|done].
    cbn [mret res_ret].
    intros Hr. apply IH in Hr as [Hlen Hall].
    rewrite length_app in Hlen. simpl in Hlen. split; [simpl; lia|].
    intros j. rewrite elem_of_cons. intros [->|Hj]; [|by apply Hall].
    unfold getkey in E1, E2.
    destruct (adj.1 !! i); [|done]. destruct (adj.2 !! i); [|done].
    split; by eexists.
Qed.

(** X14. When [planeoffsets] returns, it returns one offset for each
    edge of the line; each directed edge of the line is an edge of a face
    of the mesh, its reverse is an edge of a face of the mesh, and the
    line does not run a second time along it.  (On a line with a border
    edge, with an edge that is no face edge or with a repeated edge, it
    raises.) *)
Theorem planeoffsets_needs_both_sides `{Mathutils} `{MeshLib}
    (G : gmap string pyval) (m : Mesh) (line : list nat) (cutter : pyval)
    (offs : list vec3) :
  planeoffsets G m line cutter = Val offs →
  length offs = length line - 1 ∧
  ∀ (i a b : nat), line_edge line i = Some (a, b) →
    (∃ f, f ∈ faces m ∧ (a, b) ∈ face_edges f) ∧
    (∃ f, f ∈ faces m ∧ (b, a) ∈ face_edges f) ∧
    (∀ j : nat, i < j → line_edge line j ≠ Some (a, b)).
Proof.
  unfold planeoffsets.
  destruct (interpretcutter G cutter) as [c|]; simpl; [|done].
  destruct (for_each _ (faces m) (∅, ∅)) as [adj|] eqn:Eadj; simpl; [|done].
  pose proof (adjacents_from_faces _ _ _ Eadj) as Hadj. clear Eadj.
  intros Hloop. apply planeoffsets_loop in Hloop as [Hlen Hall].
  rewrite length_seq in Hlen. simpl in Hlen.
  split; [done|]. intros i a b Hi.
  assert (Hin : i ∈ seq 0 (length line - 1)).
  { apply elem_of_seq. apply line_edge_lt in Hi. lia. }
  destruct (Hall i Hin) as [Hl Hr].
  destruct (Hadj i) as [Hleft Hright].
  destruct (Hleft Hl) as (f & e & Hf & He & Hs).
  destruct (Hright Hr) as (f' & e' & Hf' & He' & Hs').
  apply segmentsdict_lookup in Hs as [Hs Hlast].
  apply segmentsdict_lookup in Hs' as [Hs' _].
  rewrite Hi in Hs, Hs'. injection Hs as <-. injection Hs' as Ha Hb.
  split; [by exists f|]. split; [|done]. exists f'. split; [done|].
  destruct e' as [x y]. simpl in *. by subst.
Qed.

Lemma planeoffsets_needs_both_sides_witness :
  match @planeoffsets exact_math simple_meshlib module_globals rect_mesh
          [0; 2] (PyTuple [PyStr "distance"; PyInt 1]) with
  | Val offs =>
      length offs = 1 ∧
      ∀ (i a b : nat), line_edge [0; 2] i = Some (a, b) →
        (∃ f, f ∈ faces rect_mesh ∧ (a, b) ∈ face_edges f) ∧
        (∃ f, f ∈ faces rect_mesh ∧ (b, a) ∈ face_edges f) ∧
        (∀ j : nat, i < j → line_edge [0; 2] j ≠ Some (a, b))
  | Exc _ => False
  end.
Proof.
  destruct (@planeoffsets exact_math simple_meshlib module_globals rect_mesh
              [0; 2] (PyTuple [PyStr "distance"; PyInt 1])) as [offs|e] eqn:E.
  - exact (@planeoffsets_needs_both_sides exact_math simple_meshlib
             module_globals rect_mesh [0; 2]
             (PyTuple [PyStr "distance"; PyInt 1]) offs E).
  - vm_compute in E. discriminate E.
Defined.

(** ** [removefaces] *)

Lemma sublist_drop_S {A} (l : list A) (a : nat) :
  drop (S a) l `sublist_of` drop a l.
Proof.
  replace (S a) with (a + 1) by lia. rewrite <- drop_drop.
  apply sublist_drop.
Qed.

Lemma removefaces_loop_sublist (crit : nat → res bool) (m : Mesh)
    (a len : nat) (acc r : list face * list nat) :
  for_each (fun (acc : list face * list nat) (i : nat) =>
              c ← crit i;
              if c : bool then Val acc
              else
                f ← getitem (faces m) i;
                t ← getitem (tracks m) i;
                mret (acc.1 ++ [f], acc.2 ++ [t]))
           (seq a len) acc = Val r →
  ∃ fs ts, r = (acc.1 ++ fs, acc.2 ++ ts) ∧ length fs = length ts ∧
           fs `sublist_of` drop a (faces m) ∧
           ts `sublist_of` drop a (tracks m).
Proof.
  revert a acc r.
  induction len as [|len IH]; intros a acc r; cbn [seq for_each].
  - intros [= <-]. exists [], []. rewrite !app_nil_r.
    split; [by destruct acc|]. split; [done|]. split; apply sublist_nil_l.
  - destruct (crit a) as [[|]|]; cbn [mbind res_bind]; [| |done].
    + intros Hr. apply IH in Hr as (fs & ts & -> & Hlen & Hfs & Hts).
      exists fs, ts. split; [done|]. split; [done|].
      split; (etrans; [eassumption|apply sublist_drop_S]).
    + destruct (getitem (faces m) a) as [f|] eqn:Ef;
        cbn [mbind res_bind]; [|done].
      destruct (getitem (tracks m) a) as [t|] eqn:Et;
        cbn [mbind res_bind]; [|done].
      cbn [mret res_ret]. intros Hr.
      apply IH in Hr as (fs & ts & -> & Hlen & Hfs & Hts).
      apply getitem_Val in Ef, Et. cbn [fst snd].
      exists (f :: fs), (t :: ts). rewrite <- !app_assoc.
      split; [done|]. split; [simpl; by rewrite Hlen|].
      rewrite (drop_S _ _ _ Ef), (drop_S _ _ _ Et).
      split; by apply sublist_skip.
Qed.

(** X15. [removefaces] changes the faces and the tracks only: when it
    returns, the points and the groups are the same, the faces and the
    tracks are sublists of the former ones and have the same length; when
    the criterion or an index raises, the mesh is left as it was. *)
Theorem removefaces_outcome (crit : Mesh → nat → res bool) (m : Mesh) :
  match removefaces crit m with
  | (Val _, m') =>
      points m' = points m ∧ groups m' = groups m ∧
      length (faces m') = length (tracks m') ∧
      faces m' `sublist_of` faces m ∧ tracks m' `sublist_of` tracks m
  | (Exc _, m') => m' = m
  end.
Proof.
  unfold removefaces, removefaces_loop.
  destruct (for_each _ _ _) as [[newfaces newtracks]|] eqn:E; [|done].
  apply removefaces_loop_sublist in E as (fs & ts & [= -> ->] & Hl & Hf & Ht).
  simpl. by rewrite !drop_0 in *.
Qed.

Lemma filter_all {A} (P : A → Prop) `{∀ x, Decision (P x)} (l : list A) :
  (∀ x, x ∈ l → P x) → filter P l = l.
Proof.
  induction l as [|x l IH]; intros Hall; [done|].
  rewrite filter_cons, decide_True by (apply Hall; by left).
  rewrite IH; [done|]. intros y Hy. apply Hall. by right.
Qed.

Lemma omap_lookup_seq {A} (l : list A) (n a : nat) :
  a + n = length l → omap (fun i => l !! i) (seq a n) = drop a l.
Proof.
  revert a. induction n as [|n IH]; intros a Ha; simpl.
  - by rewrite drop_ge by lia.
  - destruct (lookup_lt_is_Some_2 l a) as [x Hx]; [lia|].
    rewrite Hx. simpl. rewrite IH by lia. by rewrite (drop_S _ _ _ Hx).
Qed.

(** X16. With parallel lists of faces and tracks and a criterion that is
    false for every face, [removefaces] leaves the mesh as it is. *)
Theorem removefaces_nothing_to_remove (crit : Mesh → nat → res bool)
    (m : Mesh) :
  length (tracks m) = length (faces m) →
  (∀ i : nat, i < length (faces m) → crit m i = Val false) →
  removefaces crit m = (Val tt, m).
Proof.
  intros Hlen Hcrit. unfold removefaces, removefaces_loop.
  rewrite (removefaces_loop_from (crit m) m 0 (length (faces m)) ([], []));
    [|simpl; lia|done|].
  - rewrite filter_all.
    + simpl. rewrite (omap_lookup_seq (faces m)) by lia.
      rewrite <- Hlen. rewrite (omap_lookup_seq (tracks m)) by lia.
      rewrite !drop_0. by destruct m.
    + intros i Hi. apply elem_of_seq in Hi. unfold kept_by.
      rewrite Hcrit by lia. done.
  - intros i Hi. rewrite Hcrit by lia. done.
Qed.

Lemma removefaces_nothing_to_remove_witness :
  removefaces (fun _ _ => Val false) rect_mesh = (Val tt, rect_mesh).
Proof.
  apply (removefaces_nothing_to_remove (fun _ _ => Val false) rect_mesh).
  - reflexivity.
  - intros i Hi. reflexivity.
Defined.


(** ** [faceheight] *)

Lemma Qmin'_rotate (a b c : Q) :
  (Qmin' (Qmin' a b) c == Qmin' (Qmin' b c) a)%Q.
Proof.
  unfold Qmin'.
  destruct (Qle_bool a b) eqn:E1;
    [apply Qle_bool_iff in E1|apply Qle_bool_false in E1];
  (destruct (Qle_bool b c) eqn:E2;
    [apply Qle_bool_iff in E2|apply Qle_bool_false in E2]);
  repeat match goal with
         | |- context [Qle_bool ?x ?y] =>
             let E := fresh "E" in
             destruct (Qle_bool x y) eqn:E;
             [apply Qle_bool_iff in E|apply Qle_bool_false in E]
         end; lra.
Qed.

Lemma is_zero_vsub (a b : vec3) : is_zero (vsub a b) = true ↔ veq a b.
Proof.
  unfold is_zero, veq. destruct a as [x1 y1 z1], b as [x2 y2 z2]. simpl.
  rewrite !andb_true_iff, !Qeq_bool_iff.
  split; intros [[Hx Hy] Hz] || intros (Hx & Hy & Hz); repeat split; lra.
Qed.

Lemma pymin_NaN (rest : list pyfloat) : pymin NaN rest = NaN.
Proof.
  unfold pymin. induction rest as [|h rest IH]; [done|].
  simpl. by destruct h.
Qed.

Lemma pymin_Fin (x : Q) (h1 h2 : pyfloat) :
  ∃ y, pymin (Fin x) [h1; h2] = Fin y.
Proof.
  unfold pymin. simpl.
  destruct h1 as [x1|]; simpl; [destruct (Qltb x1 x)|];
    (destruct h2 as [x2|]; simpl; [destruct (Qltb x2 _)|]); eauto.
Qed.

Lemma pymin_Fin3 (x y z : Q) :
  pymin (Fin x) [Fin y; Fin z] = Fin (Qmin' (Qmin' x y) z).
Proof.
  unfold pymin, Qmin'. simpl. unfold Qltb.
  destruct (Qle_bool x y); simpl; unfold Qltb.
  - by destruct (Qle_bool x z).
  - by destruct (Qle_bool y z).
Qed.

Lemma faceheight_corners `{Mathutils} (m : Mesh) (fi a b c : nat)
    (pa pb pc : vec3) :
  faces m !! fi = Some (a, b, c) →
  points m !! a = Some pa → points m !! b = Some pb →
  points m !! c = Some pc →
  faceheight m fi
  = Val (pymin (corner_height pb pc pa)
               [corner_height pc pa pb; corner_height pa pb pc]).
Proof.
  intros Hf Ha Hb Hc. unfold faceheight, facepoints, getitem.
  unfold face in *. rewrite Hf. cbn [mbind res_bind]. rewrite Ha, Hb, Hc.
  reflexivity.
Qed.

(** X17. [faceheight] is NaN exactly when the last and the first corner
    of the face are at the same point; so for a collapsed face it depends
    on the corner the face starts from: the face [(a,b,a)] has a NaN
    height, which is never [<= prec], where the same face turned to
    [(b,a,a)] has a number for height.  For a face whose three corners
    are at different points, the height is a number and the same for the
    face turned by one corner. *)
Theorem faceheight_rotation `{Mathutils} (m m' : Mesh) (fi fi' : nat)
    (a b c : nat) (pa pb pc : vec3) :
  points m' = points m →
  faces m !! fi = Some (a, b, c) →
  faces m' !! fi' = Some (b, c, a) →
  points m !! a = Some pa → points m !! b = Some pb →
  points m !! c = Some pc →
  (faceheight m fi = Val NaN ↔ veq pc pa) ∧
  (veq pc pa → ¬ veq pa pb →
   ∀ prec, ∃ h h',
     faceheight m fi = Val h ∧ float_leb h prec = false ∧
     faceheight m' fi' = Val (Fin h')) ∧
  (¬ veq pa pb → ¬ veq pb pc → ¬ veq pc pa →
   ∃ h h', faceheight m fi = Val (Fin h) ∧
           faceheight m' fi' = Val (Fin h') ∧ (h == h')%Q).
Proof.
  intros Hp Hf Hf' Ha Hb Hc.
  rewrite (faceheight_corners m fi a b c pa pb pc) by done.
  rewrite (faceheight_corners m' fi' b c a pb pc pa)
    by (rewrite ?Hp; done).
  assert (Hnan : ∀ x y z : vec3, corner_height x y z = NaN ↔ veq y z).
  { intros x y z. unfold corner_height. rewrite <- is_zero_vsub.
    destruct (is_zero (vsub y z)); split; done. }
  assert (Hfin : ∀ x y z : vec3, ¬ veq y z →
            corner_height x y z
            = Fin (vlength (noproject (vsub x z) (normalize (vsub y z))))).
  { intros x y z Hne. unfold corner_height.
    destruct (is_zero (vsub y z)) eqn:E; [|done].
    by apply is_zero_vsub in E. }
  assert (Hsym : ∀ x y : vec3, veq x y → veq y x).
  { intros x y (? & ? & ?). by repeat split. }
  split; [|split].
  - split.
    + intros Hmin. revert Hmin. rewrite <- (Hnan pb).
      destruct (corner_height pb pc pa) as [x|]; [|done].
      destruct (pymin_Fin x (corner_height pc pa pb)
                          (corner_height pa pb pc)) as [y Hy].
      rewrite Hy in *. by intros [= ?].
    + intros Hca. apply (Hnan pb) in Hca. by rewrite Hca, pymin_NaN.
  - intros Hca Hab prec.
    apply (Hnan pb) in Hca. rewrite Hca, pymin_NaN.
    rewrite (Hfin pc pa pb Hab).
    destruct (pymin_Fin (vlength (noproject (vsub pc pb)
                                            (normalize (vsub pa pb))))
                (corner_height pa pb pc) NaN)
      as [y Hy].
    exists NaN, y. by rewrite Hy.
  - intros Hab Hbc Hca.
    rewrite (Hfin pb pc pa Hca), (Hfin pc pa pb Hab), (Hfin pa pb pc Hbc).
    rewrite !pymin_Fin3. eexists _, _. split; [done|]. split; [done|].
    apply Qmin'_rotate.
Qed.

Lemma faceheight_rotation_witness :
  ∃ h h', @faceheight exact_math rect_mesh 0 = Val (Fin h) ∧
          @faceheight exact_math
            (mkMesh (points rect_mesh) [(1, 2, 0)] [0] []) 0 = Val (Fin h') ∧
          (h == h')%Q.
Proof.
  apply (@faceheight_rotation exact_math rect_mesh
           (mkMesh (points rect_mesh) [(1, 2, 0)] [0] []) 0 0 0 1 2
           (Qv 0 0 0) (Qv 4 0 0) (Qv 4 3 0));
    try reflexivity; intros (Hx & Hy & Hz); vm_compute in Hx, Hy;
    discriminate.
Defined.

(** ** [cut_line]: the outlines after simplification *)

Lemma simplify_groups_fst `{MeshLib} (pts : list vec3) (prec : Q)
    (result : list (list edge)) (acc : list (list edge) * gmap nat nat) :
  (foldl (fun acc grp =>
            let reindex := line_simplification pts grp prec in
            let lines :=
              omap (fun e : edge =>
                      let c := merges_get reindex e.1 in
                      let d := merges_get reindex e.2 in
                      if decide (c ≠ d) then Some (c, d) else None) grp in
            (acc.1 ++ [lines], dict_update acc.2 reindex))
         acc result).1
  = acc.1 ++
    ((fun grp =>
        omap (fun e : edge =>
                let c := merges_get (line_simplification pts grp prec) e.1 in
                let d := merges_get (line_simplification pts grp prec) e.2 in
                if decide (c ≠ d) then Some (c, d) else None) grp)
       <$> result).
Proof.
  revert acc. induction result as [|grp result IH]; intros acc; simpl.
  - by rewrite app_nil_r.
  - rewrite IH. simpl. by rewrite <- app_assoc.
Qed.

(** X18. The simplification of the outlines in [cut_line]
    (lines 330-338) keeps one outline for each group; each segment of an
    outline is a segment of the group with its two ends mapped by the
    merge map of that group, and its two ends differ. *)
Theorem simplify_groups_outlines `{MeshLib} (pts : list vec3) (prec : Q)
    (result : list (list edge)) :
  let r := (simplify_groups pts prec result).1 in
  length r = length result ∧
  ∀ (i : nat) out, r !! i = Some out →
    ∃ grp, result !! i = Some grp ∧
      ∀ e, e ∈ out →
        e.1 ≠ e.2 ∧
        ∃ e0, e0 ∈ grp ∧
          e = (merges_get (line_simplification pts grp prec) e0.1,
               merges_get (line_simplification pts grp prec) e0.2).
Proof.
  cbv zeta. unfold simplify_groups. rewrite simplify_groups_fst. simpl.
  split; [by rewrite length_fmap|].
  intros i out. rewrite list_lookup_fmap.
  destruct (result !! i) as [grp|]; simpl; [|done].
  intros [= <-]. exists grp. split; [done|].
  intros e He. apply list_elem_of_omap in He as (e0 & He0 & Hsome).
  cbv zeta in Hsome. case_decide as Hne; [|done].
  injection Hsome as <-. split; [done|]. by exists e0.
Qed.

(** ** The loop of [cut_edge] keeps the mesh consistent *)

Lemma preserves_ret (I : cut_state → Prop) {A} (a : A) : preserves I (mret a).
Proof. by intros st. Qed.

Lemma preserves_bind (I : cut_state → Prop) {A B} (c : ST cut_state A)
    (k : A → ST cut_state B) :
  preserves I c → (∀ a, preserves I (k a)) → preserves I (c ≫= k).
Proof.
  intros Hc Hk st Hst. rewrite ST_bind_unfold.
  specialize (Hc st Hst). destruct (c st) as [[a|e] st1]; [|done].
  by apply Hk.
Qed.

Lemma preserves_reads (I : cut_state → Prop) {A} (c : ST cut_state A) :
  reads c → preserves I c.
Proof. intros Hc st Hst. by rewrite Hc. Qed.

Lemma preserves_modify (f : cut_state → cut_state) :
  (∀ st, st_faces (f st) = st_faces st) →
  (∀ st, st_tracks (f st) = st_tracks st) →
  (∀ st, st_conn (f st) = st_conn st) →
  preserves mesh_ok (modify f).
Proof.
  intros Hf Ht Hc st [Hl Hs]. unfold mesh_ok. simpl.
  by rewrite Hf, Ht, Hc.
Qed.

Lemma preserves_usepointat `{Mathutils} (p : vec3) (prec : Q) :
  preserves mesh_ok (st_usepointat p prec).
Proof.
  unfold st_usepointat.
  apply preserves_bind; [apply preserves_reads, reads_gets|]. intros ps.
  apply preserves_bind; [by apply preserves_modify|].
  intros. apply preserves_ret.
Qed.

Lemma preserves_removal_update (f : gset nat → gset nat) :
  preserves mesh_ok (removal_update f).
Proof.
  unfold removal_update.
  apply preserves_bind; [apply preserves_reads, reads_gets|]. intros G.
  apply preserves_bind; [apply preserves_reads, reads_lift|]. intros v.
  destruct v; try apply preserves_reads, reads_raise.
  by apply preserves_modify.
Qed.

Lemma preserves_push_face_edges (f : face) :
  preserves mesh_ok (push_face_edges f).
Proof.
  unfold push_face_edges, front_append.
  repeat (apply preserves_bind; [|intros]); by apply preserves_modify.
Qed.

Lemma run_unregisterface (fi : nat) (st : cut_state) :
  (∃ e, st_unregisterface fi st = (Exc e, st)) ∨
  (∃ f0, st_faces st !! fi = Some f0 ∧
         st_unregisterface fi st
         = (Val tt, upd_conn (unregister_edges f0 (st_conn st)) st)).
Proof.
  unfold st_unregisterface, unregisterface, getitem.
  cbv beta iota zeta delta [mbind ST_bind res_bind gets lift modify mret
                            ST_ret res_ret].
  destruct (st_faces st !! fi) as [f0|]; [right|left]; eauto.
Qed.

Lemma run_registerface (k : nat) (f : face) (st : cut_state) :
  st_faces st !! k = Some f →
  st_registerface k st
  = (Val tt, upd_conn (register_edges f k (st_conn st)) st).
Proof.
  intros Hf. unfold st_registerface, registerface, getitem.
  cbv beta iota zeta delta [mbind ST_bind res_bind gets lift modify mret
                            ST_ret res_ret].
  by rewrite Hf.
Qed.

Lemma run_gettrack (k t : nat) (st : cut_state) :
  st_tracks st !! k = Some t → gettrack k st = (Val t, st).
Proof.
  intros Ht. unfold gettrack, getitem.
  cbv beta iota zeta delta [mbind ST_bind res_bind gets lift modify mret
                            ST_ret res_ret].
  by rewrite Ht.
Qed.

Lemma conn_sound_register (fs : list face) (conn : gmap edge nat)
    (k : nat) (f : face) :
  conn_sound fs conn → fs !! k = Some f →
  conn_sound fs (register_edges f k conn).
Proof.
  intros Hs Hf e j. rewrite register_edges_lookup. case_decide.
  - intros [= <-]. by exists f.
  - apply Hs.
Qed.

Lemma split_tail_ok {B} (fi : nat) (n0 n1 n2 : face) (K : ST cut_state B)
    (st : cut_state) :
  length (st_faces st) = length (st_tracks st) →
  conn_sound (st_faces st) (st_conn st) →
  (∀ e, st_conn st !! e ≠ Some fi) →
  fi < length (st_faces st) →
  preserves mesh_ok K →
  mesh_ok ((set_face fi n0 ;; append_face n1 ;; append_face n2 ;;
            t ← gettrack fi; append_track t ;;
            t ← gettrack fi; append_track t ;;
            st_registerface fi ;;
            st_registerface (length (st_faces st)) ;;
            st_registerface (length (st_faces st) + 1) ;; K) st).2.
Proof.
  intros Hlen Hs Hfree Hfi HK.
  destruct (lookup_lt_is_Some_2 (st_tracks st) fi) as [t Ht]; [lia|].
  destruct st as [[pts fs ts gs] conn seen front ints G].
  unfold st_faces, st_tracks in *. simpl in *.
  rewrite ST_bind_unfold. unfold set_face at 1, modify at 1. cbv beta iota.
  rewrite ST_bind_unfold. unfold append_face at 1, modify at 1. cbv beta iota.
  rewrite ST_bind_unfold. unfold append_face at 1, modify at 1. cbv beta iota.
  rewrite ST_bind_unfold. rewrite (run_gettrack fi t) by done. cbv beta iota.
  rewrite ST_bind_unfold. unfold append_track at 1, modify at 1. cbv beta iota.
  rewrite ST_bind_unfold.
  rewrite (run_gettrack fi t)
    by (unfold st_tracks; simpl; by apply lookup_app_l_Some).
  cbv beta iota.
  rewrite ST_bind_unfold. unfold append_track at 1, modify at 1. cbv beta iota.
  cbn [upd_mesh set_tracks set_faces st_mesh st_conn st_seen st_front
       st_intersections st_globals points faces tracks groups].
  assert (H0 : ((<[fi:=n0]> fs ++ [n1]) ++ [n2]) !! fi = Some n0).
  { rewrite <- app_assoc. apply lookup_app_l_Some.
    by apply list_lookup_insert_eq. }
  assert (H1 : ((<[fi:=n0]> fs ++ [n1]) ++ [n2]) !! length fs = Some n1).
  { apply lookup_app_l_Some.
    rewrite lookup_app_r by (rewrite length_insert; lia).
    rewrite length_insert. by replace (length fs - length fs) with 0 by lia. }
  assert (H2 : ((<[fi:=n0]> fs ++ [n1]) ++ [n2]) !! (length fs + 1) = Some n2).
  { rewrite lookup_app_r by (rewrite length_app, length_insert; simpl; lia).
    rewrite length_app, length_insert. simpl.
    by replace (length fs + 1 - (length fs + 1)) with 0 by lia. }
  rewrite ST_bind_unfold, (run_registerface fi n0) by done. cbv beta iota.
  rewrite ST_bind_unfold, (run_registerface (length fs) n1) by done.
  cbv beta iota.
  rewrite ST_bind_unfold, (run_registerface (length fs + 1) n2) by done.
  cbv beta iota.
  apply HK. split.
  - unfold st_faces, st_tracks. simpl.
    rewrite !length_app, length_insert. simpl. lia.
  - unfold st_faces. simpl.
    repeat apply conn_sound_register; try done.
    intros e k Hek. destruct (Hs e k Hek) as (f & Hf & He).
    assert (k ≠ fi) by (intros ->; by apply (Hfree e)).
    exists f. split; [|done].
    apply lookup_app_l_Some, lookup_app_l_Some.
    by rewrite list_lookup_insert_ne.
Qed.

(** After [unregisterface], no edge is sent to the face. *)
Lemma unregister_frees (fs : list face) (conn : gmap edge nat) (fi : nat)
    (f0 : face) :
  conn_sound fs conn → fs !! fi = Some f0 →
  conn_sound fs (unregister_edges f0 conn) ∧
  ∀ e, unregister_edges f0 conn !! e ≠ Some fi.
Proof.
  intros Hs Hf. split.
  - intros e k. rewrite unregister_edges_lookup. case_decide; [done|].
    apply Hs.
  - intros e. rewrite unregister_edges_lookup. case_decide as He; [done|].
    intros Hek. destruct (Hs e fi Hek) as (f & Hf' & Hin).
    rewrite Hf in Hf'. injection Hf' as <-. done.
Qed.

Ltac pres_step :=
  lazymatch goal with
  | |- preserves _ (mbind _ _) => apply preserves_bind; [|intros]
  | |- preserves _ (mret _) => apply preserves_ret
  | |- preserves _ (seen_add _) => by apply preserves_modify
  | |- preserves _ (modify (upd_seen _)) => by apply preserves_modify
  | |- preserves _ (front_append _) => by apply preserves_modify
  | |- preserves _ (intersections_add _) => by apply preserves_modify
  | |- preserves _ (st_usepointat _ _) => apply preserves_usepointat
  | |- preserves _ (removal_add _) => apply preserves_removal_update
  | |- preserves _ (removal_discard _) => apply preserves_removal_update
  | |- preserves _ (push_face_edges _) => apply preserves_push_face_edges
  | |- preserves _ (gets _) => apply preserves_reads, reads_gets
  | |- preserves _ (getface _) => apply preserves_reads, reads_getface
  | |- preserves _ (gettrack _) => apply preserves_reads, reads_gettrack
  | |- preserves _ (getpoint _) => apply preserves_reads, reads_getpoint
  | |- preserves _ (if ?b then _ else _) => destruct b
  | |- preserves _ (match ?x with _ => _ end) => destruct x
  | |- preserves _ (let _ := _ in _) => cbv zeta
  end.

Section MeshOkCutEdge.
Context `{Mathutils}.
Variables (cutplane : vec3 * vec3) (s1 s2 : option plane) (prec : Q).

Lemma preserves_plane_split (fi : nat) (f : face) (j : Z) (cj cj1 : vec3) :
  preserves mesh_ok (plane_split cutplane prec fi f j cj cj1).
Proof.
  unfold plane_split.
  apply preserves_bind; [apply preserves_removal_update|]. intros _.
  apply preserves_bind; [apply preserves_usepointat|]. intros p1.
  apply preserves_bind; [apply preserves_usepointat|]. intros p2.
  intros st [Hlen Hs]. rewrite ST_bind_unfold.
  destruct (run_unregisterface fi st) as [[e ->]|(f0 & Hf0 & ->)];
    [by split|].
  cbv beta iota. rewrite ST_bind_unfold. unfold gets at 1. cbv beta iota.
  destruct (unregister_frees _ _ _ _ Hs Hf0) as [Hs' Hfree].
  apply split_tail_ok; try done.
  - by apply lookup_lt_Some in Hf0.
  - repeat pres_step.
Qed.

Lemma preserves_axis_split (fi : nat) (f : face) (e : edge) (p : vec3) :
  preserves mesh_ok (axis_split prec fi f e p).
Proof.
  unfold axis_split.
  apply preserves_bind; [apply preserves_usepointat|]. intros pi.
  intros st [Hlen Hs]. rewrite ST_bind_unfold. unfold gets at 1.
  cbv beta iota. rewrite ST_bind_unfold.
  destruct (run_unregisterface fi st) as [[ex ->]|(f0 & Hf0 & ->)];
    [by split|].
  cbv beta iota.
  destruct (unregister_frees _ _ _ _ Hs Hf0) as [Hs' Hfree].
  change (length (st_faces st))
    with (length (st_faces (upd_conn (unregister_edges f0 (st_conn st)) st))).
  apply split_tail_ok; try done.
  - by apply lookup_lt_Some in Hf0.
  - repeat pres_step.
Qed.

Lemma preserves_cut_faces (fi : nat) (f : face)
    (cut : option vec3 * option vec3 * option vec3) (js : list Z)
    (cutted : bool) :
  preserves mesh_ok (cut_faces cutplane s1 s2 prec fi f cut js cutted).
Proof.
  revert cutted. induction js as [|j js IH]; intros cutted; simpl.
  - apply preserves_ret.
  - destruct (fnth cut j); [|apply IH].
    destruct (fnth cut (j - 1)); [|apply IH].
    destruct (out_of_s1 s1 prec _ _); [apply IH|].
    destruct (out_of_s2 s2 prec _ _); [apply IH|].
    apply preserves_bind; [apply preserves_plane_split|].
    intros; apply preserves_ret.
Qed.

Lemma preserves_cut_seen_face (fi : nat) (f : face) :
  preserves mesh_ok (cut_seen_face cutplane s1 s2 prec fi f).
Proof.
  unfold cut_seen_face.
  repeat first [apply preserves_cut_faces | pres_step].
Qed.

Lemma preserves_process_face (fi : nat) (f : face) :
  preserves mesh_ok (process_face cutplane s1 s2 prec fi f).
Proof.
  unfold process_face. apply preserves_bind; [by apply preserves_modify|].
  intros. apply preserves_cut_seen_face.
Qed.

Lemma preserves_split_or_process (p : option vec3) (fi : nat) (f : face)
    (e : edge) :
  preserves mesh_ok (split_or_process cutplane s1 s2 prec p fi f e).
Proof.
  unfold split_or_process. apply preserves_bind.
  - destruct p; [|apply preserves_ret]. repeat pres_step.
  - intros far. destruct p as [q|]; [destruct far|].
    + apply preserves_axis_split.
    + apply preserves_process_face.
    + apply preserves_process_face.
Qed.

Lemma preserves_axis_point (fi : nat) :
  preserves mesh_ok (axis_point s1 s2 fi).
Proof.
  intros st Hst. by destruct (axis_point_None s1 s2 fi st) as [->|[e ->]].
Qed.

Lemma preserves_visit (e : edge) :
  preserves mesh_ok (visit cutplane s1 s2 prec e).
Proof.
  unfold visit.
  apply preserves_bind; [apply preserves_reads, reads_gets|]. intros conn.
  destruct (conn !! e) as [fi|]; [|apply preserves_ret].
  apply preserves_bind; [apply preserves_reads, reads_gets|]. intros seen.
  destruct (decide (fi ∈ seen)); [apply preserves_ret|].
  unfold visit_face.
  apply preserves_bind; [apply preserves_reads, reads_getface|]. intros f.
  apply preserves_bind; [apply preserves_reads, reads_gets|]. intros m.
  apply preserves_bind; [apply preserves_reads, reads_lift|]. intros h.
  destruct (float_leb h prec).
  - apply preserves_bind; [by apply preserves_modify|].
    intros. apply preserves_push_face_edges.
  - apply preserves_bind; [apply preserves_axis_point|].
    intros p. apply preserves_split_or_process.
Qed.

Lemma preserves_cut_edge_iter :
  preserves mesh_ok (cut_edge_iter cutplane s1 s2 prec).
Proof.
  unfold cut_edge_iter.
  apply preserves_bind; [apply preserves_reads, reads_gets|]. intros front.
  destruct (pop front) as [[e rest]|]; [|apply preserves_ret].
  apply preserves_bind; [by apply preserves_modify|]. intros _.
  apply preserves_bind; [apply preserves_visit|]. intros _.
  apply preserves_ret.
Qed.

Lemma preserves_cut_edge_loop (fuel : nat) :
  preserves mesh_ok (cut_edge_loop cutplane s1 s2 prec fuel).
Proof.
  induction fuel as [|fuel IH]; cbn [cut_edge_loop]; [apply preserves_ret|].
  apply preserves_bind; [apply preserves_cut_edge_iter|].
  intros [|]; [apply IH|apply preserves_ret].
Qed.

End MeshOkCutEdge.

(** X19. The loop of [cut_edge], and [cut_edge] as a whole, keep the mesh
    store consistent, whether they return or raise: when the faces and the
    tracks have the same length and every edge of the connectivity map
    belongs to the face it is sent to, the same holds after any number of
    turns. *)
Theorem cut_edge_keeps_mesh_consistent `{Mathutils} (cutplane : vec3 * vec3)
    (s1 s2 : option plane) (prec : Q) (st : cut_state) :
  mesh_ok st →
  (∀ n : nat, mesh_ok (loop_state cutplane s1 s2 prec n st)) ∧
  (∀ (fuel : nat) (e : list nat) (offset : vec3),
     mesh_ok (cut_edge fuel e offset s1 s2 prec st).2).
Proof.
  intros Hok. split.
  - intros n. by apply preserves_cut_edge_loop.
  - intros fuel e offset. revert st Hok.
    change (preserves mesh_ok (cut_edge fuel e offset s1 s2 prec)).
    unfold cut_edge.
    apply preserves_bind; [apply preserves_reads, reads_lift|]. intros e0.
    apply preserves_bind; [apply preserves_reads, reads_getpoint|]. intros p.
    cbv zeta.
    apply preserves_bind; [by apply preserves_modify|]. intros _.
    apply preserves_bind; [apply preserves_reads, reads_gets|]. intros G.
    apply preserves_bind; [apply preserves_reads, reads_lift|]. intros front.
    apply preserves_bind; [by apply preserves_modify|]. intros _.
    apply preserves_bind; [by apply preserves_modify|]. intros _.
    apply preserves_bind; [apply preserves_cut_edge_loop|]. intros [|].
    + apply preserves_bind; [apply preserves_reads, reads_gets|].
      intros. apply preserves_ret.
    + apply preserves_ret.
Qed.

Lemma rect_mesh_ok (G : gmap string pyval) : mesh_ok (rect_seeded G).
Proof.
  split; [reflexivity|].
  intros e k. unfold rect_seeded, st_conn, st_faces, rect_conn. simpl.
  rewrite !register_edges_lookup. repeat case_decide.
  - intros [= <-]. by exists (0, 2, 3).
  - intros [= <-]. by exists (0, 1, 2).
  - by rewrite lookup_empty.
Qed.

Lemma cut_edge_keeps_mesh_consistent_witness :
  mesh_ok (@loop_state exact_math rect_cutplane None None small_prec 5
             (rect_seeded patched_globals)).
Proof.
  apply (proj1 (@cut_edge_keeps_mesh_consistent exact_math rect_cutplane
                  None None small_prec (rect_seeded patched_globals)
                  (rect_mesh_ok patched_globals)) 5).
Defined.

(** ** The loop of [cut_edge] keeps the groups of the faces *)

Section TracksCutEdge.
Context `{Mathutils}.
Variables (cutplane : vec3 * vec3) (s1 s2 : option plane) (prec : Q).
(** A condition on the tracks that holds again when the track of a face
    is appended. *)
Variable P : list nat → Prop.
Hypothesis P_append : ∀ ts (k t : nat), P ts → ts !! k = Some t → P (ts ++ [t]).

Lemma tracks_modify (f : cut_state → cut_state) :
  (∀ st, st_tracks (f st) = st_tracks st) →
  preserves (on_tracks P) (modify f).
Proof. intros Hf st HP. unfold on_tracks. simpl. by rewrite Hf. Qed.

Lemma tracks_usepointat (p : vec3) :
  preserves (on_tracks P) (st_usepointat p prec).
Proof.
  unfold st_usepointat.
  apply preserves_bind; [apply preserves_reads, reads_gets|]. intros ps.
  apply preserves_bind; [by apply tracks_modify|].
  intros. apply preserves_ret.
Qed.

Lemma tracks_removal_update (f : gset nat → gset nat) :
  preserves (on_tracks P) (removal_update f).
Proof.
  unfold removal_update.
  apply preserves_bind; [apply preserves_reads, reads_gets|]. intros G.
  apply preserves_bind; [apply preserves_reads, reads_lift|]. intros v.
  destruct v; try apply preserves_reads, reads_raise.
  by apply tracks_modify.
Qed.

Lemma tracks_push_face_edges (f : face) :
  preserves (on_tracks P) (push_face_edges f).
Proof.
  unfold push_face_edges, front_append.
  repeat (apply preserves_bind; [|intros]); by apply tracks_modify.
Qed.

Lemma tracks_registerface (k : nat) :
  preserves (on_tracks P) (st_registerface k).
Proof.
  unfold st_registerface.
  apply preserves_bind; [apply preserves_reads, reads_gets|]. intros fs.
  apply preserves_bind; [apply preserves_reads, reads_gets|]. intros conn.
  apply preserves_bind; [apply preserves_reads, reads_lift|]. intros c.
  by apply tracks_modify.
Qed.

Lemma tracks_unregisterface (k : nat) :
  preserves (on_tracks P) (st_unregisterface k).
Proof.
  unfold st_unregisterface.
  apply preserves_bind; [apply preserves_reads, reads_gets|]. intros fs.
  apply preserves_bind; [apply preserves_reads, reads_gets|]. intros conn.
  apply preserves_bind; [apply preserves_reads, reads_lift|]. intros c.
  by apply tracks_modify.
Qed.

(** [mesh.tracks.append(mesh.tracks[fi])] *)
Lemma tracks_append_same {B} (fi : nat) (K : ST cut_state B) :
  preserves (on_tracks P) K →
  preserves (on_tracks P) (t ← gettrack fi; append_track t ;; K).
Proof.
  intros HK st HP. rewrite ST_bind_unfold.
  destruct (st_tracks st !! fi) as [t|] eqn:Et.
  - rewrite (run_gettrack fi t) by done. cbv beta iota.
    rewrite ST_bind_unfold. unfold append_track at 1, modify at 1.
    cbv beta iota. apply HK. unfold on_tracks in *.
    destruct st as [[pts fs ts gs] conn seen front ints G].
    unfold st_tracks in *. simpl in *. by eapply P_append.
  - unfold gettrack, getitem.
    cbv beta iota zeta delta [mbind ST_bind res_bind gets lift modify mret
                              ST_ret res_ret].
    by rewrite Et.
Qed.

Ltac tracks_step :=
  lazymatch goal with
  | |- preserves _ (mbind (fun t => mbind _ (append_track t)) (gettrack _)) =>
      apply tracks_append_same
  | |- preserves _ (mbind _ _) => apply preserves_bind; [|intros]
  | |- preserves _ (mret _) => apply preserves_ret
  | |- preserves _ (seen_add _) => by apply tracks_modify
  | |- preserves _ (modify (upd_seen _)) => by apply tracks_modify
  | |- preserves _ (front_append _) => by apply tracks_modify
  | |- preserves _ (intersections_add _) => by apply tracks_modify
  | |- preserves _ (set_face _ _) => by apply tracks_modify
  | |- preserves _ (append_face _) => by apply tracks_modify
  | |- preserves _ (st_usepointat _ _) => apply tracks_usepointat
  | |- preserves _ (st_registerface _) => apply tracks_registerface
  | |- preserves _ (st_unregisterface _) => apply tracks_unregisterface
  | |- preserves _ (removal_add _) => apply tracks_removal_update
  | |- preserves _ (removal_discard _) => apply tracks_removal_update
  | |- preserves _ (push_face_edges _) => apply tracks_push_face_edges
  | |- preserves _ (gets _) => apply preserves_reads, reads_gets
  | |- preserves _ (getface _) => apply preserves_reads, reads_getface
  | |- preserves _ (getpoint _) => apply preserves_reads, reads_getpoint
  | |- preserves _ (if ?b then _ else _) => destruct b
  | |- preserves _ (match ?x with _ => _ end) => destruct x
  | |- preserves _ (let _ := _ in _) => cbv zeta
  end.

Lemma tracks_plane_split (fi : nat) (f : face) (j : Z) (cj cj1 : vec3) :
  preserves (on_tracks P) (plane_split cutplane prec fi f j cj cj1).
Proof. unfold plane_split. repeat tracks_step. Qed.

Lemma tracks_axis_split (fi : nat) (f : face) (e : edge) (p : vec3) :
  preserves (on_tracks P) (axis_split prec fi f e p).
Proof. unfold axis_split. repeat tracks_step. Qed.

Lemma tracks_cut_faces (fi : nat) (f : face)
    (cut : option vec3 * option vec3 * option vec3) (js : list Z)
    (cutted : bool) :
  preserves (on_tracks P) (cut_faces cutplane s1 s2 prec fi f cut js cutted).
Proof.
  revert cutted. induction js as [|j js IH]; intros cutted; simpl.
  - apply preserves_ret.
  - destruct (fnth cut j); [|apply IH].
    destruct (fnth cut (j - 1)); [|apply IH].
    destruct (out_of_s1 s1 prec _ _); [apply IH|].
    destruct (out_of_s2 s2 prec _ _); [apply IH|].
    apply preserves_bind; [apply tracks_plane_split|].
    intros; apply preserves_ret.
Qed.

Lemma tracks_cut_seen_face (fi : nat) (f : face) :
  preserves (on_tracks P) (cut_seen_face cutplane s1 s2 prec fi f).
Proof.
  unfold cut_seen_face.
  repeat first [apply tracks_cut_faces | tracks_step].
Qed.

Lemma tracks_visit (e : edge) :
  preserves (on_tracks P) (visit cutplane s1 s2 prec e).
Proof.
  unfold visit.
  apply preserves_bind; [apply preserves_reads, reads_gets|]. intros conn.
  destruct (conn !! e) as [fi|]; [|apply preserves_ret].
  apply preserves_bind; [apply preserves_reads, reads_gets|]. intros seen.
  destruct (decide (fi ∈ seen)); [apply preserves_ret|].
  unfold visit_face.
  apply preserves_bind; [apply preserves_reads, reads_getface|]. intros f.
  apply preserves_bind; [apply preserves_reads, reads_gets|]. intros m.
  apply preserves_bind; [apply preserves_reads, reads_lift|]. intros h.
  destruct (float_leb h prec).
  - apply preserves_bind; [by apply tracks_modify|].
    intros. apply tracks_push_face_edges.
  - apply preserves_bind.
    { intros st Hst.
      by destruct (axis_point_None s1 s2 fi st) as [->|[ex ->]]. }
    intros p. unfold split_or_process. apply preserves_bind.
    + destruct p; [|apply preserves_ret]. repeat tracks_step.
    + intros far. unfold process_face.
      destruct p as [q|]; [destruct far|].
      * apply tracks_axis_split.
      * apply preserves_bind; [by apply tracks_modify|].
        intros. apply tracks_cut_seen_face.
      * apply preserves_bind; [by apply tracks_modify|].
        intros. apply tracks_cut_seen_face.
Qed.

Lemma tracks_cut_edge_loop (fuel : nat) :
  preserves (on_tracks P) (cut_edge_loop cutplane s1 s2 prec fuel).
Proof.
  induction fuel as [|fuel IH]; cbn [cut_edge_loop]; [apply preserves_ret|].
  apply preserves_bind; [|intros [|]; [apply IH|apply preserves_ret]].
  unfold cut_edge_iter.
  apply preserves_bind; [apply preserves_reads, reads_gets|]. intros front.
  destruct (pop front) as [[e rest]|]; [|apply preserves_ret].
  apply preserves_bind; [by apply tracks_modify|]. intros _.
  apply preserves_bind; [apply tracks_visit|]. intros _.
  apply preserves_ret.
Qed.

End TracksCutEdge.

(** X20. The loop of [cut_edge] never changes the track of a face, and
    every track it appends is one the mesh held: the tracks before the
    loop are a prefix of the tracks after any number of turns, and every
    track after them is a track from before. *)
Theorem cut_edge_keeps_groups `{Mathutils} (cutplane : vec3 * vec3)
    (s1 s2 : option plane) (prec : Q) (st : cut_state) (n : nat) :
  tracks_kept (st_tracks st)
              (st_tracks (loop_state cutplane s1 s2 prec n st)).
Proof.
  assert (Happend : ∀ ts (k t : nat),
            tracks_kept (st_tracks st) ts → ts !! k = Some t →
            tracks_kept (st_tracks st) (ts ++ [t])).
  { intros ts k t [Hpre Hin] Hk. split.
    - by apply prefix_app_r.
    - intros t'. rewrite elem_of_app, list_elem_of_singleton.
      intros [?| ->]; [by apply Hin|].
      apply Hin. by eapply list_elem_of_lookup_2. }
  assert (Hinit : on_tracks (tracks_kept (st_tracks st)) st).
  { split; [done|]. by intros t. }
  exact (tracks_cut_edge_loop cutplane s1 s2 prec
           (tracks_kept (st_tracks st)) Happend n st Hinit).
Qed.
